(** * Kanban CRM board: lead cache and funnel-stage registry

    Shallow embedding of the state logic of the three revisions of the
    [CRM] React component (a board with lane arrows and a status dropdown,
    a board with draggable lanes, and a board with a fixed set of stages)
    together with the store client in [lib/supabase.ts].

    Conventions of the embedding:
    - a JavaScript string is the list of its UTF-16 code units;
    - a plain object used as a dictionary is the list of its own
      properties in enumeration order, without repeated keys;
    - an event handler is a small program ([Prog]) made of state updates
      and awaited remote calls; [run] executes it against an oracle that
      answers the remote calls;
    - a handler reads React state through its closure, so it takes the
      state of the render that created it as an argument, while
      functional updates ([setX(prev => ...)]) act on the state current at
      the time they are applied. *)

From Stdlib Require Import Ascii String.
From Stdlib Require Import List ZArith NArith Bool Lia Permutation Sorted.
From Equations Require Import Equations.
Import ListNotations.

Local Open Scope list_scope.

(* ===================================================================== *)
(** ** JavaScript strings *)
(* ===================================================================== *)

(** A string value: its sequence of UTF-16 code units. *)
Definition str : Type := list N.

(** Literal with code units below 128, written as a Rocq string. *)
Definition lit (s : string) : str :=
  map N_of_ascii (list_ascii_of_string s).

(** [a === b] on strings. *)
Fixpoint str_eqb (a b : str) : bool :=
  match a, b with
  | [], [] => true
  | x :: a', y :: b' => N.eqb x y && str_eqb a' b'
  | _, _ => false
  end.

(** The code units matched by the regular expression class [\s], which
    are also the ones [String.prototype.trim] strips: WhiteSpace and
    LineTerminator of ECMAScript. *)
Definition is_ws (c : N) : bool :=
  ((9 <=? c) && (c <=? 13) ||
   (c =? 32) || (c =? 160) || (c =? 5760) ||
   (8192 <=? c) && (c <=? 8202) ||
   (c =? 8232) || (c =? 8233) || (c =? 8239) || (c =? 8287) ||
   (c =? 12288) || (c =? 65279))%N.

Fixpoint dropWhile {A} (p : A -> bool) (l : list A) : list A :=
  match l with
  | [] => []
  | x :: t => if p x then dropWhile p t else l
  end.

(** [s.trim()] *)
Definition trim (s : str) : str :=
  rev (dropWhile is_ws (rev (dropWhile is_ws s))).

(** Truthiness of a string: the empty string is the only falsy one. *)
Definition truthy_str (s : str) : bool :=
  match s with [] => false | _ :: _ => true end.

Definition underscore : N := 95.

Lemma dropWhile_length {A} (p : A -> bool) (l : list A) :
  length (dropWhile p l) <= length l.
Proof.
  induction l as [|x t IH]; simpl; [lia|].
  destruct (p x); simpl; lia.
Qed.

(** [s.replace(/\s+/g, '_')]: the global replace scans from the left; at a
    position where [\s+] matches, the greedy quantifier consumes the whole
    run of whitespace, one underscore is emitted and the scan resumes after
    the match; any other code unit is copied. *)
Equations? replace_ws (s : str) : str by wf (length s) lt :=
  replace_ws [] := [];
  replace_ws (c :: t) with is_ws c => {
    | true := underscore :: replace_ws (dropWhile is_ws t);
    | false := c :: replace_ws t }.
Proof.
  pose proof (dropWhile_length is_ws t). simpl. lia.
Qed.

(** Lower-casing restricted to the Basic Latin letters; used to run the
    model on concrete titles. *)
Definition ascii_toLowerCase (s : str) : str :=
  map (fun c => if ((65 <=? c) && (c <=? 90))%N then (c + 32)%N else c) s.

(* ===================================================================== *)
(** ** Numbers held by the [order] field *)
(* ===================================================================== *)

(** The [order] of a stage is a JavaScript number.  The values the program
    can put there are the integers (the seed values, array indices, and
    successors of those) and [-Infinity], which is what [Math.max()]
    returns when it is given no argument.  Integers are taken exactly:
    they stay far below 2^53. *)
Inductive num : Type :=
| NegInf
| Int (z : Z).

(** [n + 1] *)
Definition num_succ (n : num) : num :=
  match n with
  | NegInf => NegInf
  | Int z => Int (z + 1)
  end.

Definition num_max (a b : num) : num :=
  match a, b with
  | NegInf, _ => b
  | _, NegInf => a
  | Int x, Int y => Int (Z.max x y)
  end.

(** [Math.max(...l)]; [-Infinity] for an empty argument list. *)
Definition Math_max (l : list num) : num := fold_left num_max l NegInf.

(** Sign of [a - b] as a sort comparator sees it: [-Infinity - -Infinity]
    is [NaN], which [Array.prototype.sort] treats as 0. *)
Definition num_compare (a b : num) : comparison :=
  match a, b with
  | NegInf, NegInf => Eq
  | NegInf, Int _ => Lt
  | Int _, NegInf => Gt
  | Int x, Int y => Z.compare x y
  end.

(* ===================================================================== *)
(** ** Plain objects used as dictionaries *)
(* ===================================================================== *)

Section Obj.
Context {V : Type}.

(** Own properties in enumeration order; keys are pairwise distinct. *)
Definition obj : Type := list (str * V).

Definition Object_entries (o : obj) : list (str * V) := o.
Definition Object_keys (o : obj) : list str := map fst o.
Definition Object_values (o : obj) : list V := map snd o.

(** [o[k]] for an own property ([None] stands for [undefined]). *)
Fixpoint obj_get (k : str) (o : obj) : option V :=
  match o with
  | [] => None
  | (k', v) :: t => if str_eqb k' k then Some v else obj_get k t
  end.

(** Value of a canonical array-index key: decimal digits without a
    leading zero, below 2^32 - 1.  Such keys are enumerated first, in
    ascending numeric order. *)
Fixpoint digits_value (acc : N) (s : str) : option N :=
  match s with
  | [] => Some acc
  | c :: t =>
      if ((48 <=? c) && (c <=? 57))%N
      then digits_value (acc * 10 + (c - 48))%N t
      else None
  end.

Definition array_index (k : str) : option N :=
  match k with
  | [] => None
  | c :: t =>
      if (c =? 48)%N && negb (match t with [] => true | _ => false end)
      then None
      else match digits_value 0%N k with
           | Some n => if (n <? 4294967295)%N then Some n else None
           | None => None
           end
  end.

(** Position of a new array-index key [n]: before the first property
    that is not an array index or has a larger index. *)
Fixpoint insert_index (n : N) (k : str) (v : V) (o : obj) : obj :=
  match o with
  | [] => [(k, v)]
  | (k', v') :: t =>
      match array_index k' with
      | Some m => if (m <? n)%N then (k', v') :: insert_index n k v t
                  else (k, v) :: o
      | None => (k, v) :: o
      end
  end.

(** [o[k] = f(o[k])] for an own property [k]: the property keeps its
    place in the enumeration. *)
Fixpoint obj_update (k : str) (f : V -> V) (o : obj) : obj :=
  match o with
  | [] => []
  | (k', v') :: t =>
      if str_eqb k' k then (k', f v') :: t else (k', v') :: obj_update k f t
  end.

(** [o[k] = v], and also [{ ...o, [k]: v }]: an existing property keeps
    its place; a new one goes last, unless its key is an array index. *)
Definition obj_set (k : str) (v : V) (o : obj) : obj :=
  match obj_get k o with
  | Some _ => obj_update k (fun _ => v) o
  | None =>
      match array_index k with
      | Some n => insert_index n k v o
      | None => o ++ [(k, v)]
      end
  end.

(** [delete o[k]] *)
Definition obj_delete (k : str) (o : obj) : obj :=
  filter (fun e => negb (str_eqb (fst e) k)) o.

(** Well-formedness of the representation: no repeated key. *)
Definition wf_obj (o : obj) : Prop := NoDup (Object_keys o).
End Obj.

Arguments obj : clear implicits.

(* ===================================================================== *)
(** ** Arrays *)
(* ===================================================================== *)

Section Arrays.
Context {A : Type}.

(** [a.sort(cmp)] is stable; insertion from the right keeps an element
    in front of the later ones it compares equal to. *)
Fixpoint sort_insert (cmp : A -> A -> comparison) (x : A) (l : list A) : list A :=
  match l with
  | [] => [x]
  | y :: t =>
      match cmp x y with
      | Gt => y :: sort_insert cmp x t
      | _ => x :: l
      end
  end.

Fixpoint Array_sort (cmp : A -> A -> comparison) (l : list A) : list A :=
  match l with
  | [] => []
  | x :: t => sort_insert cmp x (Array_sort cmp t)
  end.

(** [a.splice(start, 1)] for [start >= 0]: the removed elements (none
    when [start] is past the end) and the array that is left. *)
Definition splice_remove1 (start : nat) (a : list A) : list A * list A :=
  (firstn 1 (skipn start a), firstn start a ++ skipn (S start) a).

(** [a.splice(start, 0, x)] for [start >= 0]; a [start] past the end
    inserts at the end. *)
Definition splice_insert (start : nat) (x : A) (a : list A) : list A :=
  firstn start a ++ x :: skipn start a.

(** [a.findIndex(p)]; [None] stands for [-1]. *)
Fixpoint findIndex (p : A -> bool) (a : list A) : option nat :=
  match a with
  | [] => None
  | x :: t => if p x then Some 0
              else match findIndex p t with
                   | Some i => Some (S i)
                   | None => None
                   end
  end.
End Arrays.

(* ===================================================================== *)
(** ** Data model *)
(* ===================================================================== *)

(** A row of [trial_registrations] as the store returns it
    ([interface TrialRegistration]); optional fields may be absent. *)
Record TrialRegistration : Type := {
  reg_id : option str;
  reg_full_name : str;
  reg_phone : str;
  reg_age : Z;
  reg_class_day : str;
  reg_class_time : str;
  reg_class_name : str;
  reg_specific_date : str;
  reg_status : option str;
  reg_created_at : option str
}.

(** [interface Lead extends TrialRegistration]: the status is always a
    string.  The identifier is copied as it is ([lead.id!] asserts a type,
    it computes nothing). *)
Record Lead : Type := {
  id : option str;
  full_name : str;
  phone : str;
  age : Z;
  class_day : str;
  class_time : str;
  class_name : str;
  specific_date : str;
  status : str;
  created_at : option str
}.

(** [{ ...lead, status: s }] *)
Definition with_status (lead : Lead) (s : str) : Lead :=
  {| id := id lead; full_name := full_name lead; phone := phone lead;
     age := age lead; class_day := class_day lead;
     class_time := class_time lead; class_name := class_name lead;
     specific_date := specific_date lead; status := s;
     created_at := created_at lead |}.

(** [lead.id === x] for a string [x]. *)
Definition id_is (lead : Lead) (x : str) : bool :=
  match id lead with
  | Some i => str_eqb i x
  | None => false
  end.

Record FunnelStage : Type := {
  title : str;
  color : str;
  editable : option bool;
  order : num
}.

(** [{ ...stage, order: n }] *)
Definition with_order (stage : FunnelStage) (n : num) : FunnelStage :=
  {| title := title stage; color := color stage;
     editable := editable stage; order := n |}.

Definition stage (t c : string) (o : Z) : FunnelStage :=
  {| title := lit t; color := lit c; editable := None; order := Int o |}.

Definition DEFAULT_FUNNEL_STAGES : obj FunnelStage :=
  [ (lit "pending", stage "Novos Leads" "bg-blue-500" 0);
    (lit "contacted", stage "Contatados" "bg-yellow-500" 1);
    (lit "confirmed", stage "Confirmados" "bg-green-500" 2);
    (lit "completed", stage "Compareceram" "bg-purple-500" 3);
    (lit "enrolled", stage "Matriculados" "bg-emerald-500" 4);
    (lit "no_show",
      {| title := lit "N" ++ [227%N] ++ lit "o Compareceram";
         color := lit "bg-red-500"; editable := None; order := Int 5 |});
    (lit "cancelled", stage "Cancelados" "bg-gray-500" 6) ].

(** Component state: one field per [useState] cell. *)
Record State : Type := {
  leads : list Lead;
  isLoading : bool;
  error : str;
  selectedLead : option Lead;
  showLeadDetails : bool;
  showNewLaneModal : bool;
  newLaneName : str;
  newLaneColor : str;
  funnelStages : obj FunnelStage;
  isDraggingLane : bool;
  openDropdown : option str
}.

Definition initial_state : State :=
  {| leads := []; isLoading := true; error := []; selectedLead := None;
     showLeadDetails := false; showNewLaneModal := false;
     newLaneName := []; newLaneColor := lit "bg-indigo-500";
     funnelStages := DEFAULT_FUNNEL_STAGES; isDraggingLane := false;
     openDropdown := None |}.

Definition setLeads (f : list Lead -> list Lead) (s : State) : State :=
  {| leads := f (leads s); isLoading := isLoading s; error := error s;
     selectedLead := selectedLead s; showLeadDetails := showLeadDetails s;
     showNewLaneModal := showNewLaneModal s; newLaneName := newLaneName s;
     newLaneColor := newLaneColor s; funnelStages := funnelStages s;
     isDraggingLane := isDraggingLane s; openDropdown := openDropdown s |}.

Definition setIsLoading (b : bool) (s : State) : State :=
  {| leads := leads s; isLoading := b; error := error s;
     selectedLead := selectedLead s; showLeadDetails := showLeadDetails s;
     showNewLaneModal := showNewLaneModal s; newLaneName := newLaneName s;
     newLaneColor := newLaneColor s; funnelStages := funnelStages s;
     isDraggingLane := isDraggingLane s; openDropdown := openDropdown s |}.

Definition setError (e : str) (s : State) : State :=
  {| leads := leads s; isLoading := isLoading s; error := e;
     selectedLead := selectedLead s; showLeadDetails := showLeadDetails s;
     showNewLaneModal := showNewLaneModal s; newLaneName := newLaneName s;
     newLaneColor := newLaneColor s; funnelStages := funnelStages s;
     isDraggingLane := isDraggingLane s; openDropdown := openDropdown s |}.

Definition setShowNewLaneModal (b : bool) (s : State) : State :=
  {| leads := leads s; isLoading := isLoading s; error := error s;
     selectedLead := selectedLead s; showLeadDetails := showLeadDetails s;
     showNewLaneModal := b; newLaneName := newLaneName s;
     newLaneColor := newLaneColor s; funnelStages := funnelStages s;
     isDraggingLane := isDraggingLane s; openDropdown := openDropdown s |}.

Definition setNewLaneName (n : str) (s : State) : State :=
  {| leads := leads s; isLoading := isLoading s; error := error s;
     selectedLead := selectedLead s; showLeadDetails := showLeadDetails s;
     showNewLaneModal := showNewLaneModal s; newLaneName := n;
     newLaneColor := newLaneColor s; funnelStages := funnelStages s;
     isDraggingLane := isDraggingLane s; openDropdown := openDropdown s |}.

Definition setNewLaneColor (c : str) (s : State) : State :=
  {| leads := leads s; isLoading := isLoading s; error := error s;
     selectedLead := selectedLead s; showLeadDetails := showLeadDetails s;
     showNewLaneModal := showNewLaneModal s; newLaneName := newLaneName s;
     newLaneColor := c; funnelStages := funnelStages s;
     isDraggingLane := isDraggingLane s; openDropdown := openDropdown s |}.

Definition setFunnelStages (f : obj FunnelStage -> obj FunnelStage)
    (s : State) : State :=
  {| leads := leads s; isLoading := isLoading s; error := error s;
     selectedLead := selectedLead s; showLeadDetails := showLeadDetails s;
     showNewLaneModal := showNewLaneModal s; newLaneName := newLaneName s;
     newLaneColor := newLaneColor s; funnelStages := f (funnelStages s);
     isDraggingLane := isDraggingLane s; openDropdown := openDropdown s |}.

Definition setIsDraggingLane (b : bool) (s : State) : State :=
  {| leads := leads s; isLoading := isLoading s; error := error s;
     selectedLead := selectedLead s; showLeadDetails := showLeadDetails s;
     showNewLaneModal := showNewLaneModal s; newLaneName := newLaneName s;
     newLaneColor := newLaneColor s; funnelStages := funnelStages s;
     isDraggingLane := b; openDropdown := openDropdown s |}.

(* ===================================================================== *)
(** ** Handlers as programs *)
(* ===================================================================== *)

(** Calls to the remote store. *)
Inductive Remote : Type :=
| SelectTrialRegistrations
    (** the query of [getTrialRegistrations]: all rows, newest first *)
| UpdateTrialRegistrationStatus (leadId newStatus : str).

(** Answer of the store: the call completes (with rows, for a select) or
    fails. *)
Inductive Response : Type :=
| Resolved (data : list TrialRegistration)
| Rejected.

(** A handler body.  [SetState f k] applies a state setter and goes on;
    [Await c k] suspends on a remote call and resumes with its answer;
    [Throw] is an exception that nothing catches. *)
Inductive Prog : Type :=
| Ret
| Throw
| SetState (f : State -> State) (k : Prog)
| Await (c : Remote) (k : Response -> Prog).

Record Outcome : Type := {
  final : State;
  calls : list Remote;
  threw : bool
}.

(** Execution of a handler from state [st], the store answering through
    [env]; the remote calls are logged in the order they are issued. *)
Fixpoint run (env : Remote -> Response) (p : Prog) (st : State) : Outcome :=
  match p with
  | Ret => {| final := st; calls := []; threw := false |}
  | Throw => {| final := st; calls := []; threw := true |}
  | SetState f k => run env k (f st)
  | Await c k =>
      let r := run env (k (env c)) st in
      {| final := final r; calls := c :: calls r; threw := threw r |}
  end.

(** A synchronous handler created by the render of state [st] and fired
    in that same state. *)
Definition fire (env : Remote -> Response) (h : State -> Prog) (st : State)
  : Outcome := run env (h st) st.

(** Stores that accept, respectively refuse, every call. *)
Definition store_ok (rows : list TrialRegistration) : Remote -> Response :=
  fun _ => Resolved rows.
Definition store_down : Remote -> Response := fun _ => Rejected.

(* ===================================================================== *)
(** ** The handlers *)
(* ===================================================================== *)

(** Result of a drag gesture, as the drag-and-drop library reports it.
    Indices are positions in the rendered lists, hence natural numbers. *)
Record DraggableLocation : Type := {
  droppableId : str;
  index : nat
}.

Record DropResult : Type := {
  draggableId : str;
  type : str;
  source : DraggableLocation;
  destination : option DraggableLocation
}.

Inductive Direction : Type := Left | Right.

(** The load mapping: [{ ...lead, id: lead.id!, status: lead.status || 'pending' }] *)
Definition toLead (lead : TrialRegistration) : Lead :=
  {| id := reg_id lead; full_name := reg_full_name lead;
     phone := reg_phone lead; age := reg_age lead;
     class_day := reg_class_day lead; class_time := reg_class_time lead;
     class_name := reg_class_name lead;
     specific_date := reg_specific_date lead;
     status := match reg_status lead with
               | Some s => if truthy_str s then s else lit "pending"
               | None => lit "pending"
               end;
     created_at := reg_created_at lead |}.

(** [getTrialRegistrations] of [lib/supabase.ts]: awaits the query, throws
    when it reports an error, returns the rows otherwise.  [k] is the rest
    of the caller's [try] block, [handler] its [catch] block. *)
Definition getTrialRegistrations (k : list TrialRegistration -> Prog)
    (handler : Prog) : Prog :=
  Await SelectTrialRegistrations
    (fun r => match r with
              | Resolved data => k data
              | Rejected => handler
              end).

(** Modelled from the spec: [updateTrialRegistrationStatus] is imported
    from [lib/supabase] but its body is not among the sources.  The spec
    lists it as the store operation update-status-by-id, an asynchronous
    round trip that completes or fails.  [k] is the rest of the caller's
    [try] block, [handler] its [catch] block. *)
Definition updateTrialRegistrationStatus (leadId newStatus : str)
    (k : Prog) (handler : Prog) : Prog :=
  Await (UpdateTrialRegistrationStatus leadId newStatus)
    (fun r => match r with
              | Resolved _ => k
              | Rejected => handler
              end).

(** [loadLeads]: the same text in the three revisions. *)
Definition loadLeads : Prog :=
  SetState (setIsLoading true)
    (getTrialRegistrations
       (fun data =>
          SetState (setLeads (fun _ => map toLead data))
            (SetState (setIsLoading false) Ret))
       (SetState (setError (lit "Erro ao carregar leads"))
          (SetState (setIsLoading false) Ret))).

Definition getLeadsByStatus (cl : State) (status' : str) : list Lead :=
  filter (fun lead => str_eqb (status lead) status') (leads cl).

Definition getSortedStages (cl : State) : list (str * FunnelStage) :=
  Array_sort (fun a b => num_compare (order (snd a)) (order (snd b)))
    (Object_entries (funnelStages cl)).

(** The [forEach] of the lane branch: entry number [index] gets
    [order: index].  Destructuring an [undefined] entry throws. *)
Fixpoint renumber (stageEntries : list (option (str * FunnelStage)))
    (index : nat) (updatedStages : obj FunnelStage)
  : option (obj FunnelStage) :=
  match stageEntries with
  | [] => Some updatedStages
  | None :: _ => None
  | Some (stageId, _) :: rest =>
      renumber rest (S index)
        (obj_update stageId
           (fun st => with_order st (Int (Z.of_nat index))) updatedStages)
  end.

(** The [type === 'LANE'] branch of [handleDragEnd]: the same text in the
    two revisions that have editable lanes. *)
Definition reorderLanes (cl : State) (source destination : DraggableLocation)
  : Prog :=
  let stageEntries := map Some (getSortedStages cl) in
  let '(removed, stageEntries) := splice_remove1 (index source) stageEntries in
  let removed := match removed with x :: _ => x | [] => None end in
  let stageEntries := splice_insert (index destination) removed stageEntries in
  let updatedStages := funnelStages cl in
  match renumber stageEntries 0 updatedStages with
  | None => Throw
  | Some updatedStages =>
      SetState (setFunnelStages (fun _ => updatedStages))
        (SetState (setIsDraggingLane false) Ret)
  end.

Section Runtime.
(** [String.prototype.toLowerCase] belongs to the language runtime. *)
Variable toLowerCase : str -> str.

(** [handleCreateNewLane]: the same text in the two revisions that have
    editable lanes. *)
Definition handleCreateNewLane (cl : State) : Prog :=
  if negb (truthy_str (trim (newLaneName cl))) then Ret else
  let laneId := replace_ws (toLowerCase (newLaneName cl)) in
  let maxOrder := Math_max (map order (Object_values (funnelStages cl))) in
  SetState (setFunnelStages (fun prev =>
              obj_set laneId
                {| title := newLaneName cl; color := newLaneColor cl;
                   editable := Some true; order := num_succ maxOrder |}
                prev))
    (SetState (setNewLaneName [])
       (SetState (setNewLaneColor (lit "bg-indigo-500"))
          (SetState (setShowNewLaneModal false) Ret))).
End Runtime.

(** [funnelStages[laneId]?.editable] as a condition. *)
Definition is_editable (stages : obj FunnelStage) (laneId : str) : bool :=
  match obj_get laneId stages with
  | Some st => match editable st with Some b => b | None => false end
  | None => false
  end.

(** [handleDeleteLane]: the same text in the two revisions that have
    editable lanes. *)
Definition handleDeleteLane (cl : State) (laneId : str) : Prog :=
  if negb (is_editable (funnelStages cl) laneId) then Ret else
  SetState (setLeads (fun prevLeads =>
              map (fun lead =>
                     if str_eqb (status lead) laneId
                     then with_status lead (lit "pending") else lead)
                prevLeads))
    (SetState (setFunnelStages (fun prev => obj_delete laneId prev)) Ret).

(** *** Revision with lane arrows and a status dropdown *)
Module CRM.

Definition handleDragEnd (cl : State) (result : DropResult) : Prog :=
  match destination result with
  | None => Ret
  | Some destination =>
      let source := source result in
      let draggableId := draggableId result in
      if str_eqb (type result) (lit "LANE")
      then reorderLanes cl source destination
      else
        if str_eqb (droppableId source) (droppableId destination)
           && Nat.eqb (index source) (index destination)
        then Ret
        else
          let newStatus := droppableId destination in
          updateTrialRegistrationStatus draggableId newStatus
            (SetState (setLeads (fun prevLeads =>
                         map (fun lead =>
                                if id_is lead draggableId
                                then with_status lead newStatus else lead)
                           prevLeads))
               Ret)
            (SetState (setError (lit "Erro ao atualizar status do lead"))
               Ret)
  end.

Definition moveLane (cl : State) (laneId : str) (direction : Direction)
  : Prog :=
  let sortedStages := getSortedStages cl in
  match findIndex (fun e => str_eqb (fst e) laneId) sortedStages with
  | None => Ret
  | Some currentIndex =>
      let newIndex :=
        match direction with
        | Left => (Z.of_nat currentIndex - 1)%Z
        | Right => (Z.of_nat currentIndex + 1)%Z
        end in
      if (newIndex <? 0)%Z || (newIndex >=? Z.of_nat (length sortedStages))%Z
      then Ret
      else
        let updatedStages := funnelStages cl in
        match obj_get laneId updatedStages,
              nth_error sortedStages (Z.to_nat newIndex) with
        | Some current, Some (targetLaneId, _) =>
            let currentOrder := order current in
            match obj_get targetLaneId updatedStages with
            | Some target =>
                let targetOrder := order target in
                let updatedStages :=
                  obj_update laneId
                    (fun st => with_order st targetOrder) updatedStages in
                let updatedStages :=
                  obj_update targetLaneId
                    (fun st => with_order st currentOrder) updatedStages in
                SetState (setFunnelStages (fun _ => updatedStages)) Ret
            | None => Throw
            end
        | _, _ => Throw
        end
  end.

Definition moveLeadToStatus (leadId newStatus : str) : Prog :=
  updateTrialRegistrationStatus leadId newStatus
    (SetState (setLeads (fun prevLeads =>
                 map (fun lead =>
                        if id_is lead leadId
                        then with_status lead newStatus else lead)
                   prevLeads))
       Ret)
    (SetState (setError (lit "Erro ao atualizar status do lead")) Ret).

End CRM.

(** *** Revision with draggable lanes *)
Module CRMLanes.

Definition handleDragEnd (cl : State) (result : DropResult) : Prog :=
  match destination result with
  | None => Ret
  | Some destination =>
      let source := source result in
      let draggableId := draggableId result in
      if str_eqb (type result) (lit "LANE")
      then reorderLanes cl source destination
      else
        if str_eqb (droppableId source) (droppableId destination)
        then
          (* the lane's leads are reordered in a local copy only *)
          let laneLeads := map Some (getLeadsByStatus cl (droppableId source)) in
          let '(movedLead, laneLeads) := splice_remove1 (index source) laneLeads in
          let movedLead := match movedLead with x :: _ => x | [] => None end in
          let laneLeads := splice_insert (index destination) movedLead laneLeads in
          Ret
        else
          let newStatus := droppableId destination in
          updateTrialRegistrationStatus draggableId newStatus
            (SetState (setLeads (fun prevLeads =>
                         map (fun lead =>
                                if id_is lead draggableId
                                then with_status lead newStatus else lead)
                           prevLeads))
               Ret)
            (SetState (setError (lit "Erro ao atualizar status do lead"))
               Ret)
  end.

End CRMLanes.

(** *** Revision with a fixed set of stages *)
Module CRMFixed.

Definition handleDragEnd (cl : State) (result : DropResult) : Prog :=
  match destination result with
  | None => Ret
  | Some destination =>
      let source := source result in
      let draggableId := draggableId result in
      if str_eqb (droppableId source) (droppableId destination)
      then Ret
      else
        let newStatus := droppableId destination in
        updateTrialRegistrationStatus draggableId newStatus
          (SetState (setLeads (fun prevLeads =>
                       map (fun lead =>
                              if id_is lead draggableId
                              then with_status lead newStatus else lead)
                         prevLeads))
             Ret)
          (SetState (setError (lit "Erro ao atualizar status do lead"))
             Ret)
  end.

End CRMFixed.

(* ===================================================================== *)
(** ** Vocabulary of the properties *)
(* ===================================================================== *)

(** The patch applied to the cache by a status change. *)
Definition patch_status (L S : str) (lead : Lead) : Lead :=
  if id_is lead L then with_status lead S else lead.

(** Same record up to the status field. *)
Definition same_but_status (a b : Lead) : Prop :=
  id a = id b /\ full_name a = full_name b /\ phone a = phone b /\
  age a = age b /\ class_day a = class_day b /\
  class_time a = class_time b /\ class_name a = class_name b /\
  specific_date a = specific_date b /\ created_at a = created_at b.

(** A row and the lead made from it agree on every field but the status. *)
Definition same_but_status_row (row : TrialRegistration) (lead : Lead) : Prop :=
  id lead = reg_id row /\ full_name lead = reg_full_name row /\
  phone lead = reg_phone row /\ age lead = reg_age row /\
  class_day lead = reg_class_day row /\
  class_time lead = reg_class_time row /\
  class_name lead = reg_class_name row /\
  specific_date lead = reg_specific_date row /\
  created_at lead = reg_created_at row.

(** The remote call a lead drop gives rise to, and the banner shown when
    it fails. *)
Definition status_call (result : DropResult) (dest : DraggableLocation)
  : Remote :=
  UpdateTrialRegistrationStatus (draggableId result) (droppableId dest).

Definition error_banner : str := lit "Erro ao atualizar status do lead".

(** A lead drop that updates remotely and then locally: one status update
    is sent for the dragged lead, and the cache then holds that lead with
    the destination stage as its status. *)
Definition updates_then_patches (env : Remote -> Response)
    (h : State -> DropResult -> Prog) (st : State) (result : DropResult)
    (dest : DraggableLocation) : Prop :=
  let r := run env (h st result) st in
  calls r = [status_call result dest] /\
  leads (final r)
  = map (patch_status (draggableId result) (droppableId dest)) (leads st).

(** The editable flag of stage [laneId] is [true]. *)
Definition editable_stage (stages : obj FunnelStage) (laneId : str) : Prop :=
  exists st, obj_get laneId stages = Some st /\ editable st = Some true.

(** A title is blank when it holds nothing but whitespace. *)
Definition non_blank (s : str) : Prop :=
  exists c, In c s /\ is_ws c = false.

(** The maximal runs of a string: it is cut wherever whitespace meets
    something else; each run carries whether it is whitespace. *)
Fixpoint runs (s : str) : list (bool * str) :=
  match s with
  | [] => []
  | c :: t =>
      match runs t with
      | (b, r) :: rest =>
          if Bool.eqb b (is_ws c) then (b, c :: r) :: rest
          else (is_ws c, [c]) :: (b, r) :: rest
      | [] => [(is_ws c, [c])]
      end
  end.

(** The slug as the specification words it: every maximal run of
    whitespace replaced by a single underscore, the rest kept. *)
Definition underscore_runs (s : str) : str :=
  concat (map (fun run : bool * str =>
                 if fst run then [underscore] else snd run) (runs s)).

(** Runs alternate between whitespace and the rest; this is what makes
    them maximal. *)
Fixpoint alternating (l : list (bool * str)) : Prop :=
  match l with
  | r1 :: ((r2 :: _) as t) => fst r1 <> fst r2 /\ alternating t
  | _ => True
  end.

(** [a < b] and [a <= b] on the numbers an [order] can hold. *)
Definition num_lt (a b : num) : Prop := num_compare a b = Lt.

Definition num_le (a b : num) : Prop := num_compare a b <> Gt.

(** The comparator of [getSortedStages] orders the entries by [order]. *)
Definition by_order (a b : str * FunnelStage) : Prop :=
  num_le (order (snd a)) (order (snd b)).

(** [maxOrder] of [handleCreateNewLane]. *)
Definition maxOrder (stages : obj FunnelStage) : num :=
  Math_max (map order (Object_values stages)).

(** [z] is the greatest of the integer orders of a registry: some stage
    has it and no stage has a larger one. *)
Definition greatest_order (stages : obj FunnelStage) (z : Z) : Prop :=
  (exists k st, In (k, st) stages /\ order st = Int z) /\
  forall k st z', In (k, st) stages -> order st = Int z' -> (z' <= z)%Z.

(** The identifier computed by the handler of closure [cl]. *)
Definition laneId_of (toLowerCase : str -> str) (cl : State) : str :=
  replace_ws (toLowerCase (newLaneName cl)).

(** The metadata it stores. *)
Definition new_stage (cl : State) : FunnelStage :=
  {| title := newLaneName cl; color := newLaneColor cl;
     editable := Some true;
     order := num_succ (maxOrder (funnelStages cl)) |}.

(** The orders of a registry are exactly [0 .. n-1], each taken once. *)
Definition dense (n : nat) : list num :=
  map (fun i => Int (Z.of_nat i)) (seq 0 n).

(** The [order] values of a registry, in enumeration order. *)
Definition orders (stages : obj FunnelStage) : list num :=
  map order (Object_values stages).

Definition dense_orders (stages : obj FunnelStage) : Prop :=
  Permutation (orders stages) (dense (length stages)).

(** Order of stage [k]; [-Infinity] stands in when there is no such
    stage. *)
Definition order_of (stages : obj FunnelStage) (k : str) : num :=
  match obj_get k stages with
  | Some st => order st
  | None => NegInf
  end.

(** Exchange of two identifiers. *)
Definition exchange (a b k : str) : str :=
  if str_eqb k a then b else if str_eqb k b then a else k.

(* ===================================================================== *)
(** ** Sample boards *)
(* ===================================================================== *)

(** Sample data for running the model. *)
Definition row_joao : TrialRegistration :=
  {| reg_id := Some (lit "id-1"); reg_full_name := lit "Joao Silva";
     reg_phone := lit "(11) 99999-1234"; reg_age := 8;
     reg_class_day := lit "Tuesday";
     reg_class_time := lit "6:00 PM to 6:50 PM";
     reg_class_name := lit "KIDS GI 6 - 9";
     reg_specific_date := lit "15/01 (6pm-6:50pm)";
     reg_status := None; reg_created_at := Some (lit "2025-01-10") |}.

Definition row_maria : TrialRegistration :=
  {| reg_id := Some (lit "id-2"); reg_full_name := lit "Maria Santos";
     reg_phone := lit "(11) 99999-5678"; reg_age := 25;
     reg_class_day := lit "Monday";
     reg_class_time := lit "7:00 PM to 8:30 PM";
     reg_class_name := lit "ADULT GI";
     reg_specific_date := lit "14/01 (7pm-8:30pm)";
     reg_status := Some (lit "contacted");
     reg_created_at := Some (lit "2025-01-09") |}.

Definition row_ana : TrialRegistration :=
  {| reg_id := Some (lit "id-3"); reg_full_name := lit "Ana Souza";
     reg_phone := lit "(11) 99999-0000"; reg_age := 31;
     reg_class_day := lit "Friday";
     reg_class_time := lit "7:00 PM to 8:30 PM";
     reg_class_name := lit "ADULT NO GI";
     reg_specific_date := lit "17/01 (7pm-8:30pm)";
     reg_status := Some []; reg_created_at := None |}.

Definition sample_rows : list TrialRegistration :=
  [row_joao; row_maria; row_ana].

(** The board once the three sample rows are loaded. *)
Definition loaded_state : State :=
  final (run (store_ok sample_rows) loadLeads initial_state).

Definition drop (type' draggable from : string) (i : nat)
    (to : string) (j : nat) : DropResult :=
  {| draggableId := lit draggable; type := lit type';
     source := {| droppableId := lit from; index := i |};
     destination := Some {| droppableId := lit to; index := j |} |}.

(** Typing a title in the new-lane dialog and confirming it; clicking the
    delete button of a lane. *)
Definition type_and_create (title' : str) (st : State) : State :=
  final (fire store_down (handleCreateNewLane ascii_toLowerCase)
           (setNewLaneName title' st)).

Definition click_delete (laneId : str) (st : State) : State :=
  final (fire store_down (fun cl => handleDeleteLane cl laneId) st).

(** The board after a lane "Em  Espera" has been typed and created. *)
Definition with_custom_lane : State :=
  type_and_create (lit "Em  Espera") loaded_state.

(** The same board once the first lead has been moved to that lane. *)
Definition with_occupied_lane : State :=
  final (run (store_ok [])
           (CRM.moveLeadToStatus (lit "id-1") (lit "em_espera"))
           with_custom_lane).

(** The board after each default stage has been overwritten by a lane of
    the same identifier and then deleted: no stage is left. *)
Definition emptied_board : State :=
  fold_left (fun st k => click_delete k st) (Object_keys DEFAULT_FUNNEL_STAGES)
    (fold_left (fun st k => type_and_create k st)
       (Object_keys DEFAULT_FUNNEL_STAGES) initial_state).

(** The board after lanes "a" and "b" were created and "a" deleted: the
    orders are 0 to 6 and 8. *)
Definition gapped_board : State :=
  click_delete (lit "a")
    (type_and_create (lit "b") (type_and_create (lit "a") initial_state)).

(* ===================================================================== *)
(** ** The rest of the board: setters, render helpers, events *)
(* ===================================================================== *)

Definition setSelectedLead (l : option Lead) (s : State) : State :=
  {| leads := leads s; isLoading := isLoading s; error := error s;
     selectedLead := l; showLeadDetails := showLeadDetails s;
     showNewLaneModal := showNewLaneModal s; newLaneName := newLaneName s;
     newLaneColor := newLaneColor s; funnelStages := funnelStages s;
     isDraggingLane := isDraggingLane s; openDropdown := openDropdown s |}.

Definition setShowLeadDetails (b : bool) (s : State) : State :=
  {| leads := leads s; isLoading := isLoading s; error := error s;
     selectedLead := selectedLead s; showLeadDetails := b;
     showNewLaneModal := showNewLaneModal s; newLaneName := newLaneName s;
     newLaneColor := newLaneColor s; funnelStages := funnelStages s;
     isDraggingLane := isDraggingLane s; openDropdown := openDropdown s |}.

Definition setOpenDropdown (d : option str) (s : State) : State :=
  {| leads := leads s; isLoading := isLoading s; error := error s;
     selectedLead := selectedLead s; showLeadDetails := showLeadDetails s;
     showNewLaneModal := showNewLaneModal s; newLaneName := newLaneName s;
     newLaneColor := newLaneColor s; funnelStages := funnelStages s;
     isDraggingLane := isDraggingLane s; openDropdown := d |}.

(** [handleLeadClick] *)
Definition handleLeadClick (lead : Lead) : Prog :=
  SetState (setSelectedLead (Some lead)) (SetState (setShowLeadDetails true) Ret).

(** The stages offered by the status dropdown of a lead card:
    [getSortedStages().filter(([statusId]) => statusId !== lead.status)]. *)
Definition dropdownOptions (cl : State) (lead : Lead)
  : list (str * FunnelStage) :=
  filter (fun e => negb (str_eqb (fst e) (status lead))) (getSortedStages cl).

(** The quick-move buttons of a lead card: the same list, [.slice(0, 2)]. *)
Definition quickTargets (cl : State) (lead : Lead)
  : list (str * FunnelStage) :=
  firstn 2 (dropdownOptions cl lead).

(** The label of a lead's status: [currentStage?.title || lead.status]. *)
Definition statusLabel (cl : State) (lead : Lead) : str :=
  match obj_get (status lead) (funnelStages cl) with
  | Some st => if truthy_str (title st) then title st else status lead
  | None => status lead
  end.

(** [disabled] of the two arrows of the lane rendered at position [i]:
    [index === 0] and [index === getSortedStages().length - 1]. *)
Definition leftArrowDisabled (i : nat) : bool := Nat.eqb i 0.

Definition rightArrowDisabled (cl : State) (i : nat) : bool :=
  (Z.of_nat i =? Z.of_nat (length (getSortedStages cl)) - 1)%Z.

(** The delete button of a lane is rendered under [config.editable &&]. *)
Definition deleteButtonShown (config : FunnelStage) : bool :=
  match editable config with Some b => b | None => false end.

(** [disabled={!newLaneName.trim()}] of the create button. *)
Definition createButtonDisabled (cl : State) : bool :=
  negb (truthy_str (trim (newLaneName cl))).

(** The number shown on the card and on the header of a stage. *)
Definition leadCount (cl : State) (status' : str) : nat :=
  length (getLeadsByStatus cl status').

(** The gestures of the latest revision and the handler each one fires.
    A dropdown choice starts [moveLeadToStatus] and closes the dropdown
    while the call is pending. *)
Inductive Event : Type :=
| ClickRefresh
| DragEnd (result : DropResult)
| ClickLead (lead : Lead)
| CloseLeadDetails
| ClickArrow (laneId : str) (direction : Direction)
| ClickDeleteLane (laneId : str)
| ClickQuickMove (leadId newStatus : str)
| ToggleDropdown (leadId : str)
| ChooseStatus (leadId newStatus : str)
| ClickOutside
| OpenNewLane
| CloseNewLane
| TypeLaneName (name : str)
| PickLaneColor (color' : str)
| ClickCreateLane.

(** Insertion of a state update right after the first remote call of a
    program has been issued. *)
Definition after_first_call (f : State -> State) (p : Prog) : Prog :=
  match p with
  | Await c k => Await c (fun r => SetState f (k r))
  | _ => SetState f p
  end.

Section Handlers.
Variable toLowerCase : str -> str.

Definition handle (e : Event) (cl : State) : Prog :=
  match e with
  | ClickRefresh => loadLeads
  | DragEnd result => CRM.handleDragEnd cl result
  | ClickLead lead => handleLeadClick lead
  | CloseLeadDetails => SetState (setShowLeadDetails false) Ret
  | ClickArrow laneId direction => CRM.moveLane cl laneId direction
  | ClickDeleteLane laneId => handleDeleteLane cl laneId
  | ClickQuickMove leadId newStatus => CRM.moveLeadToStatus leadId newStatus
  | ToggleDropdown leadId =>
      SetState (setOpenDropdown
                  (match openDropdown cl with
                   | Some d => if str_eqb d leadId then None else Some leadId
                   | None => Some leadId
                   end)) Ret
  | ChooseStatus leadId newStatus =>
      after_first_call (setOpenDropdown None)
        (CRM.moveLeadToStatus leadId newStatus)
  | ClickOutside =>
      (* the listener is installed only while [openDropdown] is truthy *)
      match openDropdown cl with
      | Some (_ :: _) => SetState (setOpenDropdown None) Ret
      | _ => Ret
      end
  | OpenNewLane => SetState (setShowNewLaneModal true) Ret
  | CloseNewLane => SetState (setShowNewLaneModal false) Ret
  | TypeLaneName name => SetState (setNewLaneName name) Ret
  | PickLaneColor color' => SetState (setNewLaneColor color') Ret
  | ClickCreateLane => handleCreateNewLane toLowerCase cl
  end.

(** The board after a sequence of gestures, each handled in the state the
    previous one left. *)
Fixpoint play (env : Remote -> Response) (es : list Event) (st : State)
  : State :=
  match es with
  | [] => st
  | e :: rest => play env rest (final (fire env (handle e) st))
  end.
End Handlers.

(** [onDragStart] of the revision with draggable lanes:
    [(start) => { if (start.type === 'LANE') setIsDraggingLane(true) }]. *)
Definition onDragStart (startType : str) : Prog :=
  if str_eqb startType (lit "LANE")
  then SetState (setIsDraggingLane true) Ret
  else Ret.

(** The part of the state that holds the registry and the dialogs. *)
Definition same_local (a b : State) : Prop :=
  selectedLead a = selectedLead b /\
  showLeadDetails a = showLeadDetails b /\
  showNewLaneModal a = showNewLaneModal b /\
  newLaneName a = newLaneName b /\
  newLaneColor a = newLaneColor b /\
  funnelStages a = funnelStages b /\
  isDraggingLane a = isDraggingLane b /\
  openDropdown a = openDropdown b.

(** Two programs of the same shape whose updates act alike on that part,
    whatever the store answers to each. *)
Fixpoint alike (p q : Prog) : Prop :=
  match p, q with
  | Ret, Ret => True
  | Throw, Throw => True
  | SetState f k, SetState g k' =>
      (forall a b, same_local a b -> same_local (f a) (g b)) /\ alike k k'
  | Await _ k, Await _ k' => forall r r', alike (k r) (k' r')
  | _, _ => False
  end.

(** Every state update a program can make satisfies [P]. *)
Fixpoint all_updates (P : (State -> State) -> Prop) (p : Prog) : Prop :=
  match p with
  | Ret | Throw => True
  | SetState f k => P f /\ all_updates P k
  | Await _ k => forall r, all_updates P (k r)
  end.

(** Every remote call a program can issue satisfies [Q]. *)
Fixpoint all_calls (Q : Remote -> Prop) (p : Prog) : Prop :=
  match p with
  | Ret | Throw => True
  | SetState _ k => all_calls Q k
  | Await c k => Q c /\ forall r, all_calls Q (k r)
  end.

(** The banner shown when loading fails. *)
Definition load_error_banner : str := lit "Erro ao carregar leads".

(** [a === b] on the numbers an [order] can hold. *)
Definition num_eqb (a b : num) : bool :=
  match a, b with
  | NegInf, NegInf => true
  | Int x, Int y => Z.eqb x y
  | _, _ => false
  end.

(** The [order] values of a registry are pairwise distinct integers. *)
Definition distinct_int_orders (stages : obj FunnelStage) : Prop :=
  NoDup (orders stages) /\
  Forall (fun n => exists z, n = Int z) (orders stages).

(** Strictly ascending order of the [order] field. *)
Definition below (a b : str * FunnelStage) : Prop :=
  num_lt (order (snd a)) (order (snd b)).

(** Entry number [j] of a list gets [order: j]. *)
Definition numbered (es : list (str * FunnelStage)) : list (str * FunnelStage) :=
  map (fun je => (fst (snd je),
                  with_order (snd (snd je)) (Int (Z.of_nat (fst je)))))
    (combine (seq 0 (length es)) es).

(** The registry in which stages [a] and [b] have each taken the [order]
    of the other ([va] and [vb] being what they were). *)
Definition swap_orders (a : str) (va : FunnelStage) (b : str) (vb : FunnelStage)
    (o : obj FunnelStage) : obj FunnelStage :=
  map (fun e => if str_eqb (fst e) a then (fst e, with_order (snd e) (order vb))
                else if str_eqb (fst e) b
                     then (fst e, with_order (snd e) (order va))
                     else e) o.

(* ===================================================================== *)
(** ** The application shell ([App.tsx]) *)
(* ===================================================================== *)

Module App.

(** The state of the shell: the [isAuthenticated] cell and the browser's
    [localStorage], which outlives the page. *)
Record AppState : Type := {
  isAuthenticated : bool;
  localStorage : obj str
}.

(** Answer of [authenticateUser], a function of [lib/supabase] whose body
    is not among the sources: the promise resolves to a boolean or is
    rejected. *)
Inductive AuthAnswer : Type :=
| AuthResolved (success : bool)
| AuthRejected.

(** [handleLogin]; the second component is what the returned promise
    resolves to ([None] when it is rejected). *)
Definition handleLogin (authenticateUser : str -> str -> AuthAnswer)
    (email password : str) (st : AppState) : AppState * option bool :=
  match authenticateUser email password with
  | AuthResolved success =>
      if success
      then ({| isAuthenticated := true;
               localStorage := obj_set (lit "isAuthenticated") (lit "true")
                                 (localStorage st) |}, Some success)
      else (st, Some success)
  | AuthRejected => (st, None)
  end.

Definition handleLogout (st : AppState) : AppState :=
  {| isAuthenticated := false;
     localStorage := obj_delete (lit "isAuthenticated") (localStorage st) |}.

(** The effect run once after mounting. *)
Definition restoreSession (st : AppState) : AppState :=
  let wasAuthenticated :=
    match obj_get (lit "isAuthenticated") (localStorage st) with
    | Some v => str_eqb v (lit "true")
    | None => false
    end in
  if wasAuthenticated
  then {| isAuthenticated := true; localStorage := localStorage st |}
  else st.

(** Loading the page: the cell starts at [false], the storage is what the
    browser kept, and the mount effect runs. *)
Definition mount (storage : obj str) : AppState :=
  restoreSession {| isAuthenticated := false; localStorage := storage |}.

(** The element of the [/crm] route. *)
Inductive Page : Type := CRMPage | LoginPage.

Definition crmRoute (st : AppState) : Page :=
  if isAuthenticated st then CRMPage else LoginPage.

Inductive AppEvent : Type :=
| SubmitLogin (email password : str)
| ClickLogout
| Reload.

Definition app_step (authenticateUser : str -> str -> AuthAnswer)
    (e : AppEvent) (st : AppState) : AppState :=
  match e with
  | SubmitLogin email password =>
      fst (handleLogin authenticateUser email password st)
  | ClickLogout => handleLogout st
  | Reload => mount (localStorage st)
  end.

Definition app_play (authenticateUser : str -> str -> AuthAnswer)
    (es : list AppEvent) (st : AppState) : AppState :=
  fold_left (fun s e => app_step authenticateUser e s) es st.

(** The flag kept in the storage says "true". *)
Definition flagged (storage : obj str) : Prop :=
  obj_get (lit "isAuthenticated") storage = Some (lit "true").

End App.

(** Gestures on the sample board: a lane is created, the first lane is
    moved right, a lead is moved through the dropdown, the leads are
    refreshed. *)
Definition sample_gestures : list Event :=
  [ OpenNewLane; TypeLaneName (lit "Em  Espera"); ClickCreateLane;
    ClickArrow (lit "pending") Right;
    ChooseStatus (lit "id-1") (lit "confirmed");
    ClickRefresh ].

(** The board with "Em  Espera" typed in the new-lane dialog. *)
Definition typing_state : State :=
  setNewLaneName (lit "Em  Espera") loaded_state.

(** An [authenticateUser] that accepts one pair of credentials. *)
Definition sample_auth (email password : str) : App.AuthAnswer :=
  App.AuthResolved (str_eqb email (lit "admin@essenciabjj.com")
                    && str_eqb password (lit "secret")).

(* ===================================================================== *)
(** * Properties *)
(* ===================================================================== *)

(** ** The model at work *)

Example is_ws_examples :
  map is_ws [9; 13; 32; 160; 8200; 65279; 95; 14; 8203]%N
  = [true; true; true; true; true; true; false; false; false].
Proof. reflexivity. Qed.

Example trim_example : trim (lit "  Em  Espera ") = lit "Em  Espera".
Proof. reflexivity. Qed.

Example replace_ws_example :
  replace_ws (ascii_toLowerCase (lit " Em  Espera de Aula "))
  = lit "_em_espera_de_aula_".
Proof. vm_compute. reflexivity. Qed.

Example array_index_examples :
  map array_index
    [lit "0"; lit "12"; lit "012"; lit "4294967294"; lit "4294967295"; lit "a1"]
  = [Some 0; Some 12; None; Some 4294967294; None; None]%N.
Proof. reflexivity. Qed.

Example enumeration_example :
  Object_keys (obj_set (lit "7") tt (obj_set (lit "b") tt
                 (obj_set (lit "10") tt (obj_set (lit "a") tt []))))
  = [lit "7"; lit "10"; lit "a"; lit "b"].
Proof. reflexivity. Qed.

Example Math_max_examples :
  Math_max [] = NegInf /\ Math_max [Int 3; NegInf; Int 6; Int 2] = Int 6 /\
  num_succ NegInf = NegInf.
Proof. repeat split. Qed.

Example lane_drag_example :
  let r := fire store_down
             (fun cl => CRMLanes.handleDragEnd cl
                          (drop "LANE" "lane-pending" "lanes" 0 "lanes" 3))
             initial_state in
  map (fun k => order_of (funnelStages (final r)) (lit k))
    ["pending"; "contacted"; "confirmed"; "completed"; "enrolled";
     "no_show"; "cancelled"]%string
  = map Int [3; 0; 1; 2; 4; 5; 6]%Z.
Proof. vm_compute. reflexivity. Qed.

Example lane_drag_out_of_range_example :
  let r := fire store_down
             (fun cl => CRMLanes.handleDragEnd cl
                          (drop "LANE" "lane-x" "lanes" 7 "lanes" 0))
             initial_state in
  threw r = true /\ final r = initial_state.
Proof. vm_compute. split; reflexivity. Qed.

Example moveLane_example :
  let r := fire store_down (fun cl => CRM.moveLane cl (lit "cancelled") Left)
             initial_state in
  map fst (getSortedStages (final r))
  = map lit ["pending"; "contacted"; "confirmed"; "completed"; "enrolled";
             "cancelled"; "no_show"]%string.
Proof. vm_compute. reflexivity. Qed.

Example gapped_board_orders :
  orders (funnelStages gapped_board) = map Int [0; 1; 2; 3; 4; 5; 6; 8]%Z.
Proof. vm_compute. reflexivity. Qed.

(** ** Strings *)

Lemma str_eqb_eq (a b : str) : str_eqb a b = true <-> a = b.
Proof.
  revert b; induction a as [|x a IH]; intros [|y b]; simpl;
    try (split; [discriminate | congruence]); [tauto|].
  rewrite andb_true_iff, N.eqb_eq, IH.
  split; [intros [-> ->]; reflexivity | intros H; injection H; auto].
Qed.

Lemma str_eqb_refl (a : str) : str_eqb a a = true.
Proof. apply str_eqb_eq; reflexivity. Qed.

Lemma str_eqb_neq (a b : str) : str_eqb a b = false <-> a <> b.
Proof.
  rewrite <- str_eqb_eq. destruct (str_eqb a b); split; congruence.
Qed.

(** ** Leads: loading and status changes *)

Lemma nth_error_map_some {A B} (f : A -> B) (l : list A) i x :
  nth_error l i = Some x -> nth_error (map f l) i = Some (f x).
Proof. intros H. rewrite nth_error_map, H. reflexivity. Qed.

Lemma toLead_status_nonempty row : status (toLead row) <> [].
Proof.
  unfold toLead; simpl. destruct (reg_status row) as [[|c s]|]; simpl;
    discriminate.
Qed.

(** C10: after a successful load every cached lead has a non-empty status;
    a row whose status is absent or empty becomes a lead with status
    "pending", a row with a non-empty status keeps it, and the mapping
    copies every other field, keeping the number and order of the rows. *)
Theorem loadLeads_normalizes_status (env : Remote -> Response) (st : State)
    (rows : list TrialRegistration) :
  env SelectTrialRegistrations = Resolved rows ->
  let r := run env loadLeads st in
  calls r = [SelectTrialRegistrations] /\
  isLoading (final r) = false /\
  length (leads (final r)) = length rows /\
  Forall (fun lead => status lead <> []) (leads (final r)) /\
  forall i row, nth_error rows i = Some row ->
    exists lead, nth_error (leads (final r)) i = Some lead /\
      same_but_status_row row lead /\
      (reg_status row = None -> status lead = lit "pending") /\
      (reg_status row = Some [] -> status lead = lit "pending") /\
      (forall s, reg_status row = Some s -> s <> [] -> status lead = s).
Proof.
  intros Henv. simpl. rewrite Henv. simpl.
  repeat split.
  - apply length_map.
  - apply Forall_forall. intros lead Hin. apply in_map_iff in Hin.
    destruct Hin as [row [<- _]]. apply toLead_status_nonempty.
  - intros i row Hi. exists (toLead row). split.
    + apply nth_error_map_some; assumption.
    + unfold same_but_status_row, toLead; simpl.
      repeat split; try reflexivity.
      * intros ->. reflexivity.
      * intros ->. reflexivity.
      * intros s -> Hs. destruct s; [congruence | reflexivity].
Qed.

Lemma loadLeads_normalizes_status_witness :
  store_ok sample_rows SelectTrialRegistrations = Resolved sample_rows /\
  Forall (fun lead => status lead <> []) (leads loaded_state).
Proof.
  split; [reflexivity|].
  exact (proj1 (proj2 (proj2 (proj2
    (loadLeads_normalizes_status (store_ok sample_rows) initial_state
       sample_rows eq_refl))))).
Defined.

Lemma patch_status_spec (L S : str) (lead : Lead) :
  (id lead = Some L -> status (patch_status L S lead) = S) /\
  (id lead <> Some L -> patch_status L S lead = lead) /\
  same_but_status lead (patch_status L S lead).
Proof.
  unfold patch_status, id_is. destruct (id lead) as [i|] eqn:Hid.
  - destruct (str_eqb i L) eqn:E.
    + apply str_eqb_eq in E. subst i. repeat split; simpl; congruence.
    + apply str_eqb_neq in E. repeat split; congruence.
  - repeat split; congruence.
Qed.

(** The test that separates a drop in place from a move. *)
Lemma moved_drop (src dest : DraggableLocation) :
  droppableId src <> droppableId dest \/ index src <> index dest ->
  str_eqb (droppableId src) (droppableId dest)
    && Nat.eqb (index src) (index dest) = false.
Proof.
  intros [H | H].
  - apply str_eqb_neq in H. rewrite H. reflexivity.
  - apply Nat.eqb_neq in H. rewrite H. apply andb_false_r.
Qed.

(** C7: a status change that the store accepts alters the cache at the
    leads whose id is [L] only, and there only the status, which becomes
    [S]; the cache keeps its length and order, and the rest of the
    component state is untouched.  Holds for the dropdown move and for the
    drag handler. *)
Theorem status_change_frame (env : Remote -> Response) (cl st : State)
    (L S : str) (result : DropResult) (dest : DraggableLocation)
    (data : list TrialRegistration) :
  env (UpdateTrialRegistrationStatus L S) = Resolved data ->
  draggableId result = L ->
  destination result = Some dest ->
  droppableId dest = S ->
  type result <> lit "LANE" ->
  droppableId (source result) <> S \/ index (source result) <> index dest ->
  forall r, r = run env (CRM.moveLeadToStatus L S) st \/
            r = run env (CRM.handleDragEnd cl result) st ->
  length (leads (final r)) = length (leads st) /\
  (forall i lead, nth_error (leads st) i = Some lead ->
     exists lead', nth_error (leads (final r)) i = Some lead' /\
       same_but_status lead lead' /\
       (id lead = Some L -> status lead' = S) /\
       (id lead <> Some L -> lead' = lead)) /\
  final r = setLeads (fun _ => leads (final r)) st.
Proof.
  intros Henv HL Hdest HS Htype Hsrc r Hr.
  assert (Hrun : final r = setLeads (map (patch_status L S)) st).
  { destruct Hr as [-> | ->].
    - simpl. rewrite Henv. reflexivity.
    - unfold CRM.handleDragEnd. rewrite Hdest.
      apply str_eqb_neq in Htype. rewrite Htype.
      rewrite <- HS in Hsrc. rewrite (moved_drop _ _ Hsrc).
      simpl. rewrite HL, HS, Henv. reflexivity. }
  rewrite Hrun. simpl. repeat split.
  - apply length_map.
  - intros i lead Hi. exists (patch_status L S lead).
    split; [apply nth_error_map_some; assumption|].
    destruct (patch_status_spec L S lead) as (H1 & H2 & H3). auto.
Qed.

Lemma status_change_frame_witness :
  let r := run (store_ok []) (CRM.moveLeadToStatus (lit "id-1") (lit "confirmed"))
             loaded_state in
  length (leads (final r)) = length (leads loaded_state) /\
  final r = setLeads (fun _ => leads (final r)) loaded_state.
Proof.
  intros r.
  destruct (status_change_frame (store_ok []) loaded_state loaded_state
    (lit "id-1") (lit "confirmed")
    (drop "DEFAULT" "id-1" "pending" 0 "confirmed" 0)
    {| droppableId := lit "confirmed"; index := 0 |} []
    eq_refl eq_refl eq_refl eq_refl
    ltac:(discriminate) ltac:(left; discriminate) r (or_introl eq_refl))
    as (Hlen & _ & Hframe).
  split; assumption.
Defined.

(** ** Lead drops *)

(** What the three drag handlers and the dropdown move do once they reach
    their [try] block. *)
Lemma run_update (env : Remote -> Response) (st : State) (L S : str) :
  run env (CRM.moveLeadToStatus L S) st =
  {| final := match env (UpdateTrialRegistrationStatus L S) with
              | Resolved _ => setLeads (map (patch_status L S)) st
              | Rejected => setError error_banner st
              end;
     calls := [UpdateTrialRegistrationStatus L S];
     threw := false |}.
Proof.
  simpl. destruct (env (UpdateTrialRegistrationStatus L S)); reflexivity.
Qed.

Lemma CRM_drag_moves cl result dest :
  destination result = Some dest ->
  type result <> lit "LANE" ->
  droppableId (source result) <> droppableId dest \/
    index (source result) <> index dest ->
  CRM.handleDragEnd cl result
  = CRM.moveLeadToStatus (draggableId result) (droppableId dest).
Proof.
  intros Hdest Htype Hmoved. unfold CRM.handleDragEnd. rewrite Hdest.
  apply str_eqb_neq in Htype. rewrite Htype, (moved_drop _ _ Hmoved).
  reflexivity.
Qed.

Lemma CRMLanes_drag_moves cl result dest :
  destination result = Some dest ->
  type result <> lit "LANE" ->
  droppableId (source result) <> droppableId dest ->
  CRMLanes.handleDragEnd cl result
  = CRM.moveLeadToStatus (draggableId result) (droppableId dest).
Proof.
  intros Hdest Htype Hmoved. unfold CRMLanes.handleDragEnd. rewrite Hdest.
  apply str_eqb_neq in Htype. apply str_eqb_neq in Hmoved.
  rewrite Htype, Hmoved. reflexivity.
Qed.

Lemma CRMFixed_drag_moves cl result dest :
  destination result = Some dest ->
  droppableId (source result) <> droppableId dest ->
  CRMFixed.handleDragEnd cl result
  = CRM.moveLeadToStatus (draggableId result) (droppableId dest).
Proof.
  intros Hdest Hmoved. unfold CRMFixed.handleDragEnd. rewrite Hdest.
  apply str_eqb_neq in Hmoved. rewrite Hmoved. reflexivity.
Qed.

(** C5: a lead dropped on its own stage at its own position changes
    nothing: no remote call, same component state (lead cache and stage
    registry included), in each of the three revisions. *)
Theorem drop_in_place_is_noop (env : Remote -> Response) (cl st : State)
    (result : DropResult) (dest : DraggableLocation) :
  destination result = Some dest ->
  type result <> lit "LANE" ->
  droppableId (source result) = droppableId dest ->
  index (source result) = index dest ->
  forall r, r = run env (CRM.handleDragEnd cl result) st \/
            r = run env (CRMLanes.handleDragEnd cl result) st \/
            r = run env (CRMFixed.handleDragEnd cl result) st ->
  calls r = [] /\ final r = st /\ threw r = false /\
  leads (final r) = leads st /\ funnelStages (final r) = funnelStages st.
Proof.
  intros Hdest Htype Hsame Hidx r Hr.
  apply str_eqb_neq in Htype. apply str_eqb_eq in Hsame.
  apply Nat.eqb_eq in Hidx.
  assert (H : r = {| final := st; calls := []; threw := false |}).
  { destruct Hr as [-> | [-> | ->]].
    - unfold CRM.handleDragEnd. rewrite Hdest, Htype, Hsame, Hidx.
      reflexivity.
    - unfold CRMLanes.handleDragEnd. rewrite Hdest, Htype, Hsame.
      reflexivity.
    - unfold CRMFixed.handleDragEnd. rewrite Hdest, Hsame. reflexivity. }
  subst r. simpl. repeat split.
Qed.

Lemma drop_in_place_is_noop_witness :
  let result := drop "DEFAULT" "id-1" "pending" 0 "pending" 0 in
  let r := run store_down (CRM.handleDragEnd loaded_state result) loaded_state in
  calls r = [] /\ final r = loaded_state.
Proof.
  intros result r.
  destruct (drop_in_place_is_noop store_down loaded_state loaded_state result
    {| droppableId := lit "pending"; index := 0 |}
    eq_refl ltac:(discriminate) eq_refl eq_refl r (or_introl eq_refl))
    as (Hcalls & Hfinal & _).
  split; assumption.
Defined.

(** C6: when the store refuses the status update, the handler sets the
    error banner and leaves the lead cache as it was; this holds for the
    dropdown move and for a drag to another stage in each revision. *)
Theorem failed_update_keeps_cache (env : Remote -> Response) (cl st : State)
    (result : DropResult) (dest : DraggableLocation) :
  env (status_call result dest) = Rejected ->
  destination result = Some dest ->
  type result <> lit "LANE" ->
  droppableId (source result) <> droppableId dest ->
  forall r,
    r = run env (CRM.moveLeadToStatus (draggableId result) (droppableId dest)) st \/
    r = run env (CRM.handleDragEnd cl result) st \/
    r = run env (CRMLanes.handleDragEnd cl result) st \/
    r = run env (CRMFixed.handleDragEnd cl result) st ->
  calls r = [status_call result dest] /\
  leads (final r) = leads st /\
  error (final r) = error_banner /\
  final r = setError error_banner st.
Proof.
  intros Henv Hdest Htype Hmoved r Hr.
  rewrite (CRM_drag_moves cl result dest Hdest Htype (or_introl Hmoved)),
    (CRMLanes_drag_moves cl result dest Hdest Htype Hmoved),
    (CRMFixed_drag_moves cl result dest Hdest Hmoved) in Hr.
  assert (H : r = run env (CRM.moveLeadToStatus (draggableId result)
                             (droppableId dest)) st) by tauto.
  rewrite run_update in H. unfold status_call in Henv. rewrite Henv in H.
  subst r. simpl. repeat split.
Qed.

Lemma failed_update_keeps_cache_witness :
  let result := drop "DEFAULT" "id-1" "pending" 0 "confirmed" 0 in
  let r := run store_down (CRMLanes.handleDragEnd loaded_state result)
             loaded_state in
  leads (final r) = leads loaded_state /\ error (final r) = error_banner.
Proof.
  intros result r.
  destruct (failed_update_keeps_cache store_down loaded_state loaded_state
    result {| droppableId := lit "confirmed"; index := 0 |}
    eq_refl eq_refl ltac:(discriminate) ltac:(discriminate) r
    (or_intror (or_intror (or_introl eq_refl))))
    as (_ & Hleads & Herr & _).
  split; assumption.
Defined.

(** C4 does not hold as stated.  In the revision with a fixed set of
    stages a lead dropped on its own stage at another position sends
    nothing; and in the latest revision a drop whose update the store
    refuses leaves the lead with its old status. *)
Lemma lead_drop_not_always_patched :
  (let result := drop "DEFAULT" "id-1" "pending" 0 "pending" 1 in
   destination result = Some {| droppableId := lit "pending"; index := 1 |} /\
   index (source result) <> 1 /\
   ~ updates_then_patches (store_ok []) CRMFixed.handleDragEnd loaded_state
       result {| droppableId := lit "pending"; index := 1 |}) /\
  (let result := drop "DEFAULT" "id-1" "pending" 0 "confirmed" 0 in
   destination result = Some {| droppableId := lit "confirmed"; index := 0 |} /\
   droppableId (source result) <> lit "confirmed" /\
   ~ updates_then_patches store_down CRM.handleDragEnd loaded_state
       result {| droppableId := lit "confirmed"; index := 0 |}).
Proof.
  split; cbv zeta; (split; [reflexivity|]); (split; [discriminate|]);
    intros [H1 H2]; vm_compute in H1, H2; discriminate.
Qed.

(** C4, amended: in the latest revision, a lead drop that is not a drop in
    place begins with the status update for the dragged lead and sends
    nothing else.  When the store accepts it, the status of the dragged
    lead becomes the identifier of the destination stage: in the cache
    every lead with the dragged identifier has that status and is otherwise
    the same record, every other lead is as it was, and nothing but the
    cache changes.  When the store refuses it, the error banner is set and
    the cache is left as it was.  The two older revisions do the same for a
    drop on another stage and treat every drop on the lead's own stage as a
    drop in place. *)
Theorem lead_drop_updates_then_patches (env : Remote -> Response)
    (cl st : State) (result : DropResult) (dest : DraggableLocation) :
  destination result = Some dest ->
  type result <> lit "LANE" ->
  droppableId (source result) <> droppableId dest \/
    index (source result) <> index dest ->
  (exists k, CRM.handleDragEnd cl result = Await (status_call result dest) k) /\
  (let r := run env (CRM.handleDragEnd cl result) st in
   calls r = [status_call result dest] /\
   threw r = false /\
   (forall data, env (status_call result dest) = Resolved data ->
      final r = setLeads (fun _ => leads (final r)) st /\
      length (leads (final r)) = length (leads st) /\
      forall i lead, nth_error (leads st) i = Some lead ->
        exists lead', nth_error (leads (final r)) i = Some lead' /\
          same_but_status lead lead' /\
          (id lead = Some (draggableId result) ->
             status lead' = droppableId dest) /\
          (id lead <> Some (draggableId result) -> lead' = lead)) /\
   (env (status_call result dest) = Rejected ->
      final r = setError (error (final r)) st /\
      error (final r) = lit "Erro ao atualizar status do lead" /\
      leads (final r) = leads st)) /\
  (droppableId (source result) <> droppableId dest ->
     CRMLanes.handleDragEnd cl result = CRM.handleDragEnd cl result /\
     CRMFixed.handleDragEnd cl result = CRM.handleDragEnd cl result) /\
  (droppableId (source result) = droppableId dest ->
     forall r, r = run env (CRMLanes.handleDragEnd cl result) st \/
               r = run env (CRMFixed.handleDragEnd cl result) st ->
     calls r = [] /\ final r = st).
Proof.
  intros Hdest Htype Hmoved.
  rewrite (CRM_drag_moves cl result dest Hdest Htype Hmoved).
  split; [eexists; reflexivity|].
  split; [|split].
  - rewrite run_update. unfold status_call. cbn [final calls threw].
    split; [reflexivity|]. split; [reflexivity|]. split.
    + intros data ->. cbn [leads setLeads].
      split; [reflexivity|]. split; [apply length_map|].
      intros i lead Hi.
      exists (patch_status (draggableId result) (droppableId dest) lead).
      split; [apply nth_error_map_some; exact Hi|].
      destruct (patch_status_spec (draggableId result) (droppableId dest) lead)
        as (H1 & H2 & H3).
      split; [exact H3|]. split; assumption.
    + intros ->. split; [reflexivity|]. split; reflexivity.
  - intros Hne.
    rewrite (CRMLanes_drag_moves cl result dest Hdest Htype Hne),
      (CRMFixed_drag_moves cl result dest Hdest Hne). split; reflexivity.
  - intros Hsame r Hr. apply str_eqb_eq in Hsame.
    apply str_eqb_neq in Htype.
    unfold CRMLanes.handleDragEnd, CRMFixed.handleDragEnd in Hr.
    rewrite Hdest, Htype, Hsame in Hr.
    destruct Hr as [-> | ->]; split; reflexivity.
Qed.

Lemma lead_drop_updates_then_patches_witness :
  let result := drop "DEFAULT" "id-1" "pending" 0 "confirmed" 0 in
  let dest := {| droppableId := lit "confirmed"; index := 0 |} in
  let r := run (store_ok []) (CRM.handleDragEnd loaded_state result)
             loaded_state in
  calls r = [status_call result dest] /\
  exists lead lead',
    nth_error (leads loaded_state) 0 = Some lead /\
    id lead = Some (lit "id-1") /\ status lead = lit "pending" /\
    nth_error (leads (final r)) 0 = Some lead' /\
    status lead' = lit "confirmed" /\ full_name lead' = full_name lead.
Proof.
  intros result dest r.
  destruct (lead_drop_updates_then_patches (store_ok []) loaded_state
    loaded_state result dest eq_refl ltac:(discriminate)
    ltac:(left; discriminate)) as (_ & (Hcalls & _ & Hok & _) & _).
  split; [exact Hcalls|].
  destruct (Hok [] eq_refl) as (_ & _ & Hleads).
  destruct (Hleads 0 (toLead row_joao) eq_refl)
    as (lead' & Hnth & Hsame & Hst & _).
  exists (toLead row_joao), lead'.
  split; [reflexivity|]. split; [reflexivity|]. split; [reflexivity|].
  split; [exact Hnth|]. split; [exact (Hst eq_refl)|].
  symmetry. exact (proj1 (proj2 Hsame)).
Defined.

(** ** Objects *)

Section ObjFacts.
Context {V : Type}.
Implicit Types (o : obj V) (k : str) (v : V).

Lemma obj_get_In k v o : obj_get k o = Some v -> In (k, v) o.
Proof.
  induction o as [|[k' v'] t IH]; simpl; [discriminate|].
  destruct (str_eqb k' k) eqn:E.
  - apply str_eqb_eq in E. intros H; injection H as ->. subst. auto.
  - auto.
Qed.

Lemma obj_get_None k o : obj_get k o = None <-> ~ In k (Object_keys o).
Proof.
  induction o as [|[k' v'] t IH]; simpl; [tauto|].
  destruct (str_eqb k' k) eqn:E.
  - apply str_eqb_eq in E. split; [discriminate | tauto].
  - apply str_eqb_neq in E. rewrite IH. tauto.
Qed.

Lemma obj_get_Some_key k v o : obj_get k o = Some v -> In k (Object_keys o).
Proof.
  intros H. apply obj_get_In in H.
  apply (in_map fst) in H. exact H.
Qed.

Lemma In_obj_get k v o : wf_obj o -> In (k, v) o -> obj_get k o = Some v.
Proof.
  unfold wf_obj, Object_keys.
  induction o as [|[k' v'] t IH]; simpl; [tauto|].
  intros Hnd [Heq | Hin].
  - injection Heq as -> ->. rewrite str_eqb_refl. reflexivity.
  - inversion Hnd as [|? ? Hnot Hnd']; subst.
    destruct (str_eqb k' k) eqn:E; [|auto].
    apply str_eqb_eq in E. subst k'.
    exfalso. apply Hnot. apply (in_map fst) in Hin. exact Hin.
Qed.

Lemma obj_update_keys k f o :
  Object_keys (obj_update k f o) = Object_keys o.
Proof.
  induction o as [|[k' v'] t IH]; simpl; [reflexivity|].
  destruct (str_eqb k' k); simpl; [reflexivity | f_equal; exact IH].
Qed.

Lemma obj_get_update_eq k f o :
  obj_get k (obj_update k f o) = option_map f (obj_get k o).
Proof.
  induction o as [|[k' v'] t IH]; simpl; [reflexivity|].
  destruct (str_eqb k' k) eqn:E; simpl; rewrite E; [reflexivity | exact IH].
Qed.

Lemma obj_get_update_ne k k' f o :
  k <> k' -> obj_get k' (obj_update k f o) = obj_get k' o.
Proof.
  intros Hne. induction o as [|[k0 v0] t IH]; simpl; [reflexivity|].
  destruct (str_eqb k0 k) eqn:E; simpl.
  - apply str_eqb_eq in E. subst k0.
    apply str_eqb_neq in Hne. rewrite Hne. reflexivity.
  - rewrite IH. reflexivity.
Qed.

Lemma obj_get_delete_eq k o : obj_get k (obj_delete k o) = None.
Proof.
  unfold obj_delete.
  induction o as [|[k' v'] t IH]; simpl; [reflexivity|].
  destruct (str_eqb k' k) eqn:E; simpl; [exact IH|].
  rewrite E. exact IH.
Qed.

Lemma obj_get_delete_ne k k' o :
  k <> k' -> obj_get k' (obj_delete k o) = obj_get k' o.
Proof.
  intros Hne. unfold obj_delete.
  induction o as [|[k0 v0] t IH]; simpl; [reflexivity|].
  destruct (str_eqb k0 k) eqn:E; simpl.
  - apply str_eqb_eq in E. subst k0.
    apply str_eqb_neq in Hne. rewrite Hne. exact IH.
  - rewrite IH. reflexivity.
Qed.

Lemma obj_delete_keys k o :
  Object_keys (obj_delete k o)
  = filter (fun k' => negb (str_eqb k' k)) (Object_keys o).
Proof.
  unfold obj_delete, Object_keys.
  induction o as [|[k' v'] t IH]; simpl; [reflexivity|].
  destruct (str_eqb k' k); simpl; [exact IH | f_equal; exact IH].
Qed.

(** The entries other than [k] stay, in their order. *)
Lemma obj_delete_entries k o :
  obj_delete k o = filter (fun e => negb (str_eqb (fst e) k)) o.
Proof. reflexivity. Qed.

Lemma insert_index_perm n k v o :
  Permutation (insert_index n k v o) ((k, v) :: o).
Proof.
  induction o as [|[k' v'] t IH]; simpl; [reflexivity|].
  destruct (array_index k') as [m|]; [|reflexivity].
  destruct (m <? n)%N; [|reflexivity].
  rewrite IH. apply perm_swap.
Qed.

Lemma obj_get_insert_index n k k' v o :
  obj_get k o = None ->
  obj_get k' (insert_index n k v o)
  = if str_eqb k k' then Some v else obj_get k' o.
Proof.
  induction o as [|[k0 v0] t IH]; simpl; [reflexivity|].
  destruct (str_eqb k0 k) eqn:E0; [discriminate|]. intros Hnone.
  assert (Hk : str_eqb k k' = true -> str_eqb k0 k' = false).
  { intros H. apply str_eqb_eq in H. subst k'. exact E0. }
  destruct (array_index k0) as [m|]; [destruct (m <? n)%N|]; simpl.
  - rewrite (IH Hnone).
    destruct (str_eqb k k') eqn:E; [rewrite (Hk eq_refl)|]; reflexivity.
  - reflexivity.
  - reflexivity.
Qed.

Lemma obj_get_app k o1 o2 :
  obj_get k (o1 ++ o2)
  = match obj_get k o1 with Some w => Some w | None => obj_get k o2 end.
Proof.
  induction o1 as [|[k0 v0] t IH]; simpl; [reflexivity|].
  destruct (str_eqb k0 k); [reflexivity | exact IH].
Qed.

Lemma obj_get_set_eq k v o : obj_get k (obj_set k v o) = Some v.
Proof.
  unfold obj_set. destruct (obj_get k o) as [w|] eqn:E.
  - rewrite obj_get_update_eq, E. reflexivity.
  - destruct (array_index k).
    + rewrite (obj_get_insert_index _ _ _ _ _ E), str_eqb_refl.
      reflexivity.
    + rewrite obj_get_app, E. simpl. rewrite str_eqb_refl. reflexivity.
Qed.

Lemma obj_get_set_ne k k' v o :
  k <> k' -> obj_get k' (obj_set k v o) = obj_get k' o.
Proof.
  intros Hne. unfold obj_set. destruct (obj_get k o) as [w|] eqn:E.
  - apply obj_get_update_ne; assumption.
  - pose proof Hne as Hb. apply str_eqb_neq in Hb.
    destruct (array_index k).
    + rewrite (obj_get_insert_index _ _ _ _ _ E), Hb. reflexivity.
    + rewrite obj_get_app. simpl. rewrite Hb.
      destruct (obj_get k' o); reflexivity.
Qed.

(** Writing to an existing property keeps the enumeration as it is. *)
Lemma obj_set_keys_present k v w o :
  obj_get k o = Some w -> Object_keys (obj_set k v o) = Object_keys o.
Proof.
  intros E. unfold obj_set. rewrite E. apply obj_update_keys.
Qed.

(** Writing to a new property adds its key. *)
Lemma obj_set_keys_absent k v o :
  obj_get k o = None ->
  Permutation (Object_keys (obj_set k v o)) (k :: Object_keys o).
Proof.
  intros E. unfold obj_set. rewrite E. unfold Object_keys.
  destruct (array_index k).
  - rewrite (Permutation_map fst (insert_index_perm n k v o)). reflexivity.
  - rewrite map_app. simpl. rewrite <- Permutation_cons_append.
    reflexivity.
Qed.

Lemma obj_set_wf k v o : wf_obj o -> wf_obj (obj_set k v o).
Proof.
  unfold wf_obj. intros Hwf. destruct (obj_get k o) as [w|] eqn:E.
  - rewrite (obj_set_keys_present k v w o E). exact Hwf.
  - apply (Permutation_NoDup (Permutation_sym (obj_set_keys_absent k v o E))).
    constructor; [apply obj_get_None; exact E | exact Hwf].
Qed.

Lemma obj_update_wf k f o : wf_obj o -> wf_obj (obj_update k f o).
Proof. unfold wf_obj. rewrite obj_update_keys. auto. Qed.

Lemma obj_delete_wf k o : wf_obj o -> wf_obj (obj_delete k o).
Proof.
  unfold wf_obj. rewrite obj_delete_keys. apply NoDup_filter.
Qed.
End ObjFacts.

(** ** Stage registry: deletion *)

Lemma is_editable_spec stages laneId :
  is_editable stages laneId = true <-> editable_stage stages laneId.
Proof.
  unfold is_editable, editable_stage. split.
  - destruct (obj_get laneId stages) as [st|]; [|discriminate].
    destruct (editable st) as [b|] eqn:E; [|discriminate].
    intros ->. exists st. auto.
  - intros [st [-> ->]]. reflexivity.
Qed.

(** [{ ...lead, status: s }] has status [s] and is otherwise the record it
    was made from. *)
Lemma with_status_spec (lead : Lead) (s : str) :
  status (with_status lead s) = s /\ same_but_status lead (with_status lead s).
Proof. unfold same_but_status. simpl. repeat split. Qed.

(** C2: deleting a stage whose editable flag is true gives status
    "pending" to every lead of that stage, whose other fields stay as they
    are, leaves the other leads alone, and removes the stage from the
    registry while the other stages keep their metadata and their relative
    order; deleting a stage whose editable flag is not true (or that does
    not exist) changes nothing.  No remote call is made either way. *)
Theorem delete_lane (env : Remote -> Response) (cl : State) (laneId : str) :
  let r := fire env (fun cl => handleDeleteLane cl laneId) cl in
  calls r = [] /\ threw r = false /\
  (editable_stage (funnelStages cl) laneId ->
     length (leads (final r)) = length (leads cl) /\
     (forall i lead, nth_error (leads cl) i = Some lead ->
        exists lead', nth_error (leads (final r)) i = Some lead' /\
          same_but_status lead lead' /\
          (status lead = laneId -> status lead' = lit "pending") /\
          (status lead <> laneId -> lead' = lead)) /\
     obj_get laneId (funnelStages (final r)) = None /\
     (forall k, k <> laneId ->
        obj_get k (funnelStages (final r)) = obj_get k (funnelStages cl)) /\
     Object_entries (funnelStages (final r))
     = filter (fun e => negb (str_eqb (fst e) laneId))
         (Object_entries (funnelStages cl)) /\
     final r = setFunnelStages (fun _ => funnelStages (final r))
                 (setLeads (fun _ => leads (final r)) cl)) /\
  (~ editable_stage (funnelStages cl) laneId -> final r = cl).
Proof.
  unfold fire, handleDeleteLane.
  destruct (is_editable (funnelStages cl) laneId) eqn:E; simpl.
  - split; [reflexivity|]. split; [reflexivity|]. split.
    + intros _. split; [apply length_map|]. split.
      { intros i lead Hi. eexists. split.
        - apply nth_error_map_some. exact Hi.
        - destruct (str_eqb (status lead) laneId) eqn:Hb.
          + apply str_eqb_eq in Hb.
            destruct (with_status_spec lead (lit "pending")) as [H1 H2].
            split; [exact H2|]. split; [intros _; exact H1 | congruence].
          + apply str_eqb_neq in Hb.
            split; [unfold same_but_status; repeat split|].
            split; [congruence | reflexivity]. }
      split; [apply obj_get_delete_eq|]. split.
      { intros k Hk. apply obj_get_delete_ne. congruence. }
      split; reflexivity.
    + intros Hno. exfalso. apply Hno. apply is_editable_spec. exact E.
  - split; [reflexivity|]. split; [reflexivity|]. split.
    + intros Hed. apply is_editable_spec in Hed. congruence.
    + reflexivity.
Qed.

Lemma delete_lane_witness :
  let r := fire store_down (fun cl => handleDeleteLane cl (lit "em_espera"))
             with_occupied_lane in
  editable_stage (funnelStages with_occupied_lane) (lit "em_espera") /\
  ~ editable_stage (funnelStages with_occupied_lane) (lit "pending") /\
  (exists lead lead',
     nth_error (leads with_occupied_lane) 0 = Some lead /\
     status lead = lit "em_espera" /\
     nth_error (leads (final r)) 0 = Some lead' /\
     status lead' = lit "pending" /\ id lead' = id lead) /\
  obj_get (lit "em_espera") (funnelStages (final r)) = None /\
  final (fire store_down (fun cl => handleDeleteLane cl (lit "pending"))
           with_occupied_lane) = with_occupied_lane.
Proof.
  intros r.
  assert (H1 : editable_stage (funnelStages with_occupied_lane) (lit "em_espera"))
    by (apply is_editable_spec; vm_compute; reflexivity).
  assert (H2 : ~ editable_stage (funnelStages with_occupied_lane) (lit "pending"))
    by (intros H; apply is_editable_spec in H; vm_compute in H; discriminate).
  assert (H0 : nth_error (leads with_occupied_lane) 0
               = Some (with_status (toLead row_joao) (lit "em_espera")))
    by (vm_compute; reflexivity).
  split; [exact H1|]. split; [exact H2|].
  destruct (delete_lane store_down with_occupied_lane (lit "em_espera"))
    as (_ & _ & Hyes & _).
  destruct (Hyes H1) as (_ & Hleads & Hgone & _).
  destruct (Hleads 0 _ H0) as (lead' & Hnth & Hsame & Hst & _).
  split; [|split].
  - exists (with_status (toLead row_joao) (lit "em_espera")), lead'.
    split; [exact H0|]. split; [reflexivity|]. split; [exact Hnth|].
    split; [exact (Hst eq_refl)|]. symmetry. exact (proj1 Hsame).
  - exact Hgone.
  - destruct (delete_lane store_down with_occupied_lane (lit "pending"))
      as (_ & _ & _ & Hno).
    exact (Hno H2).
Defined.

(** ** Lane titles and identifiers *)

Lemma dropWhile_nil {A} (p : A -> bool) (l : list A) :
  dropWhile p l = [] <-> Forall (fun x => p x = true) l.
Proof.
  induction l as [|x t IH]; simpl.
  - split; auto.
  - destruct (p x) eqn:E.
    + rewrite IH. split; [auto | intros H; inversion H; assumption].
    + split; [discriminate | intros H; inversion H; congruence].
Qed.

Lemma dropWhile_head {A} (p : A -> bool) (l : list A) x t :
  dropWhile p l = x :: t -> p x = false /\ In x l.
Proof.
  induction l as [|y l' IH]; simpl; [discriminate|].
  destruct (p y) eqn:E.
  - intros H. destruct (IH H). auto.
  - intros H; injection H as -> _. auto.
Qed.

Lemma trim_non_blank (s : str) : truthy_str (trim s) = true <-> non_blank s.
Proof.
  unfold trim, non_blank. split.
  - destruct (dropWhile is_ws s) as [|c t] eqn:E; [discriminate|].
    intros _. exists c. destruct (dropWhile_head _ _ _ _ E). auto.
  - intros (c & Hin & Hc).
    destruct (dropWhile is_ws s) as [|d t] eqn:E.
    + apply dropWhile_nil in E. rewrite Forall_forall in E.
      specialize (E c Hin). congruence.
    + destruct (dropWhile_head _ _ _ _ E) as [Hd _].
      destruct (dropWhile is_ws (rev (d :: t))) as [|e u] eqn:E2.
      * apply dropWhile_nil in E2. rewrite Forall_forall in E2.
        specialize (E2 d). rewrite <- in_rev in E2.
        specialize (E2 (or_introl eq_refl)). congruence.
      * destruct (rev (e :: u)) eqn:E3; [|reflexivity].
        apply (f_equal (@List.length N)) in E3. rewrite length_rev in E3.
        discriminate.
Qed.

Lemma runs_head c t :
  exists r rest, runs (c :: t) = (is_ws c, c :: r) :: rest.
Proof.
  simpl. destruct (runs t) as [|[b r] rest]; [eauto|].
  destruct (Bool.eqb b (is_ws c)) eqn:E; [|eauto].
  apply Bool.eqb_prop in E. subst b. eauto.
Qed.

Lemma runs_concat s : concat (map snd (runs s)) = s.
Proof.
  induction s as [|c t IH]; simpl; [reflexivity|].
  destruct (runs t) as [|[b r] rest]; simpl in *.
  - rewrite <- IH. reflexivity.
  - destruct (Bool.eqb b (is_ws c)); simpl; rewrite <- IH; reflexivity.
Qed.

Lemma runs_uniform s :
  Forall (fun run : bool * str => snd run <> [] /\
                     Forall (fun c => is_ws c = fst run) (snd run)) (runs s).
Proof.
  induction s as [|c t IH]; simpl; [constructor|].
  destruct (runs t) as [|[b r] rest].
  - repeat constructor. discriminate.
  - destruct (Bool.eqb b (is_ws c)) eqn:E.
    + apply Bool.eqb_prop in E. inversion IH as [|? ? [Hne Hall] Hrest]; subst.
      constructor; [|assumption]. simpl in *. split; [discriminate|].
      constructor; auto.
    + constructor; [|assumption]. simpl. split; [discriminate|].
      repeat constructor.
Qed.

Lemma runs_alternating s : alternating (runs s).
Proof.
  induction s as [|c t IH]; simpl; [exact I|].
  destruct (runs t) as [|[b r] rest] eqn:E; [exact I|].
  destruct (Bool.eqb b (is_ws c)) eqn:Eb.
  - destruct rest; [exact I|]. simpl in *. exact IH.
  - simpl. split; [|exact IH].
    apply Bool.eqb_false_iff in Eb. congruence.
Qed.

Lemma underscore_runs_other c t :
  is_ws c = false -> underscore_runs (c :: t) = c :: underscore_runs t.
Proof.
  intros Hc. unfold underscore_runs. simpl.
  destruct (runs t) as [|[b r] rest]; simpl; rewrite Hc; [reflexivity|].
  destruct b; simpl; reflexivity.
Qed.

Lemma underscore_runs_ws_end c :
  is_ws c = true -> underscore_runs [c] = [underscore].
Proof. intros Hc. unfold underscore_runs. simpl. rewrite Hc. reflexivity. Qed.

Lemma underscore_runs_ws_ws c d t :
  is_ws c = true -> is_ws d = true ->
  underscore_runs (c :: d :: t) = underscore_runs (d :: t).
Proof.
  intros Hc Hd. unfold underscore_runs.
  destruct (runs_head d t) as (r & rest & E).
  change (runs (c :: d :: t)) with
    (match runs (d :: t) with
     | (b, r) :: rest =>
         if Bool.eqb b (is_ws c) then (b, c :: r) :: rest
         else (is_ws c, [c]) :: (b, r) :: rest
     | [] => [(is_ws c, [c])]
     end).
  rewrite E, Hc, Hd. reflexivity.
Qed.

Lemma underscore_runs_ws_other c d t :
  is_ws c = true -> is_ws d = false ->
  underscore_runs (c :: d :: t) = underscore :: underscore_runs (d :: t).
Proof.
  intros Hc Hd. unfold underscore_runs.
  destruct (runs_head d t) as (r & rest & E).
  change (runs (c :: d :: t)) with
    (match runs (d :: t) with
     | (b, r) :: rest =>
         if Bool.eqb b (is_ws c) then (b, c :: r) :: rest
         else (is_ws c, [c]) :: (b, r) :: rest
     | [] => [(is_ws c, [c])]
     end).
  rewrite E, Hc, Hd. reflexivity.
Qed.

Lemma underscore_runs_ws c t :
  is_ws c = true ->
  underscore_runs (c :: t) = underscore :: underscore_runs (dropWhile is_ws t).
Proof.
  revert c. induction t as [|d t IH]; intros c Hc.
  - apply underscore_runs_ws_end; assumption.
  - simpl dropWhile. destruct (is_ws d) eqn:Hd.
    + rewrite (underscore_runs_ws_ws c d t Hc Hd). apply IH; assumption.
    + apply underscore_runs_ws_other; assumption.
Qed.

(** The regular-expression replace computes the slug of the
    specification. *)
Lemma replace_ws_underscore_runs s : replace_ws s = underscore_runs s.
Proof.
  funelim (replace_ws s).
  - reflexivity.
  - rewrite (underscore_runs_ws c t Heq). f_equal. assumption.
  - rewrite (underscore_runs_other c t Heq). f_equal. assumption.
Qed.

(** The slug holds no whitespace. *)
Lemma replace_ws_no_ws s : Forall (fun c => is_ws c = false) (replace_ws s).
Proof.
  funelim (replace_ws s).
  - constructor.
  - constructor; [reflexivity | assumption].
  - constructor; assumption.
Qed.

(** ** Stage registry: creation *)

Lemma num_le_refl a : num_le a a.
Proof.
  unfold num_le. destruct a; simpl; [discriminate|].
  rewrite Z.compare_refl. discriminate.
Qed.

Lemma num_le_trans a b c : num_le a b -> num_le b c -> num_le a c.
Proof.
  unfold num_le. destruct a, b, c; simpl; try congruence.
  rewrite !Z.compare_gt_iff. lia.
Qed.

Lemma num_max_l a b : num_le a (num_max a b).
Proof.
  unfold num_le. destruct a, b; simpl; try discriminate.
  - rewrite Z.compare_refl. discriminate.
  - rewrite Z.compare_gt_iff. lia.
Qed.

Lemma num_max_r a b : num_le b (num_max a b).
Proof.
  unfold num_le. destruct a, b; simpl; try discriminate.
  - rewrite Z.compare_refl. discriminate.
  - rewrite Z.compare_gt_iff. lia.
Qed.

Lemma fold_max_ge l : forall acc,
  num_le acc (fold_left num_max l acc) /\
  forall x, In x l -> num_le x (fold_left num_max l acc).
Proof.
  induction l as [|y l IH]; intros acc; simpl.
  - split; [apply num_le_refl | tauto].
  - destruct (IH (num_max acc y)) as [H1 H2]. split.
    + eapply num_le_trans; [apply num_max_l | exact H1].
    + intros x [<- | Hin]; [|auto].
      eapply num_le_trans; [apply num_max_r | exact H1].
Qed.

Lemma Math_max_ge l x : In x l -> num_le x (Math_max l).
Proof. intros H. apply (fold_max_ge l NegInf). exact H. Qed.

(** Adding one gives a strictly larger number, except at [-Infinity]. *)
Lemma num_lt_succ x m z : num_le x m -> m = Int z -> num_lt x (num_succ m).
Proof.
  intros Hle ->. unfold num_le, num_lt in *. destruct x; simpl in *.
  - reflexivity.
  - rewrite Z.compare_gt_iff in Hle. rewrite Z.compare_lt_iff. lia.
Qed.

Section Creation.
Variable toLowerCase : str -> str.
Variable env : Remote -> Response.

Lemma create_run (cl : State) :
  non_blank (newLaneName cl) ->
  fire env (handleCreateNewLane toLowerCase) cl =
  {| final :=
       setShowNewLaneModal false
         (setNewLaneColor (lit "bg-indigo-500")
            (setNewLaneName []
               (setFunnelStages (obj_set (laneId_of toLowerCase cl) (new_stage cl)) cl)));
     calls := []; threw := false |}.
Proof.
  intros H. apply trim_non_blank in H.
  unfold fire, handleCreateNewLane. rewrite H. reflexivity.
Qed.

Lemma create_blank (cl : State) :
  ~ non_blank (newLaneName cl) ->
  fire env (handleCreateNewLane toLowerCase) cl =
  {| final := cl; calls := []; threw := false |}.
Proof.
  intros H. unfold fire, handleCreateNewLane.
  destruct (truthy_str (trim (newLaneName cl))) eqn:E; [|reflexivity].
  apply trim_non_blank in E. contradiction.
Qed.

(** C8: for a non-blank title the created stage is stored under the slug
    of the title, that is the lower-cased title in which every maximal run
    of whitespace is replaced by one underscore; no other identifier is
    written. *)
Theorem created_stage_identifier (cl : State) :
  non_blank (newLaneName cl) ->
  let r := fire env (handleCreateNewLane toLowerCase) cl in
  let laneId := underscore_runs (toLowerCase (newLaneName cl)) in
  obj_get laneId (funnelStages (final r)) = Some (new_stage cl) /\
  (forall k, k <> laneId ->
     obj_get k (funnelStages (final r)) = obj_get k (funnelStages cl)) /\
  Forall (fun c => is_ws c = false) laneId.
Proof.
  intros H. rewrite (create_run cl H). simpl.
  rewrite <- replace_ws_underscore_runs. fold (laneId_of toLowerCase cl).
  split; [apply obj_get_set_eq|]. split.
  - intros k Hk. apply obj_get_set_ne. congruence.
  - apply replace_ws_no_ws.
Qed.

(** [Math.max] returns one of its arguments, or [-Infinity]. *)
Lemma fold_max_in (l : list num) (acc : num) :
  fold_left num_max l acc = acc \/ In (fold_left num_max l acc) l.
Proof.
  revert acc. induction l as [|y l IH]; intros acc; simpl; [auto|].
  destruct (IH (num_max acc y)) as [H | H]; [|auto].
  rewrite H. destruct acc as [|x], y as [|y]; simpl; auto.
  destruct (Z.max_spec x y) as [[_ ->] | [_ ->]]; auto.
Qed.

Lemma maxOrder_greatest (stages : obj FunnelStage) (z : Z) :
  greatest_order stages z -> maxOrder stages = Int z.
Proof.
  intros [(k & st & Hin & Hz) Hmax]. unfold maxOrder.
  assert (Hge : num_le (Int z) (Math_max (map order (Object_values stages)))).
  { apply Math_max_ge. rewrite <- Hz. apply in_map.
    apply (in_map snd) in Hin. exact Hin. }
  destruct (fold_max_in (map order (Object_values stages)) NegInf) as [H | H];
    fold (Math_max (map order (Object_values stages))) in H.
  - rewrite H in Hge. exfalso. apply Hge. reflexivity.
  - destruct (Math_max (map order (Object_values stages))) as [|y] eqn:E.
    + exfalso. apply Hge. reflexivity.
    + apply in_map_iff in H. destruct H as (st' & Hy & Hin').
      apply in_map_iff in Hin'. destruct Hin' as ([k' st''] & Heq & Hin').
      simpl in Heq. subst st''.
      pose proof (Hmax k' st' y Hin' Hy) as Hle.
      unfold num_le in Hge. simpl in Hge. rewrite Z.compare_gt_iff in Hge.
      f_equal. lia.
Qed.

Lemma maxOrder_no_integer (stages : obj FunnelStage) :
  (forall k st, In (k, st) stages -> order st = NegInf) ->
  maxOrder stages = NegInf.
Proof.
  intros Hall. unfold maxOrder.
  destruct (fold_max_in (map order (Object_values stages)) NegInf) as [H | H];
    fold (Math_max (map order (Object_values stages))) in H; [exact H|].
  apply in_map_iff in H. destruct H as (st & Hy & Hin).
  apply in_map_iff in Hin. destruct Hin as ([k st'] & Heq & Hin).
  simpl in Heq. subst st'. rewrite <- Hy. exact (Hall k st Hin).
Qed.

(** C9: when the slug of the new title is the identifier of an existing
    stage, creation does not fail: it overwrites that stage in place.  The
    stage then has the new title and colour, [editable: true], and as its
    order the greatest integer order of the registry plus one (the
    overwritten stage counted); when no stage has an integer order it gets
    [-Infinity].  The identifiers and their enumeration stay the same, so
    the number of stages does not grow, the other stages keep their
    metadata, and the overwritten stage, default or not, can now be
    deleted. *)
Theorem create_overwrites_existing (cl : State) (old : FunnelStage) :
  non_blank (newLaneName cl) ->
  obj_get (laneId_of toLowerCase cl) (funnelStages cl) = Some old ->
  let r := fire env (handleCreateNewLane toLowerCase) cl in
  threw r = false /\
  Object_keys (funnelStages (final r)) = Object_keys (funnelStages cl) /\
  length (funnelStages (final r)) = length (funnelStages cl) /\
  (exists created,
     obj_get (laneId_of toLowerCase cl) (funnelStages (final r)) = Some created /\
     title created = newLaneName cl /\
     color created = newLaneColor cl /\
     editable created = Some true /\
     (forall z, greatest_order (funnelStages cl) z ->
        order created = Int (z + 1) /\
        forall k st z', In (k, st) (funnelStages cl) -> order st = Int z' ->
          (z' < z + 1)%Z) /\
     ((forall k st, In (k, st) (funnelStages cl) -> order st = NegInf) ->
        order created = NegInf)) /\
  (forall k, k <> laneId_of toLowerCase cl ->
     obj_get k (funnelStages (final r)) = obj_get k (funnelStages cl)) /\
  editable_stage (funnelStages (final r)) (laneId_of toLowerCase cl) /\
  obj_get (laneId_of toLowerCase cl)
    (funnelStages (final (fire env
       (fun cl' => handleDeleteLane cl' (laneId_of toLowerCase cl)) (final r)))) = None.
Proof.
  intros H Hold. rewrite (create_run cl H). simpl.
  assert (Hget : obj_get (laneId_of toLowerCase cl)
                   (obj_set (laneId_of toLowerCase cl) (new_stage cl) (funnelStages cl))
                 = Some (new_stage cl)) by apply obj_get_set_eq.
  assert (Hkeys : Object_keys (obj_set (laneId_of toLowerCase cl) (new_stage cl)
                                 (funnelStages cl))
                  = Object_keys (funnelStages cl))
    by (eapply obj_set_keys_present; exact Hold).
  split; [reflexivity|]. split; [exact Hkeys|]. split.
  { apply (f_equal (@List.length str)) in Hkeys. unfold Object_keys in Hkeys.
    rewrite !length_map in Hkeys. exact Hkeys. }
  split.
  { exists (new_stage cl). split; [exact Hget|].
    split; [reflexivity|]. split; [reflexivity|]. split; [reflexivity|].
    split.
    - intros z Hz. cbn [order new_stage].
      rewrite (maxOrder_greatest _ z Hz). split; [reflexivity|].
      intros k st z' Hin Hord. destruct Hz as [_ Hmax].
      pose proof (Hmax k st z' Hin Hord). lia.
    - intros Hall. cbn [order new_stage].
      rewrite (maxOrder_no_integer _ Hall). reflexivity. }
  split.
  { intros k Hk. apply obj_get_set_ne. congruence. }
  split.
  { exists (new_stage cl). split; [exact Hget | reflexivity]. }
  unfold fire, handleDeleteLane, is_editable. simpl. rewrite Hget. simpl.
  apply obj_get_delete_eq.
Qed.

(** Part of C3 that holds: if some existing stage has an integer order,
    the created stage gets order max+1, which is strictly greater than the
    order of every stage that existed before. *)
Lemma create_order_above (cl : State) (z : Z) :
  non_blank (newLaneName cl) ->
  maxOrder (funnelStages cl) = Int z ->
  let r := fire env (handleCreateNewLane toLowerCase) cl in
  exists created,
    obj_get (laneId_of toLowerCase cl) (funnelStages (final r)) = Some created /\
    order created = Int (z + 1) /\
    forall k st, In (k, st) (funnelStages cl) ->
      num_lt (order st) (order created).
Proof.
  intros H Hmax. rewrite (create_run cl H). simpl.
  exists (new_stage cl). split; [apply obj_get_set_eq|]. split.
  - simpl. rewrite Hmax. reflexivity.
  - intros k st Hin. simpl. apply (num_lt_succ _ _ z); [|exact Hmax].
    apply Math_max_ge. apply in_map.
    apply (in_map snd) in Hin. exact Hin.
Qed.

End Creation.

Lemma created_stage_identifier_witness :
  let cl := setNewLaneName (lit "Em  Espera") loaded_state in
  non_blank (newLaneName cl) /\
  obj_get (lit "em_espera")
    (funnelStages (final (fire store_down
       (handleCreateNewLane ascii_toLowerCase) cl)))
  = Some (new_stage cl).
Proof.
  intros cl.
  assert (H : non_blank (newLaneName cl))
    by (apply trim_non_blank; vm_compute; reflexivity).
  split; [exact H|].
  exact (proj1 (created_stage_identifier ascii_toLowerCase store_down cl H)).
Defined.

Lemma DEFAULT_FUNNEL_STAGES_greatest :
  greatest_order DEFAULT_FUNNEL_STAGES 6.
Proof.
  split.
  - exists (lit "cancelled"), (stage "Cancelados" "bg-gray-500" 6).
    split; [|reflexivity]. simpl. tauto.
  - intros k st z' Hin Hord. simpl in Hin.
    repeat (destruct Hin as [Hin | Hin];
            [injection Hin as <- <-; injection Hord as <-; lia|]).
    contradiction.
Qed.

Lemma create_overwrites_existing_witness :
  let cl := setNewLaneName (lit "Pending") loaded_state in
  non_blank (newLaneName cl) /\
  obj_get (laneId_of ascii_toLowerCase cl) (funnelStages cl)
  = Some (stage "Novos Leads" "bg-blue-500" 0) /\
  let r := fire store_down (handleCreateNewLane ascii_toLowerCase) cl in
  length (funnelStages (final r)) = length (funnelStages cl) /\
  (exists created,
     obj_get (lit "pending") (funnelStages (final r)) = Some created /\
     title created = lit "Pending" /\ editable created = Some true /\
     order created = Int 7) /\
  editable_stage (funnelStages (final r)) (lit "pending").
Proof.
  intros cl.
  assert (H : non_blank (newLaneName cl))
    by (apply trim_non_blank; vm_compute; reflexivity).
  assert (Hold : obj_get (laneId_of ascii_toLowerCase cl) (funnelStages cl)
                 = Some (stage "Novos Leads" "bg-blue-500" 0))
    by (vm_compute; reflexivity).
  assert (Hid : laneId_of ascii_toLowerCase cl = lit "pending")
    by (vm_compute; reflexivity).
  split; [exact H|]. split; [exact Hold|].
  destruct (create_overwrites_existing ascii_toLowerCase store_down cl
              (stage "Novos Leads" "bg-blue-500" 0) H Hold)
    as (_ & _ & Hlen & (created & Hget & Ht & _ & He & Hord & _) & _ & Hed & _).
  rewrite Hid in Hget, Hed.
  split; [exact Hlen|]. split; [|exact Hed].
  exists created. split; [exact Hget|]. split; [exact Ht|]. split; [exact He|].
  exact (proj1 (Hord 6%Z DEFAULT_FUNNEL_STAGES_greatest)).
Defined.

(** C3 fails on a board the user can reach.  Once the registry has been
    emptied, [Math.max()] is [-Infinity], so a lane created then gets order
    [-Infinity]; the registry is non-empty again, and the next lane created
    gets [-Infinity + 1 = -Infinity], which is not greater than the order
    of the lane that existed before. *)
Theorem create_after_emptying_not_above :
  funnelStages emptied_board = [] /\
  let cl := setNewLaneName (lit "b") (type_and_create (lit "a") emptied_board) in
  let r := fire store_down (handleCreateNewLane ascii_toLowerCase) cl in
  funnelStages cl <> [] /\
  non_blank (newLaneName cl) /\
  exists st created,
    obj_get (lit "a") (funnelStages cl) = Some st /\
    obj_get (lit "b") (funnelStages (final r)) = Some created /\
    order st = NegInf /\ order created = NegInf /\
    ~ num_lt (order st) (order created).
Proof.
  split; [vm_compute; reflexivity|]. cbv zeta.
  split; [vm_compute; discriminate|].
  split; [apply trim_non_blank; vm_compute; reflexivity|].
  exists {| title := lit "a"; color := lit "bg-indigo-500";
            editable := Some true; order := NegInf |}.
  exists {| title := lit "b"; color := lit "bg-indigo-500";
            editable := Some true; order := NegInf |}.
  split; [vm_compute; reflexivity|]. split; [vm_compute; reflexivity|].
  split; [reflexivity|]. split; [reflexivity|].
  discriminate.
Qed.

(** ** Stage registry: reordering *)

Section ArrayFacts.
Context {A : Type}.

Lemma sort_insert_perm (cmp : A -> A -> comparison) x (l : list A) :
  Permutation (sort_insert cmp x l) (x :: l).
Proof.
  induction l as [|y t IH]; simpl; [reflexivity|].
  destruct (cmp x y); try reflexivity.
  rewrite IH. apply perm_swap.
Qed.

Lemma Array_sort_perm (cmp : A -> A -> comparison) (l : list A) :
  Permutation (Array_sort cmp l) l.
Proof.
  induction l as [|x t IH]; simpl; [reflexivity|].
  rewrite sort_insert_perm. apply perm_skip. exact IH.
Qed.

Lemma firstn_skipn_middle (l1 l2 : list A) x :
  firstn (length l1) (l1 ++ x :: l2) = l1 /\
  skipn (length l1) (l1 ++ x :: l2) = x :: l2 /\
  skipn (S (length l1)) (l1 ++ x :: l2) = l2.
Proof.
  induction l1 as [|y l1 (IH1 & IH2 & IH3)]; simpl; [auto|].
  rewrite IH1. simpl in IH3. auto.
Qed.

(** Within bounds, [splice(start, 1)] takes out exactly one element. *)
Lemma splice_remove1_perm (start : nat) (a : list A) :
  start < length a ->
  exists x, fst (splice_remove1 start a) = [x] /\
            Permutation (x :: snd (splice_remove1 start a)) a.
Proof.
  intros Hlt. unfold splice_remove1. cbn [fst snd].
  destruct (nth_error a start) as [x|] eqn:E;
    [|apply nth_error_None in E; lia].
  destruct (nth_error_split a start E) as (l1 & l2 & -> & Hlen).
  exists x. subst start.
  destruct (firstn_skipn_middle l1 l2 x) as (-> & -> & ->).
  split; [reflexivity | apply Permutation_middle].
Qed.

(** Past the end it takes out nothing. *)
Lemma splice_remove1_out (start : nat) (a : list A) :
  length a <= start -> splice_remove1 start a = ([], a).
Proof.
  intros Hge. unfold splice_remove1.
  rewrite (skipn_all2 a Hge), (firstn_all2 a Hge).
  rewrite (skipn_all2 a) by lia.
  rewrite app_nil_r. reflexivity.
Qed.

Lemma splice_insert_perm (start : nat) (x : A) (a : list A) :
  Permutation (splice_insert start x a) (x :: a).
Proof.
  unfold splice_insert. rewrite <- Permutation_middle.
  rewrite firstn_skipn. reflexivity.
Qed.

Lemma findIndex_Some (p : A -> bool) (a : list A) i :
  findIndex p a = Some i ->
  exists x, nth_error a i = Some x /\ p x = true.
Proof.
  revert i. induction a as [|y t IH]; simpl; [discriminate|].
  intros i. destruct (p y) eqn:E.
  - intros H; injection H as <-. exists y. auto.
  - destruct (findIndex p t) as [j|]; [|discriminate].
    intros H; injection H as <-. apply IH. reflexivity.
Qed.

Lemma findIndex_None (p : A -> bool) (a : list A) :
  findIndex p a = None -> Forall (fun x => p x = false) a.
Proof.
  induction a as [|y t IH]; simpl; [constructor|].
  destruct (p y) eqn:E; [discriminate|].
  destruct (findIndex p t); [discriminate|]. auto.
Qed.
End ArrayFacts.

Lemma num_compare_Gt_le a b : num_compare a b = Gt -> num_le b a.
Proof.
  unfold num_le. destruct a, b; simpl; try discriminate.
  rewrite !Z.compare_gt_iff. lia.
Qed.

Lemma sort_insert_sorted x (l : list (str * FunnelStage)) :
  Sorted by_order l ->
  Sorted by_order
    (sort_insert (fun a b => num_compare (order (snd a)) (order (snd b))) x l).
Proof.
  induction 1 as [|y t Hs IH Hhd]; simpl.
  - repeat constructor.
  - destruct (num_compare (order (snd x)) (order (snd y))) eqn:E.
    + repeat constructor; try assumption. unfold by_order, num_le. congruence.
    + repeat constructor; try assumption. unfold by_order, num_le. congruence.
    + constructor; [exact IH|].
      destruct t as [|z t']; simpl.
      * constructor. apply num_compare_Gt_le. exact E.
      * destruct (num_compare (order (snd x)) (order (snd z))).
        -- constructor. apply num_compare_Gt_le. exact E.
        -- constructor. apply num_compare_Gt_le. exact E.
        -- constructor. inversion Hhd. assumption.
Qed.

(** [getSortedStages] returns the entries of the registry in ascending
    order of [order]. *)
Lemma getSortedStages_sorted (cl : State) : Sorted by_order (getSortedStages cl).
Proof.
  unfold getSortedStages, Object_entries.
  induction (funnelStages cl) as [|x t IH]; simpl; [constructor|].
  apply sort_insert_sorted. exact IH.
Qed.

Lemma getSortedStages_perm (cl : State) :
  Permutation (getSortedStages cl) (funnelStages cl).
Proof. apply Array_sort_perm. Qed.

Lemma orders_order_of (stages : obj FunnelStage) :
  wf_obj stages ->
  orders stages = map (order_of stages) (Object_keys stages).
Proof.
  intros Hwf. unfold orders, Object_values, Object_keys.
  rewrite !map_map. apply map_ext_in. intros [k v] Hin. simpl.
  unfold order_of. rewrite (In_obj_get k v stages Hwf Hin). reflexivity.
Qed.

Lemma obj_get_present {V} k (o : obj V) :
  In k (Object_keys o) -> exists v, obj_get k o = Some v.
Proof.
  intros Hin. destruct (obj_get k o) as [v|] eqn:E; [eauto|].
  apply obj_get_None in E. contradiction.
Qed.

Lemma with_order_same (st : FunnelStage) : with_order st (order st) = st.
Proof. destruct st; reflexivity. Qed.

(** Effect of the renumbering loop over the entries [es], the first of
    which gets number [i]: each listed stage gets its position as order,
    and nothing else changes. *)
Lemma renumber_spec (es : list (str * FunnelStage)) :
  forall (i : nat) (o : obj FunnelStage),
  NoDup (map fst es) ->
  incl (map fst es) (Object_keys o) ->
  exists o',
    renumber (map Some es) i o = Some o' /\
    Object_keys o' = Object_keys o /\
    (forall k, ~ In k (map fst es) -> obj_get k o' = obj_get k o) /\
    (forall j k, nth_error (map fst es) j = Some k ->
       order_of o' k = Int (Z.of_nat (i + j))) /\
    (forall k v, obj_get k o = Some v ->
       obj_get k o' = Some (with_order v (order_of o' k))).
Proof.
  induction es as [|[k0 v0] rest IH]; intros i o Hnd Hincl.
  - exists o. simpl. split; [reflexivity|]. split; [reflexivity|].
    split; [reflexivity|]. split.
    + intros [|j] k; discriminate.
    + intros k v E. unfold order_of. rewrite E, with_order_same. reflexivity.
  - simpl in Hnd. inversion Hnd as [|? ? Hnotin Hnd']; subst.
    set (f := fun st => with_order st (Int (Z.of_nat i))).
    destruct (IH (S i) (obj_update k0 f o) Hnd') as (o' & Hrun & Hkeys & Hother & Hnum & Hmeta).
    { rewrite obj_update_keys. intros k Hk. apply Hincl. right. exact Hk. }
    destruct (obj_get_present k0 o) as [v Hv]; [apply Hincl; left; reflexivity|].
    assert (Hk0 : obj_get k0 o' = Some (f v)).
    { rewrite (Hother k0 Hnotin), obj_get_update_eq, Hv. reflexivity. }
    exists o'. split; [exact Hrun|]. split.
    { rewrite Hkeys. apply obj_update_keys. }
    split.
    { intros k Hk. simpl in Hk. rewrite Hother by tauto.
      apply obj_get_update_ne. tauto. }
    split.
    { intros [|j] k Hj; simpl in Hj.
      - injection Hj as <-. unfold order_of. rewrite Hk0. simpl.
        rewrite Nat.add_0_r. reflexivity.
      - rewrite (Hnum j k Hj). f_equal. f_equal. lia. }
    intros k v' E. destruct (str_eqb k0 k) eqn:Ek.
    + apply str_eqb_eq in Ek. subst k.
      unfold order_of. rewrite Hk0. simpl.
      assert (v' = v) by congruence. subst v'. reflexivity.
    + apply str_eqb_neq in Ek.
      apply Hmeta. rewrite obj_get_update_ne by exact Ek. exact E.
Qed.

Lemma map_positions {K} (g : K -> num) (l : list K) : forall i,
  (forall j k, nth_error l j = Some k -> g k = Int (Z.of_nat (i + j))) ->
  map g l = map (fun n => Int (Z.of_nat n)) (seq i (length l)).
Proof.
  induction l as [|x t IH]; intros i H; simpl; [reflexivity|]. f_equal.
  - rewrite (H 0 x eq_refl). rewrite Nat.add_0_r. reflexivity.
  - apply IH. intros j k Hj. rewrite (H (S j) k Hj). f_equal. f_equal. lia.
Qed.

(** A registry whose stages are numbered by their positions in a
    permutation of its entries has dense orders. *)
Lemma numbered_dense (o' : obj FunnelStage) (ks : list str) :
  wf_obj o' ->
  Permutation ks (Object_keys o') ->
  (forall j k, nth_error ks j = Some k -> order_of o' k = Int (Z.of_nat (0 + j))) ->
  dense_orders o'.
Proof.
  intros Hwf Hperm Hnum. unfold dense_orders.
  rewrite (orders_order_of o' Hwf).
  rewrite <- (Permutation_map (order_of o') Hperm).
  rewrite (map_positions (order_of o') ks 0 Hnum).
  unfold dense, Object_keys in *.
  rewrite (Permutation_length Hperm), length_map. reflexivity.
Qed.

Lemma keys_perm {V} (l l' : list (str * V)) :
  Permutation l l' -> Permutation (map fst l) (map fst l').
Proof. apply Permutation_map. Qed.

Lemma renumber_undefined (l1 : list (str * FunnelStage)) l2 :
  forall i o, renumber (map Some l1 ++ None :: l2) i o = None.
Proof.
  induction l1 as [|[k v] t IH]; intros i o; simpl; [reflexivity|]. apply IH.
Qed.

(** The lane branch within bounds: the registry is replaced by one with
    the same identifiers in the same enumeration, the same metadata apart
    from [order], and orders [0 .. n-1]. *)
Lemma reorderLanes_spec (cl : State) (src dst : DraggableLocation) :
  wf_obj (funnelStages cl) ->
  index src < length (funnelStages cl) ->
  exists o',
    reorderLanes cl src dst
    = SetState (setFunnelStages (fun _ => o'))
        (SetState (setIsDraggingLane false) Ret) /\
    Object_keys o' = Object_keys (funnelStages cl) /\
    dense_orders o' /\
    (forall k v, obj_get k (funnelStages cl) = Some v ->
       obj_get k o' = Some (with_order v (order_of o' k))).
Proof.
  intros Hwf Hlt. unfold reorderLanes.
  pose proof (getSortedStages_perm cl) as Hsort.
  assert (Hlen : index src < length (map Some (getSortedStages cl))).
  { rewrite length_map, (Permutation_length Hsort). exact Hlt. }
  destruct (splice_remove1_perm (index src) (map Some (getSortedStages cl)) Hlen)
    as (x & Hfst & Hperm).
  destruct (splice_remove1 (index src) (map Some (getSortedStages cl)))
    as [removed rest]. simpl in Hfst, Hperm. subst removed.
  pose proof (splice_insert_perm (index dst) x rest) as Hins.
  rewrite Hperm in Hins.
  destruct (Permutation_map_inv _ _ Hins) as (es & Hes & Hperm').
  rewrite Hes.
  assert (Hes_o : Permutation es (funnelStages cl)).
  { rewrite <- Hperm'. exact Hsort. }
  destruct (renumber_spec es 0 (funnelStages cl))
    as (o' & Hrun & Hkeys & _ & Hnum & Hmeta).
  { apply (Permutation_NoDup (Permutation_sym (keys_perm _ _ Hes_o))).
    exact Hwf. }
  { intros k Hk. apply (Permutation_in k (keys_perm _ _ Hes_o)). exact Hk. }
  exists o'. rewrite Hrun. split; [reflexivity|]. split; [exact Hkeys|].
  split; [|exact Hmeta].
  apply (numbered_dense o' (map fst es)).
  - unfold wf_obj. rewrite Hkeys. exact Hwf.
  - rewrite Hkeys. apply (keys_perm _ _ Hes_o).
  - exact Hnum.
Qed.

(** The lane branch with a source index past the end: the handler throws
    before it sets any state. *)
Lemma reorderLanes_out_of_range (cl : State) (src dst : DraggableLocation) :
  length (funnelStages cl) <= index src ->
  reorderLanes cl src dst = Throw.
Proof.
  intros Hge. unfold reorderLanes.
  pose proof (getSortedStages_perm cl) as Hsort.
  rewrite splice_remove1_out
    by (rewrite length_map, (Permutation_length Hsort); exact Hge).
  unfold splice_insert. rewrite firstn_map, renumber_undefined. reflexivity.
Qed.

Lemma exchange_involutive a b k : exchange a b (exchange a b k) = k.
Proof.
  unfold exchange.
  destruct (str_eqb k a) eqn:Ea.
  - apply str_eqb_eq in Ea. subst k.
    destruct (str_eqb b a) eqn:Eba.
    + apply str_eqb_eq in Eba. exact Eba.
    + rewrite str_eqb_refl. reflexivity.
  - destruct (str_eqb k b) eqn:Eb.
    + apply str_eqb_eq in Eb. subst k. rewrite str_eqb_refl. reflexivity.
    + rewrite Ea, Eb. reflexivity.
Qed.

Lemma exchange_in a b k (ks : list str) :
  In a ks -> In b ks -> In k ks -> In (exchange a b k) ks.
Proof.
  intros Ha Hb Hk. unfold exchange.
  destruct (str_eqb k a); [exact Hb|]. destruct (str_eqb k b); assumption.
Qed.

Lemma exchange_perm a b (ks : list str) :
  NoDup ks -> In a ks -> In b ks -> Permutation (map (exchange a b) ks) ks.
Proof.
  intros Hnd Ha Hb. apply NoDup_Permutation; [|exact Hnd|].
  - clear Ha Hb. induction Hnd as [|x l Hx Hnd IH]; simpl; constructor.
    + intros Hin. apply in_map_iff in Hin. destruct Hin as (y & Hy & Hin).
      apply (f_equal (exchange a b)) in Hy.
      rewrite !exchange_involutive in Hy. subst y. contradiction.
    + exact IH.
  - intros x. rewrite in_map_iff. split.
    + intros (y & <- & Hy). apply exchange_in; assumption.
    + intros Hx. exists (exchange a b x).
      split; [apply exchange_involutive | apply exchange_in; assumption].
Qed.

(** What a press on a lane arrow does: nothing (unknown lane, or no
    neighbour on that side), or the exchange of the [order] values of the
    lane and its neighbour in sorted order. *)
Lemma moveLane_spec (cl : State) (laneId : str) (direction : Direction) :
  wf_obj (funnelStages cl) ->
  CRM.moveLane cl laneId direction = Ret \/
  exists o' target,
    CRM.moveLane cl laneId direction
    = SetState (setFunnelStages (fun _ => o')) Ret /\
    target <> laneId /\
    In laneId (Object_keys (funnelStages cl)) /\
    In target (Object_keys (funnelStages cl)) /\
    Object_keys o' = Object_keys (funnelStages cl) /\
    (forall k, order_of o' k = order_of (funnelStages cl) (exchange laneId target k)) /\
    (forall k v, obj_get k (funnelStages cl) = Some v ->
       obj_get k o' = Some (with_order v (order_of o' k))).
Proof.
  intros Hwf. unfold CRM.moveLane.
  pose proof (getSortedStages_perm cl) as Hsort.
  set (sorted := getSortedStages cl) in *.
  set (o := funnelStages cl) in *.
  assert (Hnd : NoDup (map fst sorted))
    by (apply (Permutation_NoDup (Permutation_sym (keys_perm _ _ Hsort))); exact Hwf).
  destruct (findIndex _ sorted) as [cur|] eqn:Efind; [|left; reflexivity].
  set (newIndex := match direction with
                   | Left => (Z.of_nat cur - 1)%Z
                   | Right => (Z.of_nat cur + 1)%Z
                   end).
  destruct ((newIndex <? 0)%Z || (newIndex >=? Z.of_nat (length sorted))%Z)
    eqn:Ebound; [left; reflexivity|]. right.
  apply orb_false_iff in Ebound. destruct Ebound as [Hlo Hhi].
  apply Z.ltb_ge in Hlo. rewrite Z.geb_leb in Hhi. apply Z.leb_gt in Hhi.
  destruct (findIndex_Some _ _ _ Efind) as ([k0 v0] & Hcur & Hk0).
  simpl in Hk0. apply str_eqb_eq in Hk0. subst k0.
  assert (Hne : Z.to_nat newIndex <> cur) by (subst newIndex; destruct direction; lia).
  destruct (nth_error sorted (Z.to_nat newIndex)) as [[target tv]|] eqn:Enew;
    [|apply nth_error_None in Enew; lia].
  assert (Hin_lane : In laneId (Object_keys o)).
  { apply (Permutation_in _ (keys_perm _ _ Hsort)).
    apply nth_error_In in Hcur. apply (in_map fst) in Hcur. exact Hcur. }
  assert (Hin_target : In target (Object_keys o)).
  { apply (Permutation_in _ (keys_perm _ _ Hsort)).
    apply nth_error_In in Enew. apply (in_map fst) in Enew. exact Enew. }
  assert (Hdiff : target <> laneId).
  { intros ->. apply Hne.
    apply (proj1 (NoDup_nth_error (map fst sorted)) Hnd).
    - rewrite length_map. lia.
    - rewrite !nth_error_map, Enew, Hcur. reflexivity. }
  destruct (obj_get_present laneId o Hin_lane) as [current Hcurrent].
  destruct (obj_get_present target o Hin_target) as [tgt Htgt].
  rewrite Hcurrent, Htgt.
  eexists. exists target. split; [reflexivity|].
  split; [exact Hdiff|]. split; [exact Hin_lane|]. split; [exact Hin_target|].
  split; [rewrite !obj_update_keys; reflexivity|].
  assert (Hget_lane : forall f g,
            obj_get laneId (obj_update target g (obj_update laneId f o))
            = Some (f current)).
  { intros f g. rewrite obj_get_update_ne by exact Hdiff.
    rewrite obj_get_update_eq, Hcurrent. reflexivity. }
  assert (Hget_target : forall f g,
            obj_get target (obj_update target g (obj_update laneId f o))
            = Some (g tgt)).
  { intros f g. rewrite obj_get_update_eq.
    rewrite obj_get_update_ne by congruence. rewrite Htgt. reflexivity. }
  assert (Hget_other : forall k f g, k <> laneId -> k <> target ->
            obj_get k (obj_update target g (obj_update laneId f o))
            = obj_get k o).
  { intros k f g H1 H2. rewrite !obj_get_update_ne by congruence. reflexivity. }
  assert (Horder : forall k,
            order_of (obj_update target (fun st => with_order st (order current))
                        (obj_update laneId (fun st => with_order st (order tgt)) o)) k
            = order_of o (exchange laneId target k)).
  { intros k. unfold order_of, exchange.
    destruct (str_eqb k laneId) eqn:E1.
    - apply str_eqb_eq in E1. subst k. rewrite Hget_lane, Htgt. reflexivity.
    - destruct (str_eqb k target) eqn:E2.
      + apply str_eqb_eq in E2. subst k. rewrite Hget_target, Hcurrent.
        reflexivity.
      + apply str_eqb_neq in E1. apply str_eqb_neq in E2.
        rewrite Hget_other by assumption. reflexivity. }
  split; [exact Horder|].
  intros k v Hv. unfold order_of.
  destruct (str_eqb k laneId) eqn:E1.
  - apply str_eqb_eq in E1. subst k. rewrite Hget_lane.
    assert (v = current) by congruence. subst v. reflexivity.
  - destruct (str_eqb k target) eqn:E2.
    + apply str_eqb_eq in E2. subst k. rewrite Hget_target.
      assert (v = tgt) by congruence. subst v. reflexivity.
    + apply str_eqb_neq in E1. apply str_eqb_neq in E2.
      rewrite Hget_other by assumption. rewrite Hv, with_order_same.
      reflexivity.
Qed.

(** *** The registry stays a well-formed object *)

Lemma DEFAULT_FUNNEL_STAGES_wf : wf_obj DEFAULT_FUNNEL_STAGES.
Proof.
  unfold wf_obj. simpl.
  repeat (constructor; [simpl; intros H;
    repeat (destruct H as [H | H]; [discriminate|]); exact H|]).
  constructor.
Qed.

Lemma create_wf toLowerCase env (cl : State) :
  wf_obj (funnelStages cl) ->
  wf_obj (funnelStages (final (fire env (handleCreateNewLane toLowerCase) cl))).
Proof.
  intros Hwf. unfold fire, handleCreateNewLane.
  destruct (truthy_str (trim (newLaneName cl))); simpl; [|exact Hwf].
  apply obj_set_wf. exact Hwf.
Qed.

Lemma delete_wf env (cl : State) (laneId : str) :
  wf_obj (funnelStages cl) ->
  wf_obj (funnelStages (final (fire env (fun cl => handleDeleteLane cl laneId) cl))).
Proof.
  intros Hwf. unfold fire, handleDeleteLane.
  destruct (is_editable (funnelStages cl) laneId); simpl; [|exact Hwf].
  apply obj_delete_wf. exact Hwf.
Qed.

Lemma type_and_create_wf title' st :
  wf_obj (funnelStages st) -> wf_obj (funnelStages (type_and_create title' st)).
Proof.
  intros H. unfold type_and_create.
  apply create_wf. exact H.
Qed.

Lemma click_delete_wf laneId st :
  wf_obj (funnelStages st) -> wf_obj (funnelStages (click_delete laneId st)).
Proof. apply delete_wf. Qed.

Lemma dense_orders_perm (o o' : obj FunnelStage) :
  Object_keys o' = Object_keys o ->
  Permutation (orders o') (orders o) ->
  dense_orders o -> dense_orders o'.
Proof.
  unfold dense_orders. intros Hkeys Hperm Hd.
  rewrite Hperm, Hd.
  apply (f_equal (@List.length str)) in Hkeys. unfold Object_keys in Hkeys.
  rewrite !length_map in Hkeys. rewrite Hkeys. reflexivity.
Qed.

(** C1 does not hold as stated: on a board whose orders have a gap, a
    press on a lane arrow exchanges two orders and the gap stays. *)
Lemma moveLane_keeps_gap :
  wf_obj (funnelStages gapped_board) /\
  let r := fire store_down (fun cl => CRM.moveLane cl (lit "pending") Right)
             gapped_board in
  order_of (funnelStages (final r)) (lit "pending") = Int 1 /\
  order_of (funnelStages (final r)) (lit "contacted") = Int 0 /\
  ~ dense_orders (funnelStages (final r)).
Proof.
  split.
  - apply click_delete_wf, type_and_create_wf, type_and_create_wf.
    exact DEFAULT_FUNNEL_STAGES_wf.
  - cbv zeta. split; [vm_compute; reflexivity|].
    split; [vm_compute; reflexivity|].
    intros Hd. unfold dense_orders in Hd.
    assert (Hin : In (Int 8) (dense 8)).
    { apply (Permutation_in (Int 8) Hd). vm_compute. tauto. }
    vm_compute in Hin.
    repeat (destruct Hin as [Hin | Hin]; [discriminate|]). exact Hin.
Qed.

(** C1, amended.  On a well-formed registry, a lane drag whose source
    index is in range keeps the identifiers (and their enumeration) and
    leaves orders that are exactly [0 .. n-1]; a press on a lane arrow
    keeps the identifiers and keeps the orders as a multiset, so the
    orders are [0 .. n-1] afterwards whenever they were before. *)
Theorem reorder_keeps_ids_and_orders (env : Remote -> Response) (cl : State) :
  wf_obj (funnelStages cl) ->
  (forall result dest r,
     destination result = Some dest ->
     type result = lit "LANE" ->
     index (source result) < length (funnelStages cl) ->
     r = fire env (fun cl => CRM.handleDragEnd cl result) cl \/
     r = fire env (fun cl => CRMLanes.handleDragEnd cl result) cl ->
     threw r = false /\ calls r = [] /\
     Object_keys (funnelStages (final r)) = Object_keys (funnelStages cl) /\
     dense_orders (funnelStages (final r))) /\
  (forall laneId direction,
     let r := fire env (fun cl => CRM.moveLane cl laneId direction) cl in
     threw r = false /\ calls r = [] /\
     Object_keys (funnelStages (final r)) = Object_keys (funnelStages cl) /\
     Permutation (orders (funnelStages (final r))) (orders (funnelStages cl)) /\
     (dense_orders (funnelStages cl) -> dense_orders (funnelStages (final r)))).
Proof.
  intros Hwf. split.
  - intros result dest r Hdest Htype Hlt Hr.
    destruct (reorderLanes_spec cl (source result) dest Hwf Hlt)
      as (o' & Hprog & Hkeys & Hdense & _).
    assert (H : r = run env (reorderLanes cl (source result) dest) cl).
    { apply str_eqb_eq in Htype.
      destruct Hr as [-> | ->]; unfold fire, CRM.handleDragEnd,
        CRMLanes.handleDragEnd; rewrite Hdest, Htype; reflexivity. }
    rewrite H, Hprog. simpl. auto.
  - intros laneId direction. cbv zeta. unfold fire.
    destruct (moveLane_spec cl laneId direction Hwf)
      as [-> | (o' & target & -> & Hdiff & Hin1 & Hin2 & Hkeys & Horder & _)];
      simpl.
    + repeat split; auto.
    + assert (Hperm : Permutation (orders o') (orders (funnelStages cl))).
      { rewrite (orders_order_of o') by (unfold wf_obj; rewrite Hkeys; exact Hwf).
        rewrite (orders_order_of (funnelStages cl) Hwf), Hkeys.
        rewrite (map_ext _ _ Horder), <- map_map.
        apply Permutation_map. apply exchange_perm; assumption. }
      split; [reflexivity|]. split; [reflexivity|]. split; [exact Hkeys|].
      split; [exact Hperm|].
      apply dense_orders_perm; assumption.
Qed.

Lemma reorder_keeps_ids_and_orders_witness :
  wf_obj (funnelStages initial_state) /\
  dense_orders (funnelStages (final (fire store_down
    (fun cl => CRMLanes.handleDragEnd cl (drop "LANE" "lane-pending" "lanes" 0 "lanes" 3))
    initial_state))) /\
  dense_orders (funnelStages (final (fire store_down
    (fun cl => CRM.moveLane cl (lit "pending") Right) initial_state))).
Proof.
  destruct (reorder_keeps_ids_and_orders store_down initial_state
              DEFAULT_FUNNEL_STAGES_wf) as [Hdrag Hmove].
  split; [exact DEFAULT_FUNNEL_STAGES_wf|]. split.
  - refine (proj2 (proj2 (proj2
      (Hdrag (drop "LANE" "lane-pending" "lanes" 0 "lanes" 3)
         {| droppableId := lit "lanes"; index := 3 |}
         _ eq_refl eq_refl _ (or_intror eq_refl))))).
    simpl. lia.
  - destruct (Hmove (lit "pending") Right) as (_ & _ & _ & _ & Hd).
    apply Hd. unfold dense_orders. vm_compute. reflexivity.
Defined.

(* ===================================================================== *)
(** * Further properties of the board *)
(* ===================================================================== *)

(** ** Programs *)

Lemma run_all_updates (I : State -> Prop) (env : Remote -> Response) (p : Prog) :
  forall st,
  all_updates (fun f => forall s, I s -> I (f s)) p ->
  I st -> I (final (run env p st)).
Proof.
  induction p as [| |f k IH|c k IH]; intros st Hall Hst; simpl in *.
  - exact Hst.
  - exact Hst.
  - destruct Hall as [Hf Hk]. apply IH; auto.
  - apply IH; auto.
Qed.

Lemma run_all_calls (Q : Remote -> Prop) (env : Remote -> Response) (p : Prog) :
  forall st, all_calls Q p -> Forall Q (calls (run env p st)).
Proof.
  induction p as [| |f k IH|c k IH]; intros st Hall; simpl in *.
  - constructor.
  - constructor.
  - apply IH. exact Hall.
  - destruct Hall as [Hc Hk]. constructor; [exact Hc | apply IH; apply Hk].
Qed.

Lemma run_alike (env env' : Remote -> Response) (p : Prog) :
  forall q a b,
  alike p q -> same_local a b ->
  same_local (final (run env p a)) (final (run env' q b)) /\
  threw (run env p a) = threw (run env' q b).
Proof.
  induction p as [| |f k IH|c k IH]; intros [| |g k'|c' k'] a b Hal Hab;
    simpl in Hal; try contradiction; simpl.
  - auto.
  - auto.
  - destruct Hal as [Hf Hk]. apply IH; auto.
  - apply IH; auto.
Qed.

(** ** The store and the registry do not meet *)

Ltac local_step :=
  match goal with
  | |- True => exact I
  | |- forall a b, same_local a b -> same_local _ _ =>
      let a := fresh "a" in let b := fresh "b" in
      intros a b; unfold same_local; simpl;
      intros (? & ? & ? & ? & ? & ? & ? & ?);
      repeat split; congruence
  | |- forall r r' : Response, _ => intros [?|] [?|]
  | |- _ /\ _ => split
  | |- alike (match ?x with _ => _ end) _ => destruct x eqn:?
  | |- alike _ _ => progress simpl
  end.

Lemma reorderLanes_alike cl src dst :
  alike (reorderLanes cl src dst) (reorderLanes cl src dst).
Proof.
  unfold reorderLanes.
  destruct (splice_remove1 _ _) as [removed rest].
  repeat local_step.
Qed.

Section Local.
Variable toLowerCase : str -> str.

(** A handler reads nothing but the registry and the dialogs from its
    closure. *)
Lemma handle_local (e : Event) (a b : State) :
  same_local a b -> handle toLowerCase e a = handle toLowerCase e b.
Proof.
  destruct a, b. unfold same_local. simpl.
  intros (? & ? & ? & ? & ? & ? & ? & ?). subst.
  destruct e; reflexivity.
Qed.

Lemma handle_alike (e : Event) (cl : State) :
  alike (handle toLowerCase e cl) (handle toLowerCase e cl).
Proof.
  destruct e; simpl.
  - unfold loadLeads, getTrialRegistrations. repeat local_step.
  - unfold CRM.handleDragEnd.
    destruct (destination result) as [dest|]; [|exact I].
    destruct (str_eqb (type result) (lit "LANE")); [apply reorderLanes_alike|].
    destruct (_ && _); [exact I|].
    unfold updateTrialRegistrationStatus. repeat local_step.
  - unfold handleLeadClick. repeat local_step.
  - repeat local_step.
  - unfold CRM.moveLane. repeat local_step.
  - unfold handleDeleteLane. repeat local_step.
  - unfold CRM.moveLeadToStatus, updateTrialRegistrationStatus.
    repeat local_step.
  - repeat local_step.
  - unfold CRM.moveLeadToStatus, updateTrialRegistrationStatus. simpl.
    repeat local_step.
  - repeat local_step.
  - repeat local_step.
  - repeat local_step.
  - repeat local_step.
  - repeat local_step.
  - unfold handleCreateNewLane. repeat local_step.
Qed.

(** X1: the stage registry and the dialogs after any sequence of gestures
    are the same whatever the store answers, and whatever the lead cache,
    the loading flag and the error banner were at the start. *)
Theorem registry_ignores_store (env env' : Remote -> Response)
    (es : list Event) :
  forall a b, same_local a b ->
  same_local (play toLowerCase env es a) (play toLowerCase env' es b).
Proof.
  induction es as [|e es IH]; intros a b Hab; simpl; [exact Hab|].
  apply IH. unfold fire.
  rewrite <- (handle_local e a b Hab).
  apply run_alike; [apply handle_alike | exact Hab].
Qed.
End Local.

(** ** Loading and the error banner *)

(** X2: when the store refuses the select, [loadLeads] keeps the cache it
    had, shows "Erro ao carregar leads" and ends with the loading flag
    down; nothing else changes and the select is the only call. *)
Theorem loadLeads_failure (env : Remote -> Response) (st : State) :
  env SelectTrialRegistrations = Rejected ->
  let r := run env loadLeads st in
  calls r = [SelectTrialRegistrations] /\
  threw r = false /\
  leads (final r) = leads st /\
  error (final r) = load_error_banner /\
  isLoading (final r) = false /\
  same_local (final r) st.
Proof.
  intros Henv. simpl. rewrite Henv. simpl.
  repeat split.
Qed.


Section Banner.
Variable toLowerCase : str -> str.

Ltac banner_step :=
  match goal with
  | |- True => exact I
  | |- forall s, error s <> [] -> _ =>
      intros ? ?; simpl;
      first [assumption | let H := fresh in intro H; vm_compute in H; discriminate]
  | |- forall r : Response, _ => intros [?|]
  | |- _ /\ _ => split
  | |- all_updates _ (match ?x with _ => _ end) => destruct x eqn:?
  | |- all_updates _ _ => progress simpl
  end.

Lemma handle_keeps_banner (e : Event) (cl : State) :
  all_updates (fun f => forall s, error s <> [] -> error (f s) <> [])
    (handle toLowerCase e cl).
Proof.
  destruct e; simpl.
  - unfold loadLeads, getTrialRegistrations. repeat banner_step.
  - unfold CRM.handleDragEnd.
    destruct (destination result) as [dest|]; [|exact I].
    destruct (str_eqb (type result) (lit "LANE")).
    + unfold reorderLanes.
      destruct (splice_remove1 _ _) as [removed rest]. repeat banner_step.
    + destruct (_ && _); [exact I|].
      unfold updateTrialRegistrationStatus. repeat banner_step.
  - unfold handleLeadClick. repeat banner_step.
  - repeat banner_step.
  - unfold CRM.moveLane. repeat banner_step.
  - unfold handleDeleteLane. repeat banner_step.
  - unfold CRM.moveLeadToStatus, updateTrialRegistrationStatus.
    repeat banner_step.
  - repeat banner_step.
  - unfold CRM.moveLeadToStatus, updateTrialRegistrationStatus. simpl.
    repeat banner_step.
  - repeat banner_step.
  - repeat banner_step.
  - repeat banner_step.
  - repeat banner_step.
  - repeat banner_step.
  - unfold handleCreateNewLane. repeat banner_step.
Qed.

(** X3: no handler clears the error: once a banner is shown it stays
    through every later gesture, a successful refresh included. *)
Theorem banner_is_never_cleared (env : Remote -> Response) (es : list Event) :
  forall st, error st <> [] -> error (play toLowerCase env es st) <> [].
Proof.
  induction es as [|e es IH]; intros st Hst; simpl; [exact Hst|].
  apply IH. unfold fire.
  apply (run_all_updates (fun s => error s <> [])); [|exact Hst].
  apply handle_keeps_banner.
Qed.
End Banner.

(** ** Columns *)

Lemma list_sum_map_add {A} (f g : A -> nat) (l : list A) :
  list_sum (map (fun x => f x + g x) l)
  = list_sum (map f l) + list_sum (map g l).
Proof. induction l as [|x t IH]; simpl; [reflexivity | rewrite IH; lia]. Qed.

Lemma indicator_sum (s : str) (ks : list str) :
  NoDup ks ->
  list_sum (map (fun k => if str_eqb s k then 1 else 0) ks)
  = if existsb (str_eqb s) ks then 1 else 0.
Proof.
  induction 1 as [|k ks Hk Hnd IH]; simpl; [reflexivity|].
  destruct (str_eqb s k) eqn:E; simpl; [|exact IH].
  apply str_eqb_eq in E. subst k. rewrite IH.
  destruct (existsb (str_eqb s) ks) eqn:Ex; [|reflexivity].
  apply existsb_exists in Ex. destruct Ex as (k & Hin & Hk').
  apply str_eqb_eq in Hk'. subst k. contradiction.
Qed.

Lemma count_sum (l : list Lead) (ks : list str) :
  NoDup ks ->
  list_sum (map (fun k => length (filter (fun lead => str_eqb (status lead) k) l)) ks)
  = length (filter (fun lead => existsb (str_eqb (status lead)) ks) l).
Proof.
  intros Hnd. induction l as [|lead l IH]; simpl.
  - clear Hnd. induction ks as [|k ks IHk]; simpl; [reflexivity | exact IHk].
  - rewrite (map_ext _ (fun k => (if str_eqb (status lead) k then 1 else 0)
       + length (filter (fun lead => str_eqb (status lead) k) l)))
      by (intros k; destruct (str_eqb (status lead) k); reflexivity).
    rewrite list_sum_map_add, IH, (indicator_sum _ _ Hnd).
    destruct (existsb (str_eqb (status lead)) ks); reflexivity.
Qed.

(** X4: the counters of the stages add up to the number of leads whose
    status is a stage of the registry; a lead with any other status is in
    no column and in no counter. *)
Theorem counters_add_up (cl : State) :
  wf_obj (funnelStages cl) ->
  list_sum (map (leadCount cl) (Object_keys (funnelStages cl)))
  = length (filter (fun lead => existsb (str_eqb (status lead))
                                  (Object_keys (funnelStages cl)))
              (leads cl)) /\
  (forall lead k, In lead (leads cl) ->
     In lead (getLeadsByStatus cl k) <-> status lead = k) /\
  ((forall lead, In lead (leads cl) ->
      In (status lead) (Object_keys (funnelStages cl))) ->
   list_sum (map (leadCount cl) (Object_keys (funnelStages cl)))
   = length (leads cl)).
Proof.
  intros Hwf.
  assert (Hsum := count_sum (leads cl) (Object_keys (funnelStages cl)) Hwf).
  split; [exact Hsum|]. split.
  - intros lead k Hin. unfold getLeadsByStatus. rewrite filter_In, str_eqb_eq.
    tauto.
  - intros Hall. unfold leadCount, getLeadsByStatus. rewrite Hsum.
    f_equal. apply forallb_filter_id. apply forallb_forall.
    intros lead Hin. apply existsb_exists. exists (status lead).
    split; [apply Hall; exact Hin | apply str_eqb_refl].
Qed.


Lemma patch_status_id L S lead : id_is (patch_status L S lead) L = id_is lead L.
Proof. unfold patch_status. destruct (id_is lead L) eqn:E; [|exact E]. exact E. Qed.




(** X6: a status change for an identifier that no cached lead carries is
    still sent to the store, and when the store accepts it the cache is
    left as it was. *)
Theorem status_change_unknown_lead (env : Remote -> Response) (st : State)
    (L S : str) (data : list TrialRegistration) :
  env (UpdateTrialRegistrationStatus L S) = Resolved data ->
  (forall lead, In lead (leads st) -> id lead <> Some L) ->
  let r := run env (CRM.moveLeadToStatus L S) st in
  calls r = [UpdateTrialRegistrationStatus L S] /\ final r = st.
Proof.
  intros Henv Hnone. cbv zeta. rewrite run_update, Henv. simpl.
  split; [reflexivity|].
  assert (Hmap : map (patch_status L S) (leads st) = leads st).
  { rewrite <- (map_id (leads st)) at 2. apply map_ext_in.
    intros lead Hin. apply patch_status_spec. apply Hnone. exact Hin. }
  unfold setLeads. rewrite Hmap. destruct st; reflexivity.
Qed.

(** ** Deleting a lane, seen from the columns *)

(** The reassignment made by [handleDeleteLane]. *)
Lemma delete_run (env : Remote -> Response) (cl : State) (laneId : str) :
  editable_stage (funnelStages cl) laneId ->
  fire env (fun cl => handleDeleteLane cl laneId) cl =
  {| final :=
       setFunnelStages (obj_delete laneId)
         (setLeads (map (fun lead =>
                           if str_eqb (status lead) laneId
                           then with_status lead (lit "pending") else lead)) cl);
     calls := []; threw := false |}.
Proof.
  intros H. apply is_editable_spec in H.
  unfold fire, handleDeleteLane. rewrite H. reflexivity.
Qed.

Lemma filter_target_after_reassign (P laneId : str) (l : list Lead) :
  laneId <> P ->
  filter (fun lead => str_eqb (status lead) P)
    (map (fun lead => if str_eqb (status lead) laneId
                      then with_status lead P else lead) l)
  = map (fun lead => if str_eqb (status lead) laneId
                     then with_status lead P else lead)
      (filter (fun lead => str_eqb (status lead) P
                           || str_eqb (status lead) laneId) l) /\
  length (filter (fun lead => str_eqb (status lead) P
                              || str_eqb (status lead) laneId) l)
  = length (filter (fun lead => str_eqb (status lead) P) l)
    + length (filter (fun lead => str_eqb (status lead) laneId) l).
Proof.
  intros Hne. induction l as [|lead l [IH1 IH2]]; simpl; [auto|].
  destruct (str_eqb (status lead) laneId) eqn:E; simpl.
  - assert (Hp : str_eqb (status lead) P = false).
    { apply str_eqb_neq. apply str_eqb_eq in E. congruence. }
    rewrite Hp, str_eqb_refl. simpl. rewrite E, IH1, IH2.
    split; [reflexivity | lia].
  - destruct (str_eqb (status lead) P) eqn:E'; simpl;
      rewrite ?E, IH1, IH2; split; reflexivity || lia.
Qed.

Lemma filter_source_after_reassign (P laneId : str) (l : list Lead) :
  laneId <> P ->
  filter (fun lead => str_eqb (status lead) laneId)
    (map (fun lead => if str_eqb (status lead) laneId
                      then with_status lead P else lead) l) = [].
Proof.
  intros Hne. induction l as [|lead l IH]; simpl; [reflexivity|].
  destruct (str_eqb (status lead) laneId) eqn:E; simpl.
  - assert (Hk : str_eqb P laneId = false) by (apply str_eqb_neq; congruence).
    rewrite Hk. exact IH.
  - rewrite E. exact IH.
Qed.

Lemma filter_other_after_reassign (P laneId k : str) (l : list Lead) :
  k <> P -> k <> laneId ->
  filter (fun lead => str_eqb (status lead) k)
    (map (fun lead => if str_eqb (status lead) laneId
                      then with_status lead P else lead) l)
  = filter (fun lead => str_eqb (status lead) k) l.
Proof.
  intros H1 H2. induction l as [|lead l IH]; simpl; [reflexivity|].
  destruct (str_eqb (status lead) laneId) eqn:E; simpl.
  - apply str_eqb_eq in E.
    assert (Hp : str_eqb P k = false) by (apply str_eqb_neq; congruence).
    assert (Hk : str_eqb (status lead) k = false)
      by (apply str_eqb_neq; congruence).
    rewrite Hp, Hk. exact IH.
  - destruct (str_eqb (status lead) k); [f_equal|]; exact IH.
Qed.

Lemma reassigned_column (P laneId : str) (l : list Lead) :
  laneId <> P ->
  Forall2 (fun lead lead' =>
             same_but_status lead lead' /\ status lead' = P /\
             (status lead = P -> lead' = lead))
    (filter (fun lead => str_eqb (status lead) P
                         || str_eqb (status lead) laneId) l)
    (map (fun lead => if str_eqb (status lead) laneId
                      then with_status lead P else lead)
       (filter (fun lead => str_eqb (status lead) P
                            || str_eqb (status lead) laneId) l)).
Proof.
  intros Hne. induction l as [|lead l IH]; simpl; [constructor|].
  destruct (str_eqb (status lead) P || str_eqb (status lead) laneId) eqn:E;
    [|exact IH].
  simpl. constructor; [|exact IH].
  destruct (str_eqb (status lead) laneId) eqn:El.
  - apply str_eqb_eq in El.
    destruct (with_status_spec lead P) as [H1 H2].
    split; [exact H2|]. split; [exact H1|]. congruence.
  - rewrite orb_false_r in E. apply str_eqb_eq in E.
    split; [unfold same_but_status; repeat split|].
    split; [exact E | reflexivity].
Qed.

(** X7: deleting an editable lane other than "pending" loses no lead.  The
    "pending" column then lists, in cache order, the leads it had together
    with those of the deleted lane: each listed lead is the cached lead it
    comes from with status "pending" and every other field as it was, and
    the leads that were "pending" already are listed as they were.  So its
    counter is the sum of the two former counters; the column of the
    deleted lane is empty and every other column is as before. *)
Theorem delete_moves_column_to_pending (env : Remote -> Response)
    (cl : State) (laneId : str) :
  editable_stage (funnelStages cl) laneId ->
  laneId <> lit "pending" ->
  let r := fire env (fun cl => handleDeleteLane cl laneId) cl in
  leadCount (final r) (lit "pending")
  = leadCount cl (lit "pending") + leadCount cl laneId /\
  Forall2 (fun lead lead' =>
             same_but_status lead lead' /\ status lead' = lit "pending" /\
             (status lead = lit "pending" -> lead' = lead))
    (filter (fun lead => str_eqb (status lead) (lit "pending")
                         || str_eqb (status lead) laneId) (leads cl))
    (getLeadsByStatus (final r) (lit "pending")) /\
  getLeadsByStatus (final r) laneId = [] /\
  (forall k, k <> lit "pending" -> k <> laneId ->
     getLeadsByStatus (final r) k = getLeadsByStatus cl k) /\
  length (leads (final r)) = length (leads cl).
Proof.
  intros Hed Hne. cbv zeta. rewrite (delete_run env cl laneId Hed).
  unfold leadCount, getLeadsByStatus. cbn [final leads setFunnelStages setLeads].
  destruct (filter_target_after_reassign (lit "pending") laneId (leads cl) Hne)
    as [Hp Hlen].
  rewrite Hp. split; [rewrite length_map; exact Hlen|]. split.
  { apply reassigned_column. exact Hne. }
  split; [apply filter_source_after_reassign; exact Hne|].
  split; [intros k H1 H2; apply filter_other_after_reassign; assumption|].
  apply length_map.
Qed.


(** ** Creating a lane *)

Section CreationMore.
Variable toLowerCase : str -> str.
Variable env : Remote -> Response.

(** X9: the create handler and the create button agree.  With a blank
    title (empty, or any mix of the whitespace of the language) the button
    is disabled and the handler changes nothing, the dialog staying open
    with what was typed; otherwise the button is enabled and the handler
    empties the title field, puts the colour back to "bg-indigo-500" and
    closes the dialog, touching neither the leads nor the banner and
    calling nothing. *)
Theorem create_dialog (cl : State) :
  let r := fire env (handleCreateNewLane toLowerCase) cl in
  calls r = [] /\ threw r = false /\
  (createButtonDisabled cl = true <-> ~ non_blank (newLaneName cl)) /\
  (~ non_blank (newLaneName cl) -> final r = cl) /\
  (non_blank (newLaneName cl) ->
     newLaneName (final r) = [] /\
     newLaneColor (final r) = lit "bg-indigo-500" /\
     showNewLaneModal (final r) = false /\
     leads (final r) = leads cl /\ error (final r) = error cl /\
     isLoading (final r) = isLoading cl /\
     selectedLead (final r) = selectedLead cl /\
     showLeadDetails (final r) = showLeadDetails cl /\
     openDropdown (final r) = openDropdown cl /\
     isDraggingLane (final r) = isDraggingLane cl).
Proof.
  cbv zeta.
  assert (Hdec : non_blank (newLaneName cl) \/ ~ non_blank (newLaneName cl)).
  { destruct (truthy_str (trim (newLaneName cl))) eqn:E.
    - left. apply trim_non_blank. exact E.
    - right. intros H. apply trim_non_blank in H. congruence. }
  assert (Hbtn : createButtonDisabled cl = true <-> ~ non_blank (newLaneName cl)).
  { unfold createButtonDisabled. rewrite negb_true_iff, <- trim_non_blank.
    destruct (truthy_str (trim (newLaneName cl))); split; congruence. }
  destruct Hdec as [H | H].
  - rewrite (create_run toLowerCase env cl H). simpl.
    split; [reflexivity|]. split; [reflexivity|]. split; [exact Hbtn|].
    split; [tauto|]. intros _. repeat split.
  - rewrite (create_blank toLowerCase env cl H). simpl.
    split; [reflexivity|]. split; [reflexivity|]. split; [exact Hbtn|].
    split; [reflexivity | tauto].
Qed.
End CreationMore.

Lemma filter_absent_key {V} (k : str) (o : obj V) :
  obj_get k o = None ->
  filter (fun e => negb (str_eqb (fst e) k)) o = o.
Proof.
  induction o as [|[k' v'] t IH]; simpl; [reflexivity|].
  destruct (str_eqb k' k); [discriminate|]. intros H. simpl.
  rewrite (IH H). reflexivity.
Qed.

(** A write to a new key puts one entry somewhere among the old ones. *)
Lemma obj_set_fresh_split {V} (k : str) (v : V) (o : obj V) :
  obj_get k o = None ->
  exists l1 l2, o = l1 ++ l2 /\ obj_set k v o = l1 ++ (k, v) :: l2.
Proof.
  intros Hnone. unfold obj_set. rewrite Hnone.
  destruct (array_index k) as [n|].
  - clear Hnone. induction o as [|[k' v'] t (l1 & l2 & -> & IH)]; simpl.
    + exists [], []. split; reflexivity.
    + destruct (array_index k') as [m|].
      * destruct (m <? n)%N.
        -- exists ((k', v') :: l1), l2. rewrite IH. split; reflexivity.
        -- exists [], ((k', v') :: l1 ++ l2). split; reflexivity.
      * exists [], ((k', v') :: l1 ++ l2). split; reflexivity.
  - exists o, []. rewrite app_nil_r. split; reflexivity.
Qed.

(** A write to an existing key replaces one entry where it is. *)
Lemma obj_set_present_split {V} (k : str) (v w : V) (o : obj V) :
  wf_obj o -> obj_get k o = Some w ->
  exists l1 l2, o = l1 ++ (k, w) :: l2 /\
                obj_set k v o = l1 ++ (k, v) :: l2 /\
                filter (fun e => negb (str_eqb (fst e) k)) o = l1 ++ l2.
Proof.
  intros Hwf Hsome. unfold obj_set. rewrite Hsome.
  unfold wf_obj, Object_keys in Hwf.
  induction o as [|[k' v'] t IH]; simpl in *; [discriminate|].
  inversion Hwf as [|? ? Hnot Hwf']; subst.
  destruct (str_eqb k' k) eqn:E.
  - apply str_eqb_eq in E. subst k'. injection Hsome as ->.
    exists [], t. simpl. split; [reflexivity|]. split; [reflexivity|].
    apply filter_absent_key. apply obj_get_None. exact Hnot.
  - destruct (IH Hwf' Hsome) as (l1 & l2 & -> & Hset & Hfil).
    exists ((k', v') :: l1), l2. simpl. rewrite Hset, Hfil.
    split; [reflexivity|]. split; reflexivity.
Qed.

Lemma obj_delete_set_fresh {V} (k : str) (v : V) (o : obj V) :
  obj_get k o = None -> obj_delete k (obj_set k v o) = o.
Proof.
  intros Hnone.
  destruct (obj_set_fresh_split k v o Hnone) as (l1 & l2 & -> & ->).
  pose proof (filter_absent_key k _ Hnone) as Hfil.
  unfold obj_delete. rewrite filter_app in *. simpl.
  rewrite str_eqb_refl. simpl. exact Hfil.
Qed.

Section CreationRoundTrip.
Variable toLowerCase : str -> str.
Variable env : Remote -> Response.

(** X10: a lane created under a new identifier adds one stage and leaves
    the others where they are; deleting it right away gives back the
    registry as it was, and the lead cache too unless some lead carried
    that identifier as its status. *)
Theorem create_then_delete (cl : State) :
  non_blank (newLaneName cl) ->
  obj_get (laneId_of toLowerCase cl) (funnelStages cl) = None ->
  let created := final (fire env (handleCreateNewLane toLowerCase) cl) in
  let deleted := final (fire env (fun cl' => handleDeleteLane cl'
                                    (laneId_of toLowerCase cl)) created) in
  length (funnelStages created) = S (length (funnelStages cl)) /\
  (array_index (laneId_of toLowerCase cl) = None ->
     funnelStages created
     = funnelStages cl ++ [(laneId_of toLowerCase cl, new_stage cl)]) /\
  funnelStages deleted = funnelStages cl /\
  ((forall lead, In lead (leads cl) ->
      status lead <> laneId_of toLowerCase cl) ->
   leads deleted = leads cl).
Proof.
  intros Hnb Hfresh created deleted.
  assert (Hcreated : funnelStages created
            = obj_set (laneId_of toLowerCase cl) (new_stage cl) (funnelStages cl)).
  { unfold created. rewrite (create_run toLowerCase env cl Hnb). reflexivity. }
  assert (Hleads : leads created = leads cl).
  { unfold created. rewrite (create_run toLowerCase env cl Hnb). reflexivity. }
  assert (Hed : editable_stage (funnelStages created) (laneId_of toLowerCase cl)).
  { exists (new_stage cl). rewrite Hcreated, obj_get_set_eq. auto. }
  split.
  { rewrite Hcreated.
    destruct (obj_set_fresh_split (laneId_of toLowerCase cl) (new_stage cl)
                (funnelStages cl) Hfresh) as (l1 & l2 & -> & ->).
    rewrite !length_app. simpl. lia. }
  split.
  { intros Hidx. rewrite Hcreated. unfold obj_set. rewrite Hfresh, Hidx.
    reflexivity. }
  unfold deleted. rewrite (delete_run env created _ Hed). simpl.
  split.
  { rewrite Hcreated. apply obj_delete_set_fresh. exact Hfresh. }
  intros Hnone. rewrite Hleads.
  rewrite <- (map_id (leads cl)) at 2. apply map_ext_in.
  intros lead Hin. specialize (Hnone lead Hin).
  apply str_eqb_neq in Hnone. rewrite Hnone. reflexivity.
Qed.
End CreationRoundTrip.

(** ** The displayed order of the lanes *)

Section SortFacts.

Local Abbreviation cmp_order :=
  (fun a b : str * FunnelStage => num_compare (order (snd a)) (order (snd b))).

Local Abbreviation entry := (str * FunnelStage)%type.

Lemma num_lt_le a b : num_lt a b -> num_le a b.
Proof. unfold num_lt, num_le. congruence. Qed.

Lemma num_lt_not_le a b : num_lt a b -> num_le b a -> False.
Proof.
  unfold num_lt, num_le. destruct a, b; simpl; try congruence.
  rewrite Z.compare_lt_iff, Z.compare_gt_iff. lia.
Qed.

Lemma num_lt_Gt a b : num_lt a b <-> num_compare b a = Gt.
Proof.
  unfold num_lt. destruct a, b; simpl; try (split; congruence).
  rewrite Z.compare_lt_iff, Z.compare_gt_iff. lia.
Qed.

Lemma num_le_lt_trans a b c : num_le a b -> num_lt b c -> num_lt a c.
Proof.
  unfold num_le, num_lt. destruct a, b, c; simpl; try congruence.
  rewrite Z.compare_gt_iff, !Z.compare_lt_iff. lia.
Qed.

Lemma by_order_trans : Relations_1.Transitive by_order.
Proof. intros a b c. unfold by_order. apply num_le_trans. Qed.

(** An element greater than all the others is inserted last. *)
Lemma sort_insert_greatest (x : entry) (l : list entry) :
  (forall y, In y l -> num_lt (order (snd y)) (order (snd x))) ->
  sort_insert cmp_order x l = l ++ [x].
Proof.
  induction l as [|y t IH]; intros H; simpl; [reflexivity|].
  assert (Hy : num_compare (order (snd x)) (order (snd y)) = Gt)
    by (apply num_lt_Gt; apply H; left; reflexivity).
  rewrite Hy. f_equal. apply IH. intros z Hz. apply H. right. exact Hz.
Qed.

(** An element that is not greater than the last one is not inserted
    after it. *)
Lemma sort_insert_before_last (y x : entry) (l : list entry) :
  num_le (order (snd y)) (order (snd x)) ->
  sort_insert cmp_order y (l ++ [x]) = sort_insert cmp_order y l ++ [x].
Proof.
  intros Hle. induction l as [|z t IH]; simpl.
  - destruct (num_compare (order (snd y)) (order (snd x))) eqn:E;
      try reflexivity. contradiction.
  - destruct (num_compare (order (snd y)) (order (snd z)));
      try reflexivity. rewrite IH. reflexivity.
Qed.

(** Sorting a list that holds one element greater than all the others:
    that element comes last, after the others sorted. *)
Lemma Array_sort_greatest (x : entry) (l1 l2 : list entry) :
  (forall y, In y (l1 ++ l2) -> num_lt (order (snd y)) (order (snd x))) ->
  Array_sort cmp_order (l1 ++ x :: l2) = Array_sort cmp_order (l1 ++ l2) ++ [x].
Proof.
  induction l1 as [|y l1 IH]; intros H; simpl.
  - apply sort_insert_greatest. intros y Hy. apply H.
    apply (Permutation_in y (Array_sort_perm cmp_order l2)). exact Hy.
  - rewrite IH by (intros z Hz; apply H; right; exact Hz).
    apply sort_insert_before_last. apply num_lt_le. apply H. left. reflexivity.
Qed.

Lemma sort_insert_head (x : entry) (l : list entry) :
  (forall y, In y l -> num_le (order (snd x)) (order (snd y))) ->
  sort_insert cmp_order x l = x :: l.
Proof.
  destruct l as [|y t]; intros H; simpl; [reflexivity|].
  destruct (num_compare (order (snd x)) (order (snd y))) eqn:E;
    try reflexivity.
  exfalso. apply (H y (or_introl eq_refl)). exact E.
Qed.

(** Stability: the sort of a selection is the selection of the sort. *)
Lemma filter_sort_insert (p : entry -> bool) (x : entry) (l : list entry) :
  StronglySorted by_order l ->
  p x = true ->
  filter p (sort_insert cmp_order x l) = sort_insert cmp_order x (filter p l).
Proof.
  intros Hs Hx. induction Hs as [|y t Hs IH Hall]; simpl.
  - rewrite Hx. reflexivity.
  - destruct (num_compare (order (snd x)) (order (snd y))) eqn:E.
    + simpl. rewrite Hx. destruct (p y) eqn:Hy; simpl.
      * rewrite E. reflexivity.
      * symmetry. apply sort_insert_head. intros z Hz.
        apply filter_In in Hz. destruct Hz as [Hz _].
        rewrite Forall_forall in Hall. specialize (Hall z Hz).
        apply (num_le_trans _ (order (snd y))); [|exact Hall].
        unfold num_le. congruence.
    + simpl. rewrite Hx. destruct (p y) eqn:Hy; simpl.
      * rewrite E. reflexivity.
      * symmetry. apply sort_insert_head. intros z Hz.
        apply filter_In in Hz. destruct Hz as [Hz _].
        rewrite Forall_forall in Hall. specialize (Hall z Hz).
        apply (num_le_trans _ (order (snd y))); [|exact Hall].
        unfold num_le. congruence.
    + simpl. destruct (p y) eqn:Hy; simpl.
      * rewrite E, IH. reflexivity.
      * exact IH.
Qed.

Lemma Array_sort_strongly_sorted (l : list entry) :
  StronglySorted by_order (Array_sort cmp_order l).
Proof.
  apply Sorted_StronglySorted; [exact by_order_trans|].
  induction l as [|x t IH]; simpl; [constructor|].
  apply sort_insert_sorted. exact IH.
Qed.

Lemma Array_sort_filter (p : entry -> bool) (l : list entry) :
  Array_sort cmp_order (filter p l) = filter p (Array_sort cmp_order l).
Proof.
  induction l as [|x t IH]; simpl; [reflexivity|].
  destruct (p x) eqn:Hx; simpl.
  - rewrite IH. symmetry. apply filter_sort_insert; [|exact Hx].
    apply Array_sort_strongly_sorted.
  - rewrite IH. clear IH.
    induction (Array_sort cmp_order t) as [|y s IHs]; simpl.
    + rewrite Hx. reflexivity.
    + destruct (num_compare (order (snd x)) (order (snd y))); simpl;
        rewrite ?Hx; try reflexivity.
      destruct (p y); [f_equal|]; exact IHs.
Qed.

(** A list sorted by order that is a permutation of a list in strictly
    ascending order is that list. *)
Lemma sorted_unique (l es : list entry) :
  StronglySorted (fun a b => num_lt (order (snd a)) (order (snd b))) es ->
  StronglySorted by_order l ->
  Permutation l es ->
  l = es.
Proof.
  intros Hes. revert l. induction Hes as [|x es Hes IH Hall];
    intros l Hl Hperm.
  - apply Permutation_nil. symmetry. exact Hperm.
  - destruct l as [|y l]; [apply Permutation_nil in Hperm; discriminate|].
    inversion Hl as [|? ? Hl' Hall']; subst.
    rewrite Forall_forall in Hall, Hall'.
    assert (Hxy : y = x).
    { assert (Hy : In y (x :: es))
        by (apply (Permutation_in y Hperm); left; reflexivity).
      destruct Hy as [Hy | Hy]; [congruence|].
      assert (Hx : In x (y :: l))
        by (apply (Permutation_in x (Permutation_sym Hperm)); left; reflexivity).
      destruct Hx as [Hx | Hx]; [congruence|].
      exfalso. apply (num_lt_not_le _ _ (Hall y Hy)). apply (Hall' x Hx). }
    subst y. f_equal. apply IH; [exact Hl'|].
    apply (Permutation_cons_inv Hperm).
Qed.

End SortFacts.

Lemma below_new_order (o : obj FunnelStage) (z : Z) (y : str * FunnelStage) :
  maxOrder o = Int z -> In y o ->
  num_lt (order (snd y)) (num_succ (maxOrder o)).
Proof.
  intros Hmax Hin. apply (num_lt_succ _ _ z); [|exact Hmax].
  apply Math_max_ge. apply in_map. apply (in_map snd) in Hin. exact Hin.
Qed.

Section CreatedLast.
Variable toLowerCase : str -> str.
Variable env : Remote -> Response.

(** X11: on a registry that has a stage with an integer order, a created
    lane is displayed last: the sorted stages are the former ones in their
    former order, without the stage of the same identifier if there was
    one, followed by the new lane. *)
Theorem created_lane_is_last (cl : State) (z : Z) :
  wf_obj (funnelStages cl) ->
  non_blank (newLaneName cl) ->
  maxOrder (funnelStages cl) = Int z ->
  let created := final (fire env (handleCreateNewLane toLowerCase) cl) in
  getSortedStages created
  = filter (fun e => negb (str_eqb (fst e) (laneId_of toLowerCase cl)))
      (getSortedStages cl)
    ++ [(laneId_of toLowerCase cl, new_stage cl)].
Proof.
  intros Hwf Hnb Hmax created.
  unfold created. rewrite (create_run toLowerCase env cl Hnb).
  unfold getSortedStages, Object_entries. cbn [final funnelStages
    setShowNewLaneModal setNewLaneColor setNewLaneName setFunnelStages].
  set (k := laneId_of toLowerCase cl). set (o := funnelStages cl) in *.
  rewrite <- Array_sort_filter.
  assert (Hbelow : forall y, In y o ->
            num_lt (order (snd y)) (order (snd (k, new_stage cl)))).
  { intros y Hy. simpl. apply (below_new_order o z y Hmax Hy). }
  destruct (obj_get k o) as [w|] eqn:E.
  - destruct (obj_set_present_split k (new_stage cl) w o Hwf E)
      as (l1 & l2 & Ho & -> & ->).
    apply Array_sort_greatest. intros y Hy. apply Hbelow. rewrite Ho.
    apply in_app_or in Hy. apply in_or_app. simpl. tauto.
  - rewrite (filter_absent_key k o E).
    destruct (obj_set_fresh_split k (new_stage cl) o E) as (l1 & l2 & Ho & ->).
    rewrite Ho. apply Array_sort_greatest. intros y Hy. apply Hbelow.
    rewrite Ho. exact Hy.
Qed.
End CreatedLast.

Section DisplayFacts.

Local Abbreviation entry := (str * FunnelStage)%type.

Lemma findIndex_nth (l : list entry) (i : nat) (a : str) (v : FunnelStage) :
  NoDup (map fst l) ->
  nth_error l i = Some (a, v) ->
  findIndex (fun e => str_eqb (fst e) a) l = Some i.
Proof.
  revert i. induction l as [|[k w] t IH]; intros [|i] Hnd Hi; simpl in *;
    try discriminate.
  - injection Hi as -> ->. rewrite str_eqb_refl. reflexivity.
  - inversion Hnd as [|? ? Hnot Hnd']; subst.
    destruct (str_eqb k a) eqn:E.
    + apply str_eqb_eq in E. subst k. exfalso. apply Hnot.
      apply nth_error_In in Hi. apply (in_map fst) in Hi. exact Hi.
    + rewrite (IH i Hnd' Hi). reflexivity.
Qed.

(** On a well-formed object an update is a map over the entries. *)
Lemma obj_update_map (k : str) (f : FunnelStage -> FunnelStage) (o : obj FunnelStage) :
  wf_obj o ->
  obj_update k f o
  = map (fun e => if str_eqb (fst e) k then (fst e, f (snd e)) else e) o.
Proof.
  unfold wf_obj, Object_keys.
  induction o as [|[k' v'] t IH]; intros Hnd; simpl; [reflexivity|].
  inversion Hnd as [|? ? Hnot Hnd']; subst.
  destruct (str_eqb k' k) eqn:E.
  - apply str_eqb_eq in E. subst k'. f_equal.
    rewrite <- (map_id t) at 1. apply map_ext_in. intros [k2 v2] Hin. simpl.
    destruct (str_eqb k2 k) eqn:E2; [|reflexivity].
    apply str_eqb_eq in E2. subst k2. exfalso. apply Hnot.
    apply (in_map fst) in Hin. exact Hin.
  - rewrite (IH Hnd'). reflexivity.
Qed.

(** Two objects with the same enumeration of keys, the values of the
    second being a function of the key and of the value in the first. *)
Lemma obj_eq_map (g : str -> FunnelStage -> FunnelStage) :
  forall (o o' : obj FunnelStage),
  wf_obj o ->
  Object_keys o' = Object_keys o ->
  (forall k v, obj_get k o = Some v -> obj_get k o' = Some (g k v)) ->
  o' = map (fun e => (fst e, g (fst e) (snd e))) o.
Proof.
  unfold wf_obj, Object_keys.
  induction o as [|[k v] t IH]; intros [|[k' v'] t'] Hnd Hkeys Hget;
    simpl in *; try discriminate; [reflexivity|].
  injection Hkeys as -> Hkeys. inversion Hnd as [|? ? Hnot Hnd']; subst.
  pose proof (Hget k v) as Hk. rewrite !str_eqb_refl in Hk.
  specialize (Hk eq_refl). injection Hk as ->. f_equal.
  apply IH; [exact Hnd' | exact Hkeys|].
  intros k2 v2 H2. specialize (Hget k2 v2).
  assert (Hne : str_eqb k k2 = false).
  { apply str_eqb_neq. intros ->. apply Hnot. eapply obj_get_Some_key. exact H2. }
  rewrite Hne in Hget. apply Hget. exact H2.
Qed.

Lemma StronglySorted_map {A B} (R : B -> B -> Prop) (f : A -> B) (l : list A) :
  StronglySorted (fun a b => R (f a) (f b)) l <-> StronglySorted R (map f l).
Proof.
  induction l as [|x t IH]; simpl; split; intros H; try constructor;
    inversion H as [|? ? Hs Hall]; subst.
  - apply IH. exact Hs.
  - rewrite Forall_map. exact Hall.
  - apply IH. exact Hs.
  - rewrite Forall_map in Hall. exact Hall.
Qed.

Lemma num_compare_Eq a b : num_compare a b = Eq -> a = b.
Proof.
  destruct a, b; simpl; try discriminate; [reflexivity|].
  intros H. apply Z.compare_eq in H. congruence.
Qed.

(** Sorted and without repeated orders: strictly ascending. *)
Lemma sorted_distinct_strict (l : list entry) :
  StronglySorted by_order l ->
  NoDup (map (fun e => order (snd e)) l) ->
  StronglySorted below l.
Proof.
  induction 1 as [|x t Hs IH Hall]; intros Hnd; simpl in *; constructor.
  - apply IH. inversion Hnd; assumption.
  - inversion Hnd as [|? ? Hnot _]; subst.
    rewrite Forall_forall in *. intros y Hy. specialize (Hall y Hy).
    unfold below, num_lt. unfold by_order, num_le in Hall.
    destruct (num_compare (order (snd x)) (order (snd y))) eqn:E;
      [|reflexivity|congruence].
    exfalso. apply Hnot. apply num_compare_Eq in E. rewrite E.
    apply (in_map (fun e => order (snd e))). exact Hy.
Qed.

Lemma seq_strictly_sorted (n i : nat) :
  StronglySorted num_lt (map (fun j => Int (Z.of_nat j)) (seq i n)).
Proof.
  revert i. induction n as [|n IH]; intros i; simpl; constructor; [apply IH|].
  apply Forall_forall. intros y Hy. apply in_map_iff in Hy.
  destruct Hy as (j & <- & Hj). apply in_seq in Hj.
  unfold num_lt. simpl. apply Z.compare_lt_iff. lia.
Qed.

Lemma getSortedStages_strongly_sorted (cl : State) :
  StronglySorted by_order (getSortedStages cl).
Proof. apply Array_sort_strongly_sorted. Qed.

(** The sort is determined by any strictly ascending arrangement of the
    entries. *)
Lemma getSortedStages_unique (cl : State) (es : list entry) :
  Permutation es (funnelStages cl) ->
  StronglySorted below es ->
  getSortedStages cl = es.
Proof.
  intros Hperm Hes. apply sorted_unique.
  - exact Hes.
  - apply getSortedStages_strongly_sorted.
  - rewrite getSortedStages_perm. symmetry. exact Hperm.
Qed.

End DisplayFacts.

Section LaneDrag.

Local Abbreviation entry := (str * FunnelStage)%type.

Lemma numbered_orders (es : list entry) : forall i,
  map (fun e : entry => order (snd e))
    (map (fun je : nat * entry =>
            (fst (snd je), with_order (snd (snd je)) (Int (Z.of_nat (fst je)))))
       (combine (seq i (length es)) es))
  = map (fun j => Int (Z.of_nat j)) (seq i (length es)).
Proof.
  induction es as [|e es IH]; intros i; simpl; [reflexivity|].
  f_equal. apply IH.
Qed.

Lemma numbered_keys (es : list entry) : forall i,
  map fst
    (map (fun je : nat * entry =>
            (fst (snd je), with_order (snd (snd je)) (Int (Z.of_nat (fst je)))))
       (combine (seq i (length es)) es))
  = map fst es.
Proof.
  induction es as [|e es IH]; intros i; simpl; [reflexivity|].
  f_equal. apply IH.
Qed.

Lemma map_numbered (G : entry -> entry) (es : list entry) : forall i,
  (forall j e, nth_error es j = Some e ->
     G e = (fst e, with_order (snd e) (Int (Z.of_nat (i + j))))) ->
  map G es
  = map (fun je : nat * entry =>
           (fst (snd je), with_order (snd (snd je)) (Int (Z.of_nat (fst je)))))
      (combine (seq i (length es)) es).
Proof.
  induction es as [|e es IH]; intros i H; simpl; [reflexivity|]. f_equal.
  - rewrite (H 0 e eq_refl), Nat.add_0_r. reflexivity.
  - apply IH. intros j e' Hj. rewrite (H (S j) e' Hj).
    replace (i + S j) with (S i + j) by lia. reflexivity.
Qed.

Lemma numbered_strict (es : list entry) : StronglySorted below (numbered es).
Proof.
  unfold below.
  apply (StronglySorted_map num_lt (fun e : entry => order (snd e))).
  unfold numbered. rewrite numbered_orders. apply seq_strictly_sorted.
Qed.

(** The lane branch, the dragged entry being [x]. *)
Lemma reorderLanes_run (cl : State) (src dst : DraggableLocation) (x : entry) :
  nth_error (getSortedStages cl) (index src) = Some x ->
  reorderLanes cl src dst
  = match renumber
            (map Some (splice_insert (index dst) x
                         (snd (splice_remove1 (index src) (getSortedStages cl)))))
            0 (funnelStages cl) with
    | None => Throw
    | Some updatedStages =>
        SetState (setFunnelStages (fun _ => updatedStages))
          (SetState (setIsDraggingLane false) Ret)
    end.
Proof.
  intros Hx. unfold reorderLanes, splice_remove1, splice_insert.
  destruct (nth_error_split _ _ Hx) as (l1 & l2 & Hs & Hlen).
  rewrite Hs, <- Hlen. cbn [snd].
  rewrite !skipn_map, !firstn_map.
  destruct (firstn_skipn_middle l1 l2 x) as (-> & -> & ->).
  cbn [map firstn]. rewrite <- map_app, !skipn_map, !firstn_map.
  change (Some x :: map Some (skipn (index dst) (l1 ++ l2)))
    with (map Some (x :: skipn (index dst) (l1 ++ l2))).
  rewrite <- map_app. reflexivity.
Qed.

(** X12: a lane drag with the source index of an existing lane puts the
    lanes in the spliced order: the sorted stages afterwards are the
    former sorted stages with the dragged one taken out and put back at
    the destination index, numbered from 0.  In particular a lane dropped
    where it was keeps the order of the lanes, while the orders are
    renumbered and lose their gaps. *)
Theorem lane_drag_display (env : Remote -> Response) (cl : State)
    (result : DropResult) (dest : DraggableLocation) (x : entry) :
  wf_obj (funnelStages cl) ->
  destination result = Some dest ->
  type result = lit "LANE" ->
  nth_error (getSortedStages cl) (index (source result)) = Some x ->
  forall r, r = fire env (fun cl => CRM.handleDragEnd cl result) cl \/
            r = fire env (fun cl => CRMLanes.handleDragEnd cl result) cl ->
  let spliced :=
    splice_insert (index dest) x
      (snd (splice_remove1 (index (source result)) (getSortedStages cl))) in
  getSortedStages (final r) = numbered spliced /\
  map fst (getSortedStages (final r)) = map fst spliced /\
  (index dest = index (source result) ->
   map fst (getSortedStages (final r)) = map fst (getSortedStages cl)) /\
  leads (final r) = leads cl /\ calls r = [].
Proof.
  intros Hwf Hdest Htype Hx r Hr spliced.
  assert (Hrun : r = run env (reorderLanes cl (source result) dest) cl).
  { apply str_eqb_eq in Htype.
    destruct Hr as [-> | ->]; unfold fire, CRM.handleDragEnd,
      CRMLanes.handleDragEnd; rewrite Hdest, Htype; reflexivity. }
  rewrite (reorderLanes_run cl (source result) dest x Hx) in Hrun.
  fold spliced in Hrun.
  pose proof (getSortedStages_perm cl) as Hsort.
  assert (Hperm : Permutation spliced (funnelStages cl)).
  { unfold spliced. rewrite splice_insert_perm.
    destruct (splice_remove1_perm (index (source result)) (getSortedStages cl))
      as (y & Hfst & Hp).
    { apply nth_error_Some. congruence. }
    assert (y = x).
    { unfold splice_remove1 in Hfst. simpl in Hfst.
      destruct (nth_error_split _ _ Hx) as (l1 & l2 & Hs & Hlen).
      rewrite Hs, <- Hlen in Hfst.
      destruct (firstn_skipn_middle l1 l2 x) as (_ & E & _).
      rewrite E in Hfst. simpl in Hfst. congruence. }
    subst y. rewrite Hp. exact Hsort. }
  destruct (renumber_spec spliced 0 (funnelStages cl))
    as (o' & Hren & Hkeys & _ & Hnum & Hmeta).
  { apply (Permutation_NoDup (Permutation_sym (keys_perm _ _ Hperm))). exact Hwf. }
  { intros k Hk. apply (Permutation_in k (keys_perm _ _ Hperm)). exact Hk. }
  rewrite Hren in Hrun.
  assert (Hfs : funnelStages (final r) = o') by (rewrite Hrun; reflexivity).
  assert (Hlr : leads (final r) = leads cl) by (rewrite Hrun; reflexivity).
  assert (Hcr : calls r = []) by (rewrite Hrun; reflexivity).
  set (G := fun e : entry => (fst e, with_order (snd e) (order_of o' (fst e)))).
  assert (Ho' : o' = map G (funnelStages cl)).
  { apply (obj_eq_map (fun k v => with_order v (order_of o' k)));
      assumption. }
  assert (Hnumbered : map G spliced = numbered spliced).
  { apply (map_numbered G spliced 0). intros j e Hj. unfold G.
    rewrite (Hnum j (fst e)); [reflexivity|].
    rewrite nth_error_map, Hj. reflexivity. }
  assert (Hsorted : Array_sort
            (fun a b : entry => num_compare (order (snd a)) (order (snd b))) o'
            = numbered spliced).
  { apply sorted_unique.
    - apply numbered_strict.
    - apply Array_sort_strongly_sorted.
    - rewrite Array_sort_perm, Ho', <- Hnumbered.
      apply Permutation_map. symmetry. exact Hperm. }
  assert (Hdisplay : getSortedStages (final r) = numbered spliced).
  { unfold getSortedStages, Object_entries. rewrite Hfs. exact Hsorted. }
  assert (Hk : map fst (numbered spliced) = map fst spliced)
    by apply numbered_keys.
  rewrite Hdisplay.
  split; [reflexivity|]. split; [exact Hk|]. split; [|split; assumption].
  intros Hsame. rewrite Hk. unfold spliced, splice_remove1, splice_insert.
  rewrite Hsame. cbn [snd].
  destruct (nth_error_split _ _ Hx) as (l1 & l2 & Hs & Hlen).
  unfold getSortedStages in *. rewrite Hs, <- Hlen.
  destruct (firstn_skipn_middle l1 l2 x) as (-> & _ & ->).
  rewrite firstn_app, skipn_app, Nat.sub_diag, firstn_all, skipn_all.
  simpl. rewrite app_nil_r. reflexivity.
Qed.

End LaneDrag.

Section Arrows.

Local Abbreviation entry := (str * FunnelStage)%type.

Lemma nth_error_middle {A} (l1 l2 : list A) (x : A) :
  nth_error (l1 ++ x :: l2) (length l1) = Some x.
Proof. induction l1 as [|y l1 IH]; simpl; [reflexivity | exact IH]. Qed.

Lemma findIndex_absent {A} (p : A -> bool) (l : list A) :
  (forall x, In x l -> p x = false) -> findIndex p l = None.
Proof.
  induction l as [|y t IH]; intros H; simpl; [reflexivity|].
  rewrite (H y (or_introl eq_refl)), IH; [reflexivity|].
  intros x Hx. apply H. right. exact Hx.
Qed.

Lemma sorted_entry_lookup (cl : State) (k : str) (v : FunnelStage) :
  wf_obj (funnelStages cl) ->
  In (k, v) (getSortedStages cl) ->
  obj_get k (funnelStages cl) = Some v.
Proof.
  intros Hwf Hin. apply In_obj_get; [exact Hwf|].
  apply (Permutation_in _ (getSortedStages_perm cl)). exact Hin.
Qed.

Lemma sorted_keys_NoDup (cl : State) :
  wf_obj (funnelStages cl) -> NoDup (map fst (getSortedStages cl)).
Proof.
  intros Hwf.
  apply (Permutation_NoDup
           (Permutation_sym (keys_perm _ _ (getSortedStages_perm cl)))).
  exact Hwf.
Qed.

Lemma swap_orders_sym a va b vb (o : obj FunnelStage) :
  a <> b -> swap_orders a va b vb o = swap_orders b vb a va o.
Proof.
  intros Hne. unfold swap_orders. apply map_ext. intros [k v]. simpl.
  destruct (str_eqb k a) eqn:Ea, (str_eqb k b) eqn:Eb; try reflexivity.
  apply str_eqb_eq in Ea, Eb. congruence.
Qed.

Lemma two_updates_swap a va b vb (o : obj FunnelStage) :
  wf_obj o -> a <> b ->
  obj_update b (fun st => with_order st (order va))
    (obj_update a (fun st => with_order st (order vb)) o)
  = swap_orders a va b vb o.
Proof.
  intros Hwf Hne.
  rewrite (obj_update_map b) by (apply obj_update_wf; exact Hwf).
  rewrite (obj_update_map a _ o Hwf), map_map. unfold swap_orders.
  apply map_ext. intros [k v]. simpl.
  destruct (str_eqb k a) eqn:Ea; simpl.
  - apply str_eqb_eq in Ea. subst k.
    assert (Hb : str_eqb a b = false) by (apply str_eqb_neq; exact Hne).
    rewrite Hb. reflexivity.
  - reflexivity.
Qed.

(** The two arrows that exchange two neighbours. *)
Lemma moveLane_run (cl : State) (l1 l2 : list entry) a va b vb :
  wf_obj (funnelStages cl) ->
  getSortedStages cl = l1 ++ (a, va) :: (b, vb) :: l2 ->
  a <> b /\
  CRM.moveLane cl a Right
  = SetState (setFunnelStages (fun _ => swap_orders a va b vb (funnelStages cl))) Ret /\
  CRM.moveLane cl b Left
  = SetState (setFunnelStages (fun _ => swap_orders a va b vb (funnelStages cl))) Ret.
Proof.
  intros Hwf Hs.
  pose proof (sorted_keys_NoDup cl Hwf) as Hnd.
  assert (Ha : nth_error (getSortedStages cl) (length l1) = Some (a, va))
    by (rewrite Hs; apply nth_error_middle).
  assert (Hb : nth_error (getSortedStages cl) (S (length l1)) = Some (b, vb)).
  { rewrite Hs. change (l1 ++ (a, va) :: (b, vb) :: l2)
      with (l1 ++ [(a, va)] ++ (b, vb) :: l2).
    rewrite app_assoc.
    replace (S (length l1)) with (length (l1 ++ [(a, va)]))
      by (rewrite length_app; simpl; lia).
    apply nth_error_middle. }
  assert (Hne : a <> b).
  { intros ->.
    assert (length l1 = S (length l1)); [|lia].
    apply (proj1 (NoDup_nth_error _) Hnd).
    - rewrite length_map. apply nth_error_Some. congruence.
    - rewrite !nth_error_map, Ha, Hb. reflexivity. }
  assert (Hga : obj_get a (funnelStages cl) = Some va)
    by (apply sorted_entry_lookup; [exact Hwf | apply (nth_error_In _ _ Ha)]).
  assert (Hgb : obj_get b (funnelStages cl) = Some vb)
    by (apply sorted_entry_lookup; [exact Hwf | apply (nth_error_In _ _ Hb)]).
  assert (Hlen : S (length l1) < length (getSortedStages cl))
    by (apply nth_error_Some; congruence).
  split; [exact Hne|]. split.
  - unfold CRM.moveLane.
    rewrite (findIndex_nth _ _ a va Hnd Ha).
    replace (Z.to_nat (Z.of_nat (length l1) + 1)) with (S (length l1)) by lia.
    rewrite Hga, Hb, Hgb.
    destruct ((Z.of_nat (length l1) + 1 <? 0)%Z
              || (Z.of_nat (length l1) + 1 >=? Z.of_nat (length (getSortedStages cl)))%Z)
      eqn:E.
    { apply orb_true_iff in E. rewrite Z.ltb_lt, Z.geb_leb, Z.leb_le in E. lia. }
    rewrite (two_updates_swap a va b vb _ Hwf Hne). reflexivity.
  - unfold CRM.moveLane.
    rewrite (findIndex_nth _ _ b vb Hnd Hb).
    replace (Z.to_nat (Z.of_nat (S (length l1)) - 1)) with (length l1) by lia.
    rewrite Hgb, Ha, Hga.
    destruct ((Z.of_nat (S (length l1)) - 1 <? 0)%Z
              || (Z.of_nat (S (length l1)) - 1 >=? Z.of_nat (length (getSortedStages cl)))%Z)
      eqn:E.
    { apply orb_true_iff in E. rewrite Z.ltb_lt, Z.geb_leb, Z.leb_le in E. lia. }
    rewrite (two_updates_swap b vb a va _ Hwf) by congruence.
    rewrite (swap_orders_sym b vb a va) by congruence. reflexivity.
Qed.

End Arrows.

Section ArrowDisplay.

Local Abbreviation entry := (str * FunnelStage)%type.

Lemma swap_orders_elsewhere a va b vb (l : list entry) :
  ~ In a (map fst l) -> ~ In b (map fst l) ->
  swap_orders a va b vb l = l.
Proof.
  intros Ha Hb. unfold swap_orders. rewrite <- (map_id l) at 2.
  apply map_ext_in. intros [k v] Hin. simpl.
  apply (in_map fst) in Hin. simpl in Hin.
  destruct (str_eqb k a) eqn:Ea; [apply str_eqb_eq in Ea; subst; contradiction|].
  destruct (str_eqb k b) eqn:Eb; [apply str_eqb_eq in Eb; subst; contradiction|].
  reflexivity.
Qed.

Lemma swap_orders_sorted a va b vb (l1 l2 : list entry) :
  NoDup (map fst (l1 ++ (a, va) :: (b, vb) :: l2)) ->
  swap_orders a va b vb (l1 ++ (a, va) :: (b, vb) :: l2)
  = l1 ++ (a, with_order va (order vb)) :: (b, with_order vb (order va)) :: l2.
Proof.
  intros Hnd. rewrite map_app in Hnd. simpl in Hnd.
  pose proof (NoDup_remove_2 _ _ _ Hnd) as Ha.
  apply NoDup_remove_1 in Hnd.
  change (map fst l1 ++ b :: map fst l2) with (map fst l1 ++ b :: map fst l2) in *.
  pose proof (NoDup_remove_2 _ _ _ Hnd) as Hb.
  assert (Hab : a <> b).
  { intros ->. apply Ha. apply in_or_app. right. left. reflexivity. }
  assert (Hbb : str_eqb b a = false) by (apply str_eqb_neq; congruence).
  unfold swap_orders at 1. rewrite map_app. simpl.
  rewrite !str_eqb_refl, Hbb.
  fold (swap_orders a va b vb l1). fold (swap_orders a va b vb l2).
  rewrite !swap_orders_elsewhere; [reflexivity| | | |];
    intros Hin; try (apply Ha; apply in_or_app; simpl; tauto);
    apply Hb; apply in_or_app; tauto.
Qed.

(** Display after two neighbours have exchanged their orders. *)
Lemma swap_orders_display (cl st' : State) (l1 l2 : list entry) a va b vb :
  wf_obj (funnelStages cl) ->
  NoDup (orders (funnelStages cl)) ->
  getSortedStages cl = l1 ++ (a, va) :: (b, vb) :: l2 ->
  funnelStages st' = swap_orders a va b vb (funnelStages cl) ->
  getSortedStages st'
  = l1 ++ (b, with_order vb (order va)) :: (a, with_order va (order vb)) :: l2.
Proof.
  intros Hwf Hdist Hs Hst'.
  pose proof (getSortedStages_perm cl) as Hperm.
  pose proof (sorted_keys_NoDup cl Hwf) as Hnd. rewrite Hs in Hnd.
  apply getSortedStages_unique.
  - rewrite Hst'. unfold swap_orders at 1.
    rewrite <- (Permutation_map _ Hperm). fold (swap_orders a va b vb (getSortedStages cl)).
    rewrite Hs, (swap_orders_sorted a va b vb l1 l2 Hnd).
    apply Permutation_app_head. apply perm_swap.
  - unfold below.
    apply (StronglySorted_map num_lt (fun e : entry => order (snd e))).
    assert (Hstrict : StronglySorted below (getSortedStages cl)).
    { apply sorted_distinct_strict; [apply getSortedStages_strongly_sorted|].
      apply (Permutation_NoDup
               (Permutation_sym (Permutation_map (fun e : entry => order (snd e)) Hperm))).
      unfold orders, Object_values in Hdist. rewrite map_map in Hdist.
      exact Hdist. }
    unfold below in Hstrict.
    apply (StronglySorted_map num_lt (fun e : entry => order (snd e))) in Hstrict.
    rewrite Hs in Hstrict. rewrite map_app in *. simpl in *. exact Hstrict.
Qed.

(** X13: on a registry without repeated orders, the right arrow of a lane
    and the left arrow of its right neighbour do the same thing: the two
    lanes change places in the displayed order and nothing else moves;
    only their [order] fields are exchanged. *)
Theorem arrow_moves_one_place (env : Remote -> Response) (cl : State)
    (l1 l2 : list entry) a va b vb :
  wf_obj (funnelStages cl) ->
  NoDup (orders (funnelStages cl)) ->
  getSortedStages cl = l1 ++ (a, va) :: (b, vb) :: l2 ->
  forall r, r = fire env (fun cl => CRM.moveLane cl a Right) cl \/
            r = fire env (fun cl => CRM.moveLane cl b Left) cl ->
  getSortedStages (final r)
  = l1 ++ (b, with_order vb (order va)) :: (a, with_order va (order vb)) :: l2 /\
  leads (final r) = leads cl /\ calls r = [] /\ threw r = false.
Proof.
  intros Hwf Hdist Hs r Hr.
  destruct (moveLane_run cl l1 l2 a va b vb Hwf Hs) as (_ & HR & HL).
  assert (Hrun : r = run env (SetState (setFunnelStages
            (fun _ => swap_orders a va b vb (funnelStages cl))) Ret) cl).
  { destruct Hr as [-> | ->]; unfold fire; [rewrite HR | rewrite HL];
      reflexivity. }
  split; [|rewrite Hrun; repeat split].
  apply (swap_orders_display cl (final r) l1 l2 a va b vb Hwf Hdist Hs).
  rewrite Hrun. reflexivity.
Qed.

Lemma swap_orders_back a va b vb (o : obj FunnelStage) :
  wf_obj o -> a <> b ->
  obj_get a o = Some va -> obj_get b o = Some vb ->
  swap_orders b (with_order vb (order va)) a (with_order va (order vb))
    (swap_orders a va b vb o) = o.
Proof.
  intros Hwf Hne Ha Hb. unfold swap_orders. rewrite map_map.
  rewrite <- (map_id o) at 2. apply map_ext_in. intros [k v] Hin.
  pose proof (In_obj_get k v o Hwf Hin) as Hk. simpl.
  destruct (str_eqb k a) eqn:Ea; simpl.
  - apply str_eqb_eq in Ea. subst k.
    assert (Hab : str_eqb a b = false) by (apply str_eqb_neq; exact Hne).
    rewrite Hab, str_eqb_refl. simpl.
    assert (v = va) by congruence. subst v. destruct va; reflexivity.
  - destruct (str_eqb k b) eqn:Eb; simpl.
    + rewrite Eb. simpl. apply str_eqb_eq in Eb. subst k.
      assert (v = vb) by congruence. subst v. destruct vb; reflexivity.
    + rewrite Eb, Ea. reflexivity.
Qed.

(** X14: on a registry without repeated orders, moving a lane right and
    then left again gives back the registry exactly as it was. *)
Theorem arrow_right_then_left (env : Remote -> Response) (cl : State)
    (l1 l2 : list entry) a va b vb :
  wf_obj (funnelStages cl) ->
  NoDup (orders (funnelStages cl)) ->
  getSortedStages cl = l1 ++ (a, va) :: (b, vb) :: l2 ->
  let moved := final (fire env (fun cl => CRM.moveLane cl a Right) cl) in
  let back := final (fire env (fun cl => CRM.moveLane cl a Left) moved) in
  funnelStages back = funnelStages cl /\
  getSortedStages back = getSortedStages cl.
Proof.
  intros Hwf Hdist Hs moved back.
  destruct (moveLane_run cl l1 l2 a va b vb Hwf Hs) as (Hne & HR & _).
  assert (Hmoved : funnelStages moved = swap_orders a va b vb (funnelStages cl)).
  { unfold moved, fire. rewrite HR. reflexivity. }
  assert (Hwf' : wf_obj (funnelStages moved)).
  { rewrite Hmoved. unfold wf_obj, Object_keys, swap_orders.
    rewrite map_map.
    erewrite map_ext; [exact Hwf|]. intros [k v]. simpl.
    destruct (str_eqb k a); [reflexivity|].
    destruct (str_eqb k b); reflexivity. }
  pose proof (swap_orders_display cl moved l1 l2 a va b vb Hwf Hdist Hs Hmoved)
    as Hdisp.
  destruct (moveLane_run moved l1 l2 b (with_order vb (order va))
              a (with_order va (order vb)) Hwf' Hdisp) as (_ & _ & HL).
  assert (Hga : obj_get a (funnelStages cl) = Some va).
  { apply sorted_entry_lookup; [exact Hwf|]. rewrite Hs.
    apply in_or_app. right. left. reflexivity. }
  assert (Hgb : obj_get b (funnelStages cl) = Some vb).
  { apply sorted_entry_lookup; [exact Hwf|]. rewrite Hs.
    apply in_or_app. right. right. left. reflexivity. }
  assert (Hback : funnelStages back = funnelStages cl).
  { unfold back, fire. rewrite HL. cbn [run final funnelStages setFunnelStages].
    rewrite Hmoved. apply swap_orders_back; assumption. }
  split; [exact Hback|]. unfold getSortedStages. rewrite Hback. reflexivity.
Qed.

End ArrowDisplay.

Section Buttons.

Local Abbreviation entry := (str * FunnelStage)%type.

Lemma split_before {A} (l : list A) (i : nat) (x : A) :
  nth_error l (S i) = Some x ->
  exists l1 y l2, l = l1 ++ y :: x :: l2 /\ length l1 = i.
Proof.
  intros Hx.
  assert (Hy : exists y, nth_error l i = Some y).
  { destruct (nth_error l i) as [y|] eqn:E; [eauto|].
    apply nth_error_None in E.
    assert (nth_error l (S i) <> None) by congruence.
    apply nth_error_Some in H. lia. }
  destruct Hy as [y Hy].
  destruct (nth_error_split l i Hy) as (l1 & l2 & -> & Hlen).
  exists l1, y. subst i.
  change (l1 ++ y :: l2) with (l1 ++ [y] ++ l2) in Hx.
  rewrite app_assoc in Hx.
  replace (S (length l1)) with (length (l1 ++ [y]) + 0) in Hx
    by (rewrite length_app; simpl; lia).
  rewrite nth_error_app2 in Hx by lia.
  replace (length (l1 ++ [y]) + 0 - length (l1 ++ [y])) with 0 in Hx by lia.
  destruct l2 as [|z l2]; simpl in Hx; [discriminate|].
  injection Hx as ->. exists l2. split; reflexivity.
Qed.

(** With pairwise distinct orders, the exchange made by an arrow is seen
    in the state. *)
Lemma swap_changes_state (cl : State) (l1 l2 : list entry) a va b vb :
  wf_obj (funnelStages cl) ->
  NoDup (orders (funnelStages cl)) ->
  getSortedStages cl = l1 ++ (a, va) :: (b, vb) :: l2 ->
  setFunnelStages (fun _ => swap_orders a va b vb (funnelStages cl)) cl <> cl.
Proof.
  intros Hwf Hdist Hs Heq.
  destruct (moveLane_run cl l1 l2 a va b vb Hwf Hs) as (Hne & _).
  pose proof (swap_orders_display cl
                (setFunnelStages (fun _ => swap_orders a va b vb (funnelStages cl)) cl)
                l1 l2 a va b vb Hwf Hdist Hs eq_refl) as Hdisp.
  rewrite Heq, Hs in Hdisp. apply app_inv_head in Hdisp.
  injection Hdisp as Hab _. contradiction.
Qed.

(** X15: on a registry without repeated orders, the buttons of a lane
    header are enabled exactly when a press changes something.  For the
    lane displayed at position [i]: the left arrow is disabled if and only
    if [moveLane] to the left leaves the state as it is, the right arrow
    likewise, and the delete button is rendered if and only if
    [handleDeleteLane] changes the state.  For an identifier that is not
    in the registry both handlers leave the state as it is. *)
Theorem lane_buttons_agree (env : Remote -> Response) (cl : State) (i : nat)
    (k : str) (config : FunnelStage) :
  wf_obj (funnelStages cl) ->
  NoDup (orders (funnelStages cl)) ->
  nth_error (getSortedStages cl) i = Some (k, config) ->
  (leftArrowDisabled i = true <->
     final (fire env (fun cl => CRM.moveLane cl k Left) cl) = cl) /\
  (rightArrowDisabled cl i = true <->
     final (fire env (fun cl => CRM.moveLane cl k Right) cl) = cl) /\
  (deleteButtonShown config = true <->
     final (fire env (fun cl => handleDeleteLane cl k) cl) <> cl) /\
  (forall k' direction, ~ In k' (Object_keys (funnelStages cl)) ->
     final (fire env (fun cl => CRM.moveLane cl k' direction) cl) = cl /\
     final (fire env (fun cl => handleDeleteLane cl k') cl) = cl).
Proof.
  intros Hwf Hdist Hi.
  pose proof (sorted_keys_NoDup cl Hwf) as Hnd.
  pose proof (findIndex_nth _ _ k config Hnd Hi) as Hfind.
  assert (Hlt : i < length (getSortedStages cl))
    by (apply nth_error_Some; congruence).
  unfold fire.
  split; [|split; [|split]].
  - unfold leftArrowDisabled. rewrite Nat.eqb_eq. split.
    + intros ->. unfold CRM.moveLane. rewrite Hfind. reflexivity.
    + intros Hsame. destruct i as [|j]; [reflexivity|]. exfalso.
      destruct (split_before _ _ _ Hi) as (l1 & [b vb] & l2 & Hs & _).
      destruct (moveLane_run cl l1 l2 b vb k config Hwf Hs) as (_ & _ & HL).
      rewrite HL in Hsame.
      exact (swap_changes_state cl l1 l2 b vb k config Hwf Hdist Hs Hsame).
  - unfold rightArrowDisabled. rewrite Z.eqb_eq. split.
    + intros Hlast. unfold CRM.moveLane. rewrite Hfind.
      destruct ((Z.of_nat i + 1 <? 0)%Z
                || (Z.of_nat i + 1 >=? Z.of_nat (length (getSortedStages cl)))%Z)
        eqn:E; [reflexivity|].
      apply orb_false_iff in E. rewrite Z.ltb_ge, Z.geb_leb, Z.leb_gt in E. lia.
    + intros Hsame.
      destruct (nth_error (getSortedStages cl) (S i)) as [[b vb]|] eqn:Hnext.
      * exfalso.
        destruct (split_before _ _ _ Hnext) as (l1 & y & l2 & Hs & Hl1).
        assert (y = (k, config)).
        { rewrite Hs, <- Hl1, nth_error_middle in Hi. congruence. }
        subst y.
        destruct (moveLane_run cl l1 l2 k config b vb Hwf Hs) as (_ & HR & _).
        rewrite HR in Hsame.
        exact (swap_changes_state cl l1 l2 k config b vb Hwf Hdist Hs Hsame).
      * apply nth_error_None in Hnext. lia.
  - assert (Hget : obj_get k (funnelStages cl) = Some config)
      by (apply sorted_entry_lookup; [exact Hwf | apply (nth_error_In _ _ Hi)]).
    unfold handleDeleteLane, is_editable, deleteButtonShown. rewrite Hget.
    destruct (editable config) as [[|]|]; simpl; split;
      try discriminate; try (intros H; exfalso; apply H; reflexivity).
    + intros _ Hsame.
      apply (f_equal (fun s => obj_get k (funnelStages s))) in Hsame.
      simpl in Hsame. rewrite obj_get_delete_eq, Hget in Hsame. discriminate.
    + reflexivity.
  - intros k' direction Hk'. split.
    + unfold CRM.moveLane. rewrite findIndex_absent; [reflexivity|].
      intros [k2 v2] Hin. simpl. apply str_eqb_neq. intros ->. apply Hk'.
      apply (Permutation_in _ (keys_perm _ _ (getSortedStages_perm cl))).
      apply (in_map fst) in Hin. exact Hin.
    + apply obj_get_None in Hk'.
      unfold handleDeleteLane, is_editable. rewrite Hk'. reflexivity.
Qed.

End Buttons.

(** ** What the gestures leave alone in the registry *)

Ltac untouched_step :=
  match goal with
  | |- True => exact I
  | |- forall s, funnelStages s = _ -> _ =>
      intros ? ?; simpl; assumption
  | |- forall r : Response, _ => intros [?|]
  | |- _ /\ _ => split
  | |- all_updates _ (match ?x with _ => _ end) => destruct x eqn:?
  | |- all_updates _ _ => progress simpl
  end.

Lemma lead_program_untouched (o : obj FunnelStage) L S :
  all_updates (fun f => forall s, funnelStages s = o -> funnelStages (f s) = o)
    (CRM.moveLeadToStatus L S).
Proof.
  unfold CRM.moveLeadToStatus, updateTrialRegistrationStatus.
  repeat untouched_step.
Qed.

Lemma moveLane_orders_perm (cl : State) (laneId : str) (direction : Direction)
    (env : Remote -> Response) :
  wf_obj (funnelStages cl) ->
  let after := funnelStages (final (fire env
                 (fun cl => CRM.moveLane cl laneId direction) cl)) in
  Object_keys after = Object_keys (funnelStages cl) /\
  Permutation (orders after) (orders (funnelStages cl)) /\
  (forall k v, obj_get k (funnelStages cl) = Some v ->
     obj_get k after = Some (with_order v (order_of after k))).
Proof.
  intros Hwf. cbv zeta. unfold fire.
  destruct (moveLane_spec cl laneId direction Hwf)
    as [-> | (o' & target & -> & Hdiff & Hin1 & Hin2 & Hkeys & Horder & Hmeta)];
    simpl.
  - split; [reflexivity|]. split; [reflexivity|].
    intros k v Hv. unfold order_of. rewrite Hv, with_order_same. reflexivity.
  - split; [exact Hkeys|]. split; [|exact Hmeta].
    rewrite (orders_order_of o') by (unfold wf_obj; rewrite Hkeys; exact Hwf).
    rewrite (orders_order_of (funnelStages cl) Hwf), Hkeys.
    rewrite (map_ext _ _ Horder), <- map_map.
    apply Permutation_map. apply exchange_perm; assumption.
Qed.

Lemma lane_drag_effect (cl : State) (src dst : DraggableLocation)
    (env : Remote -> Response) :
  wf_obj (funnelStages cl) ->
  let after := funnelStages (final (run env (reorderLanes cl src dst) cl)) in
  Object_keys after = Object_keys (funnelStages cl) /\
  (after = funnelStages cl \/ dense_orders after) /\
  (forall k v, obj_get k (funnelStages cl) = Some v ->
     obj_get k after = Some (with_order v (order_of after k))).
Proof.
  intros Hwf. cbv zeta.
  destruct (Nat.lt_ge_cases (index src) (length (funnelStages cl))) as [Hlt | Hge].
  - destruct (reorderLanes_spec cl src dst Hwf Hlt)
      as (o' & -> & Hkeys & Hdense & Hmeta). simpl. auto.
  - rewrite (reorderLanes_out_of_range cl src dst Hge). simpl.
    split; [reflexivity|]. split; [left; reflexivity|].
    intros k v Hv. unfold order_of. rewrite Hv, with_order_same. reflexivity.
Qed.

Section Frame.
Variable toLowerCase : str -> str.
Variable env : Remote -> Response.

(** The gestures that never write the registry. *)
Lemma registry_untouched (e : Event) (st : State) :
  match e with
  | DragEnd result => type result <> lit "LANE"
  | ClickArrow _ _ | ClickDeleteLane _ | ClickCreateLane => False
  | _ => True
  end ->
  funnelStages (final (fire env (handle toLowerCase e) st)) = funnelStages st.
Proof.
  intros He. unfold fire.
  apply (run_all_updates (fun s => funnelStages s = funnelStages st));
    [|reflexivity].
  destruct e; try contradiction; simpl.
  - unfold loadLeads, getTrialRegistrations. repeat untouched_step.
  - unfold CRM.handleDragEnd.
    destruct (destination result) as [dest|]; [|exact I].
    apply str_eqb_neq in He. rewrite He.
    destruct (_ && _); [exact I|]. apply lead_program_untouched.
  - unfold handleLeadClick. repeat untouched_step.
  - repeat untouched_step.
  - apply lead_program_untouched.
  - repeat untouched_step.
  - unfold CRM.moveLeadToStatus, updateTrialRegistrationStatus. simpl.
    repeat untouched_step.
  - repeat untouched_step.
  - repeat untouched_step.
  - repeat untouched_step.
  - repeat untouched_step.
  - repeat untouched_step.
Qed.

(** X16: no gesture other than creating or deleting a lane changes the
    identifiers of the registry, their enumeration, or the title, colour
    or editable flag of a stage: drags and arrows rewrite [order] fields
    only, and every other gesture leaves the registry alone. *)
Theorem registry_frame (e : Event) (st : State) :
  wf_obj (funnelStages st) ->
  e <> ClickCreateLane ->
  (forall laneId, e <> ClickDeleteLane laneId) ->
  let after := funnelStages (final (fire env (handle toLowerCase e) st)) in
  Object_keys after = Object_keys (funnelStages st) /\
  forall k v, obj_get k (funnelStages st) = Some v ->
    exists v', obj_get k after = Some v' /\
      title v' = title v /\ color v' = color v /\ editable v' = editable v.
Proof.
  intros Hwf Hcreate Hdelete. cbv zeta.
  assert (Hsame : forall o', o' = funnelStages st ->
            Object_keys o' = Object_keys (funnelStages st) /\
            forall k v, obj_get k (funnelStages st) = Some v ->
              exists v', obj_get k o' = Some v' /\
                title v' = title v /\ color v' = color v /\
                editable v' = editable v).
  { intros o' ->. split; [reflexivity|]. intros k v Hv. exists v. auto. }
  assert (Hmeta : forall o',
            Object_keys o' = Object_keys (funnelStages st) ->
            (forall k v, obj_get k (funnelStages st) = Some v ->
               obj_get k o' = Some (with_order v (order_of o' k))) ->
            Object_keys o' = Object_keys (funnelStages st) /\
            forall k v, obj_get k (funnelStages st) = Some v ->
              exists v', obj_get k o' = Some v' /\
                title v' = title v /\ color v' = color v /\
                editable v' = editable v).
  { intros o' Hk Hm. split; [exact Hk|]. intros k v Hv.
    exists (with_order v (order_of o' k)). split; [apply Hm; exact Hv|].
    repeat split. }
  destruct e; try (apply Hsame; apply registry_untouched; exact I).
  - destruct (str_eqb (type result) (lit "LANE")) eqn:Et.
    + unfold fire. simpl. unfold CRM.handleDragEnd. rewrite Et.
      destruct (destination result) as [dest|]; [|apply Hsame; reflexivity].
      destruct (lane_drag_effect st (source result) dest env Hwf)
        as (Hk & _ & Hm).
      apply Hmeta; assumption.
    + apply Hsame. apply registry_untouched. apply str_eqb_neq. exact Et.
  - destruct (moveLane_orders_perm st laneId direction env Hwf) as (Hk & _ & Hm).
    apply Hmeta; assumption.
  - exfalso. apply (Hdelete laneId). reflexivity.
  - contradiction.
Qed.
End Frame.

(** ** Orders stay distinct *)

Lemma fold_max_int (l : list num) : forall z,
  Forall (fun n => exists y, n = Int y) l ->
  exists y, fold_left num_max l (Int z) = Int y.
Proof.
  induction l as [|n l IH]; intros z Hall; simpl; [eauto|].
  inversion Hall as [|? ? [y ->] Hrest]; subst. simpl. apply IH. exact Hrest.
Qed.

Lemma Math_max_int (l : list num) :
  l <> [] -> Forall (fun n => exists y, n = Int y) l ->
  exists z, Math_max l = Int z.
Proof.
  intros Hne Hall. destruct l as [|n l]; [contradiction|].
  inversion Hall as [|? ? [y ->] Hrest]; subst.
  unfold Math_max. simpl. apply fold_max_int. exact Hrest.
Qed.

(** A selection of the entries keeps the orders distinct and integer. *)
Lemma orders_filter_NoDup (p : str * FunnelStage -> bool) (o : obj FunnelStage) :
  NoDup (orders o) -> NoDup (orders (filter p o)).
Proof.
  unfold orders, Object_values.
  induction o as [|e o IH]; simpl; intros Hnd; [constructor|].
  apply NoDup_cons_iff in Hnd. destruct Hnd as [Hfresh Hnd].
  destruct (p e); simpl; [|exact (IH Hnd)].
  apply NoDup_cons_iff. split; [|exact (IH Hnd)].
  intros Hin. apply Hfresh.
  rewrite map_map in *. apply in_map_iff in Hin.
  destruct Hin as (e' & He' & Hin). apply filter_In in Hin.
  apply in_map_iff. exists e'. tauto.
Qed.

Lemma orders_filter_int (p : str * FunnelStage -> bool) (o : obj FunnelStage) :
  Forall (fun n => exists z, n = Int z) (orders o) ->
  Forall (fun n => exists z, n = Int z) (orders (filter p o)).
Proof.
  unfold orders, Object_values. rewrite !map_map, !Forall_map, !Forall_forall.
  intros H e He. apply filter_In in He. apply H. tauto.
Qed.

Lemma dense_distinct (o : obj FunnelStage) :
  dense_orders o -> distinct_int_orders o.
Proof.
  unfold dense_orders, distinct_int_orders, dense. intros Hd. split.
  - apply (Permutation_NoDup (Permutation_sym Hd)).
    apply Finite.Injective_map_NoDup; [|apply seq_NoDup].
    intros a b H. injection H. lia.
  - apply Forall_forall. intros n Hn.
    apply (Permutation_in n Hd) in Hn. apply in_map_iff in Hn.
    destruct Hn as (j & <- & _). eauto.
Qed.

Lemma distinct_perm (o o' : obj FunnelStage) :
  Permutation (orders o') (orders o) ->
  distinct_int_orders o -> distinct_int_orders o'.
Proof.
  unfold distinct_int_orders. intros Hp [Hnd Hint]. split.
  - apply (Permutation_NoDup (Permutation_sym Hp)). exact Hnd.
  - apply Forall_forall. intros n Hn. rewrite Forall_forall in Hint.
    apply Hint. apply (Permutation_in n Hp). exact Hn.
Qed.

(** A stage written with an order above all the others. *)
Lemma distinct_after_set (o : obj FunnelStage) (k : str) (v : FunnelStage) (z : Z) :
  wf_obj o ->
  distinct_int_orders o ->
  order v = Int z ->
  (forall y, In y o -> num_lt (order (snd y)) (order v)) ->
  distinct_int_orders (obj_set k v o).
Proof.
  intros Hwf [Hnd Hint] Hv Hbelow.
  assert (Hsplit : exists l1 l2,
            obj_set k v o = l1 ++ (k, v) :: l2 /\
            l1 ++ l2 = filter (fun e => negb (str_eqb (fst e) k)) o).
  { destruct (obj_get k o) as [w|] eqn:E.
    - destruct (obj_set_present_split k v w o Hwf E) as (l1 & l2 & _ & H1 & H2).
      exists l1, l2. auto.
    - destruct (obj_set_fresh_split k v o E) as (l1 & l2 & H1 & H2).
      exists l1, l2. split; [exact H2|].
      rewrite (filter_absent_key k o E). auto. }
  destruct Hsplit as (l1 & l2 & -> & Hrest).
  assert (Hnd' : NoDup (orders (l1 ++ l2))).
  { rewrite Hrest. apply orders_filter_NoDup. exact Hnd. }
  assert (Hint' : Forall (fun n => exists y, n = Int y) (orders (l1 ++ l2))).
  { rewrite Hrest. apply orders_filter_int. exact Hint. }
  assert (Hnew : ~ In (order v) (orders (l1 ++ l2))).
  { intros Hin. unfold orders, Object_values in Hin. rewrite map_map in Hin.
    apply in_map_iff in Hin. destruct Hin as (y & Hy & Hin).
    rewrite Hrest in Hin. apply filter_In in Hin. destruct Hin as [Hin _].
    specialize (Hbelow y Hin). simpl in Hy. rewrite Hy in Hbelow.
    unfold num_lt in Hbelow. rewrite Hv in Hbelow. simpl in Hbelow.
    rewrite Z.compare_refl in Hbelow. discriminate. }
  unfold distinct_int_orders, orders, Object_values in *.
  rewrite !map_app in *. simpl. split.
  - apply NoDup_Add with (a := order v) (l := map order (map snd l1) ++ map order (map snd l2)).
    + apply Add_app.
    + split; assumption.
  - apply Forall_app in Hint'. destruct Hint' as [H1 H2].
    apply Forall_app. split; [exact H1|]. constructor; [eauto | exact H2].
Qed.

Section OrdersInvariant.
Variable toLowerCase : str -> str.
Variable env : Remote -> Response.

(** X17: the orders of the registry stay pairwise distinct integers, and
    the registry stays a well-formed object, through every gesture, a lane
    being created on an emptied registry excepted. *)
Theorem orders_stay_distinct (e : Event) (st : State) :
  wf_obj (funnelStages st) ->
  distinct_int_orders (funnelStages st) ->
  (e = ClickCreateLane -> funnelStages st <> []) ->
  let after := funnelStages (final (fire env (handle toLowerCase e) st)) in
  wf_obj after /\ distinct_int_orders after.
Proof.
  intros Hwf Hd Hcreate. cbv zeta.
  assert (Hsame : forall o', o' = funnelStages st ->
            wf_obj o' /\ distinct_int_orders o') by (intros o' ->; auto).
  destruct e; try (apply Hsame; apply registry_untouched; exact I).
  - destruct (str_eqb (type result) (lit "LANE")) eqn:Et.
    + unfold fire. simpl. unfold CRM.handleDragEnd. rewrite Et.
      destruct (destination result) as [dest|]; [|apply Hsame; reflexivity].
      destruct (lane_drag_effect st (source result) dest env Hwf)
        as (Hk & [Heq | Hdense] & _).
      * apply Hsame. exact Heq.
      * split; [unfold wf_obj; rewrite Hk; exact Hwf|].
        apply dense_distinct. exact Hdense.
    + apply Hsame. apply registry_untouched. apply str_eqb_neq. exact Et.
  - destruct (moveLane_orders_perm st laneId direction env Hwf) as (Hk & Hp & _).
    unfold fire in *. cbn [handle].
    split; [unfold wf_obj; rewrite Hk; exact Hwf|].
    apply (distinct_perm (funnelStages st)); assumption.
  - split; [apply delete_wf; exact Hwf|].
    unfold fire. simpl. unfold handleDeleteLane.
    destruct (is_editable (funnelStages st) laneId); simpl; [|exact Hd].
    destruct Hd as [Hnd Hint]. unfold distinct_int_orders, obj_delete.
    split; [apply orders_filter_NoDup | apply orders_filter_int]; assumption.
  - split; [apply create_wf; exact Hwf|].
    unfold fire. simpl. unfold handleCreateNewLane.
    destruct (truthy_str (trim (newLaneName st))); simpl; [|exact Hd].
    destruct (Math_max_int (map order (Object_values (funnelStages st))))
      as [z Hz].
    { intros Hnil. apply (Hcreate eq_refl).
      destruct (funnelStages st); [reflexivity | discriminate]. }
    { apply Hd. }
    apply (distinct_after_set _ _ _ (z + 1)); [exact Hwf | exact Hd | |].
    + simpl. rewrite Hz. reflexivity.
    + intros y Hy. simpl. apply (below_new_order _ z y Hz Hy).
Qed.
End OrdersInvariant.

(** ** The application shell *)

Section Shell.
Variable authenticateUser : str -> str -> App.AuthAnswer.

Lemma restoreSession_spec (st : App.AppState) :
  App.localStorage (App.restoreSession st) = App.localStorage st /\
  (App.flagged (App.localStorage st) ->
     App.isAuthenticated (App.restoreSession st) = true) /\
  (~ App.flagged (App.localStorage st) -> App.restoreSession st = st).
Proof.
  unfold App.restoreSession, App.flagged.
  destruct (obj_get (lit "isAuthenticated") (App.localStorage st)) as [v|].
  - destruct (str_eqb v (lit "true")) eqn:E.
    + apply str_eqb_eq in E. subst v. simpl. repeat split.
      intros H. contradiction.
    + apply str_eqb_neq in E. repeat split; congruence.
  - repeat split. discriminate.
Qed.

(** X18: the session survives a reload and ends with a logout.  After a
    login that [authenticateUser] accepts, and after any later reload, the
    [/crm] route shows the board; after a logout, and after any later
    reload, it shows the login form.  A login that is refused or fails
    changes nothing. *)
Theorem session_round_trip (email password : str) (st : App.AppState) :
  (authenticateUser email password = App.AuthResolved true ->
     let logged := fst (App.handleLogin authenticateUser email password st) in
     App.crmRoute logged = App.CRMPage /\
     App.crmRoute (App.mount (App.localStorage logged)) = App.CRMPage /\
     App.crmRoute (App.handleLogout logged) = App.LoginPage /\
     App.crmRoute (App.mount (App.localStorage (App.handleLogout logged)))
     = App.LoginPage) /\
  (authenticateUser email password <> App.AuthResolved true ->
     fst (App.handleLogin authenticateUser email password st) = st).
Proof.
  split.
  - intros Hok. cbv zeta. unfold App.handleLogin. rewrite Hok. simpl.
    split; [reflexivity|]. split.
    + unfold App.crmRoute, App.mount.
      destruct (restoreSession_spec
        {| App.isAuthenticated := false;
           App.localStorage := obj_set (lit "isAuthenticated") (lit "true")
                                 (App.localStorage st) |}) as (_ & Hyes & _).
      rewrite Hyes; [reflexivity|]. apply obj_get_set_eq.
    + split; [reflexivity|].
      unfold App.crmRoute, App.mount, App.handleLogout. cbn [App.localStorage].
      destruct (restoreSession_spec
        {| App.isAuthenticated := false;
           App.localStorage :=
             obj_delete (lit "isAuthenticated")
               (obj_set (lit "isAuthenticated") (lit "true")
                  (App.localStorage st)) |}) as (_ & _ & Hno).
      rewrite Hno; [reflexivity|]. unfold App.flagged. cbn [App.localStorage].
      rewrite obj_get_delete_eq. discriminate.
  - intros Hno. unfold App.handleLogin.
    destruct (authenticateUser email password) as [[|]|]; try reflexivity.
    contradiction.
Qed.

Lemma app_step_flag (e : App.AppEvent) (st : App.AppState) :
  (App.isAuthenticated st = true -> App.flagged (App.localStorage st)) ->
  App.isAuthenticated (App.app_step authenticateUser e st) = true ->
  App.flagged (App.localStorage (App.app_step authenticateUser e st)).
Proof.
  intros Hinv. destruct e; simpl.
  - unfold App.handleLogin.
    destruct (authenticateUser email password) as [[|]|]; simpl;
      [intros _; apply obj_get_set_eq | exact Hinv | exact Hinv].
  - discriminate.
  - unfold App.mount.
    destruct (restoreSession_spec
      {| App.isAuthenticated := false;
         App.localStorage := App.localStorage st |}) as (Hls & _ & Hno).
    intros Hauth. rewrite Hls. cbn [App.localStorage] in *.
    unfold App.restoreSession, App.flagged in *. cbn [App.localStorage] in *.
    destruct (obj_get (lit "isAuthenticated") (App.localStorage st)) as [v|];
      [|discriminate].
    destruct (str_eqb v (lit "true")) eqn:E; [|discriminate].
    apply str_eqb_eq in E. congruence.
Qed.

(** X19: the board is never shown without the stored flag.  From a page
    load on any storage and through any sequence of logins, logouts and
    reloads, whenever the [/crm] route shows the board the storage holds
    "isAuthenticated" = "true"; and a page load shows the board exactly
    when the storage it finds holds that flag, [authenticateUser] not
    being consulted. *)
Theorem board_needs_stored_flag (storage : obj str) (es : list App.AppEvent) :
  (App.crmRoute (App.mount storage) = App.CRMPage <-> App.flagged storage) /\
  let st := App.app_play authenticateUser es (App.mount storage) in
  (App.crmRoute st = App.CRMPage -> App.flagged (App.localStorage st)).
Proof.
  assert (Hroute : forall st, App.crmRoute st = App.CRMPage <->
                              App.isAuthenticated st = true).
  { intros st. unfold App.crmRoute. destruct (App.isAuthenticated st);
      split; congruence. }
  assert (Hmount : App.isAuthenticated (App.mount storage) = true <->
                   App.flagged storage).
  { unfold App.mount.
    destruct (restoreSession_spec
      {| App.isAuthenticated := false; App.localStorage := storage |})
      as (_ & Hyes & Hno). cbn [App.localStorage] in *. split; [|exact Hyes].
    intros Hauth. unfold App.restoreSession, App.flagged in *.
    cbn [App.localStorage] in *.
    destruct (obj_get (lit "isAuthenticated") storage) as [v|]; [|discriminate].
    destruct (str_eqb v (lit "true")) eqn:E; [|discriminate].
    apply str_eqb_eq in E. congruence. }
  split; [rewrite Hroute; exact Hmount|].
  cbv zeta. rewrite Hroute.
  assert (Hinv0 : App.isAuthenticated (App.mount storage) = true ->
                  App.flagged (App.localStorage (App.mount storage))).
  { intros H. apply Hmount in H. unfold App.mount.
    destruct (restoreSession_spec
      {| App.isAuthenticated := false; App.localStorage := storage |})
      as (-> & _). exact H. }
  revert Hinv0. generalize (App.mount storage) as st.
  unfold App.app_play. induction es as [|e es IH]; intros st Hinv; simpl.
  - exact Hinv.
  - apply IH. apply app_step_flag. exact Hinv.
Qed.

End Shell.

(** ** More on identifiers *)

Lemma replace_ws_fixed (s : str) :
  Forall (fun c => is_ws c = false) s -> replace_ws s = s.
Proof.
  induction s as [|c t IH]; intros H; simp replace_ws; [reflexivity|].
  inversion H as [|? ? Hc Ht]; subst. rewrite Hc. simpl.
  rewrite (IH Ht). reflexivity.
Qed.

Lemma replace_ws_length (s : str) : length (replace_ws s) <= length s.
Proof.
  funelim (replace_ws s); simpl.
  - lia.
  - pose proof (dropWhile_length is_ws t). lia.
  - lia.
Qed.

Lemma replace_ws_nil (s : str) : replace_ws s = [] <-> s = [].
Proof.
  split; [|intros ->; reflexivity].
  destruct s as [|c t]; [reflexivity|]. simp replace_ws.
  destruct (is_ws c); simpl; discriminate.
Qed.

(** X20: the replace that makes identifiers is idempotent, never
    lengthens a string, returns the empty string for the empty string
    only, and looks at whitespace runs as wholes: replacing one whitespace
    character of the title by a longer run of whitespace does not change
    the identifier. *)
Theorem slug_facts (s : str) :
  replace_ws (replace_ws s) = replace_ws s /\
  length (replace_ws s) <= length s /\
  (replace_ws s = [] <-> s = []) /\
  (forall (l1 l2 : str) (c d : N),
     is_ws c = true -> is_ws d = true ->
     replace_ws (l1 ++ c :: d :: l2) = replace_ws (l1 ++ d :: l2)).
Proof.
  split; [apply replace_ws_fixed; apply replace_ws_no_ws|].
  split; [apply replace_ws_length|]. split; [apply replace_ws_nil|].
  intros l1 l2 c d Hc Hd. rewrite !replace_ws_underscore_runs.
  induction l1 as [|x l1 IH]; simpl.
  - apply underscore_runs_ws_ws; assumption.
  - destruct (is_ws x) eqn:Hx.
    + rewrite !(underscore_runs_ws x) by exact Hx. f_equal.
      destruct l1 as [|y l1]; simpl.
      * rewrite Hc, Hd. reflexivity.
      * destruct (is_ws y) eqn:Hy.
        -- simpl in IH. rewrite !(underscore_runs_ws y) in IH by exact Hy.
           injection IH as IH. exact IH.
        -- exact IH.
    + rewrite !(underscore_runs_other x) by exact Hx. f_equal. exact IH.
Qed.

(** ** What is sent to the store *)

Ltac calls_step :=
  match goal with
  | |- True => exact I
  | |- forall r : Response, _ => intros [?|]
  | |- _ /\ _ => split
  | |- all_calls _ (match ?x with _ => _ end) => destruct x eqn:?
  | |- all_calls _ _ => progress simpl
  end.

Lemma reorderLanes_calls (Q : Remote -> Prop) cl src dst :
  all_calls Q (reorderLanes cl src dst).
Proof.
  unfold reorderLanes.
  destruct (splice_remove1 _ _) as [removed rest]. repeat calls_step.
Qed.

Lemma no_calls (env : Remote -> Response) (p : Prog) (st : State) :
  all_calls (fun _ => False) p -> calls (run env p st) = [].
Proof.
  intros H. pose proof (run_all_calls _ env p st H) as Hall.
  destruct (calls (run env p st)) as [|c l]; [reflexivity|].
  inversion Hall; contradiction.
Qed.

(** X21: a drag sends at most one call, and it can only be the status
    update of the dragged lead to the stage it was dropped on; a drop
    outside every droppable does nothing at all.  This holds in the three
    revisions, for lane drags and lead drags alike. *)
Theorem drag_sends_one_update_at_most (env : Remote -> Response) (cl st : State)
    (result : DropResult) :
  forall r, r = run env (CRM.handleDragEnd cl result) st \/
            r = run env (CRMLanes.handleDragEnd cl result) st \/
            r = run env (CRMFixed.handleDragEnd cl result) st ->
  (destination result = None ->
     final r = st /\ calls r = [] /\ threw r = false) /\
  (calls r = [] \/
   exists dest, destination result = Some dest /\
                calls r = [status_call result dest]).
Proof.
  intros r Hr. split.
  - intros Hnone.
    destruct Hr as [-> | [-> | ->]];
      unfold CRM.handleDragEnd, CRMLanes.handleDragEnd, CRMFixed.handleDragEnd;
      rewrite Hnone; repeat split.
  - destruct (destination result) as [dest|] eqn:Hdest.
    + assert (Hlane : calls (run env (reorderLanes cl (source result) dest) st) = [])
        by (apply no_calls; apply reorderLanes_calls).
      assert (Hmove : calls (run env (CRM.moveLeadToStatus (draggableId result)
                                        (droppableId dest)) st)
                      = [status_call result dest])
        by (rewrite run_update; reflexivity).
      destruct Hr as [-> | [-> | ->]];
        unfold CRM.handleDragEnd, CRMLanes.handleDragEnd, CRMFixed.handleDragEnd;
        rewrite Hdest.
      * destruct (str_eqb (type result) (lit "LANE")); [left; exact Hlane|].
        destruct (_ && _); [left; reflexivity|].
        right. exists dest. split; [reflexivity | exact Hmove].
      * destruct (str_eqb (type result) (lit "LANE")); [left; exact Hlane|].
        destruct (str_eqb _ _); [left; reflexivity|].
        right. exists dest. split; [reflexivity | exact Hmove].
      * destruct (str_eqb _ _); [left; reflexivity|].
        right. exists dest. split; [reflexivity | exact Hmove].
    + left.
      destruct Hr as [-> | [-> | ->]];
        unfold CRM.handleDragEnd, CRMLanes.handleDragEnd, CRMFixed.handleDragEnd;
        rewrite Hdest; reflexivity.
Qed.

Section LaneGestures.
Variable toLowerCase : str -> str.
Variable env : Remote -> Response.

(** X22: the gestures that edit the registry (arrows, lane deletion, lane
    creation, a lane drag) send nothing to the store, never fail with the
    error banner, and leave the loading flag alone; apart from deletion
    they do not touch the lead cache either. *)
Theorem lane_gestures_are_local (e : Event) (st : State) :
  match e with
  | DragEnd result => type result = lit "LANE"
  | ClickArrow _ _ | ClickDeleteLane _ | ClickCreateLane => True
  | _ => False
  end ->
  let r := fire env (handle toLowerCase e) st in
  calls r = [] /\
  error (final r) = error st /\
  isLoading (final r) = isLoading st /\
  ((forall laneId, e <> ClickDeleteLane laneId) -> leads (final r) = leads st).
Proof.
  intros He. cbv zeta. unfold fire.
  assert (Hcalls : all_calls (fun _ => False) (handle toLowerCase e st)).
  { destruct e; try contradiction; simpl.
    - unfold CRM.handleDragEnd. apply str_eqb_eq in He. rewrite He.
      destruct (destination result); [apply reorderLanes_calls | exact I].
    - unfold CRM.moveLane. repeat calls_step.
    - unfold handleDeleteLane. repeat calls_step.
    - unfold handleCreateNewLane. repeat calls_step. }
  assert (Hkeep : all_updates
            (fun f => forall s,
               (error s = error st /\ isLoading s = isLoading st) ->
               (error (f s) = error st /\ isLoading (f s) = isLoading st))
            (handle toLowerCase e st)).
  { destruct e; try contradiction; simpl.
    - unfold CRM.handleDragEnd. apply str_eqb_eq in He. rewrite He.
      destruct (destination result); [|exact I]. unfold reorderLanes.
      destruct (splice_remove1 _ _) as [removed rest].
      destruct (renumber _ _ _); simpl; [|exact I]. repeat split; tauto.
    - unfold CRM.moveLane.
      repeat match goal with
             | |- all_updates _ (match ?x with _ => _ end) => destruct x eqn:?
             end; simpl; try exact I; repeat split; tauto.
    - unfold handleDeleteLane. destruct (negb _); simpl; [exact I|].
      repeat split; tauto.
    - unfold handleCreateNewLane. destruct (negb _); simpl; [exact I|].
      repeat split; tauto. }
  assert (Hleads : (forall laneId, e <> ClickDeleteLane laneId) ->
            all_updates (fun f => forall s, leads s = leads st ->
                                            leads (f s) = leads st)
              (handle toLowerCase e st)).
  { intros Hnd. destruct e; try contradiction; simpl.
    - unfold CRM.handleDragEnd. apply str_eqb_eq in He. rewrite He.
      destruct (destination result); [|exact I]. unfold reorderLanes.
      destruct (splice_remove1 _ _) as [removed rest].
      destruct (renumber _ _ _); simpl; [|exact I]. repeat split; tauto.
    - unfold CRM.moveLane.
      repeat match goal with
             | |- all_updates _ (match ?x with _ => _ end) => destruct x eqn:?
             end; simpl; try exact I; repeat split; tauto.
    - exfalso. apply (Hnd laneId). reflexivity.
    - unfold handleCreateNewLane. destruct (negb _); simpl; [exact I|].
      repeat split; tauto. }
  split; [apply no_calls; exact Hcalls|].
  pose proof (run_all_updates
    (fun s => error s = error st /\ isLoading s = isLoading st)
    env _ st Hkeep (conj eq_refl eq_refl)) as [H1 H2].
  split; [exact H1|]. split; [exact H2|].
  intros Hnd.
  apply (run_all_updates (fun s => leads s = leads st) env _ st (Hleads Hnd)
           eq_refl).
Qed.
End LaneGestures.

(** ** The lane-drag highlight *)

(** X23: in the revision with draggable lanes the highlight flag raised
    when a lane drag starts is lowered only by a drop that reorders the
    lanes.  A lane dropped outside the board, or a drop whose source index
    is past the last lane (which makes the handler throw), leaves the flag
    up and the state otherwise as it was. *)
Theorem dragging_flag (env : Remote -> Response) (st : State)
    (result : DropResult) :
  wf_obj (funnelStages st) ->
  type result = lit "LANE" ->
  let started := final (run env (onDragStart (type result)) st) in
  let r := run env (CRMLanes.handleDragEnd started result) started in
  isDraggingLane started = true /\
  (destination result = None ->
     final r = started /\ isDraggingLane (final r) = true) /\
  (forall dest, destination result = Some dest ->
     (index (source result) < length (funnelStages st) ->
        threw r = false /\ isDraggingLane (final r) = false) /\
     (length (funnelStages st) <= index (source result) ->
        threw r = true /\ final r = started /\
        isDraggingLane (final r) = true)).
Proof.
  intros Hwf Htype started r.
  assert (Hstarted : started = setIsDraggingLane true st).
  { unfold started, onDragStart. rewrite Htype.
    replace (str_eqb (lit "LANE") (lit "LANE")) with true by reflexivity.
    reflexivity. }
  assert (Hfs : funnelStages started = funnelStages st)
    by (rewrite Hstarted; reflexivity).
  split; [rewrite Hstarted; reflexivity|]. split.
  - intros Hnone. unfold r, CRMLanes.handleDragEnd. rewrite Hnone. simpl.
    split; [reflexivity | rewrite Hstarted; reflexivity].
  - intros dest Hdest.
    assert (Hr : r = run env (reorderLanes started (source result) dest) started).
    { unfold r, CRMLanes.handleDragEnd. rewrite Hdest.
      apply str_eqb_eq in Htype. rewrite Htype. reflexivity. }
    split.
    + intros Hlt. rewrite <- Hfs in Hlt, Hwf.
      destruct (reorderLanes_spec started (source result) dest Hwf Hlt)
        as (o' & Hprog & _).
      rewrite Hr, Hprog. split; reflexivity.
    + intros Hge. rewrite <- Hfs in Hge.
      rewrite Hr, (reorderLanes_out_of_range started (source result) dest Hge).
      simpl. repeat split. rewrite Hstarted. reflexivity.
Qed.

(** ** The status dropdown *)

Lemma filter_out_key_length (s : str) (l : list (str * FunnelStage)) :
  NoDup (map fst l) ->
  length (filter (fun e => negb (str_eqb (fst e) s)) l)
  + (if existsb (fun k => str_eqb k s) (map fst l) then 1 else 0)
  = length l.
Proof.
  induction l as [|[k v] t IH]; simpl; intros Hnd; [reflexivity|].
  inversion Hnd as [|? ? Hnot Hnd']; subst. specialize (IH Hnd').
  destruct (str_eqb k s) eqn:E; simpl.
  - apply str_eqb_eq in E. subst k.
    destruct (existsb (fun k => str_eqb k s) (map fst t)) eqn:Ex; [|lia].
    apply existsb_exists in Ex. destruct Ex as (k & Hin & Hk).
    apply str_eqb_eq in Hk. subst k. contradiction.
  - lia.
Qed.

Lemma filter_strongly_sorted {A} (R : A -> A -> Prop) (p : A -> bool)
    (l : list A) :
  StronglySorted R l -> StronglySorted R (filter p l).
Proof.
  induction 1 as [|x t Hs IH Hall]; simpl; [constructor|].
  destruct (p x); [|exact IH].
  constructor; [exact IH|]. rewrite Forall_forall in *.
  intros y Hy. apply filter_In in Hy. apply Hall. tauto.
Qed.

(** X24: the status dropdown of a lead card offers exactly the stages of
    the registry other than the lead's own, in displayed order; there is
    one option fewer than stages when the lead's status is a stage and as
    many as stages when it is not; the quick buttons are the first two of
    those options.  A lead whose status is not a stage is labelled with
    the raw status. *)
Theorem dropdown_options (cl : State) (lead : Lead) :
  wf_obj (funnelStages cl) ->
  (forall k v, In (k, v) (dropdownOptions cl lead) <->
               obj_get k (funnelStages cl) = Some v /\ k <> status lead) /\
  StronglySorted by_order (dropdownOptions cl lead) /\
  length (dropdownOptions cl lead)
  + (if existsb (fun k => str_eqb k (status lead))
          (Object_keys (funnelStages cl)) then 1 else 0)
  = length (funnelStages cl) /\
  quickTargets cl lead = firstn 2 (dropdownOptions cl lead) /\
  length (quickTargets cl lead) <= 2 /\
  (obj_get (status lead) (funnelStages cl) = None ->
   statusLabel cl lead = status lead /\
   length (dropdownOptions cl lead) = length (funnelStages cl)).
Proof.
  intros Hwf.
  pose proof (getSortedStages_perm cl) as Hperm.
  pose proof (sorted_keys_NoDup cl Hwf) as Hnd.
  pose proof (filter_out_key_length (status lead) (getSortedStages cl) Hnd)
    as Hlen.
  assert (Hex : existsb (fun k => str_eqb k (status lead))
                  (map fst (getSortedStages cl))
                = existsb (fun k => str_eqb k (status lead))
                    (Object_keys (funnelStages cl))).
  { apply eq_true_iff_eq. rewrite !existsb_exists.
    split; intros (k & Hin & Hk); exists k; (split; [|exact Hk]).
    - apply (Permutation_in _ (keys_perm _ _ Hperm)). exact Hin.
    - apply (Permutation_in _ (Permutation_sym (keys_perm _ _ Hperm))).
      exact Hin. }
  rewrite Hex, (Permutation_length Hperm) in Hlen.
  split.
  { intros k v. unfold dropdownOptions. rewrite filter_In. simpl.
    rewrite negb_true_iff, str_eqb_neq. split.
    - intros [Hin Hne]. split; [|exact Hne].
      apply sorted_entry_lookup; assumption.
    - intros [Hget Hne]. split; [|exact Hne].
      apply (Permutation_in _ (Permutation_sym Hperm)).
      apply obj_get_In. exact Hget. }
  split.
  { unfold dropdownOptions. apply filter_strongly_sorted.
    apply getSortedStages_strongly_sorted. }
  split; [exact Hlen|]. split; [reflexivity|]. split.
  { unfold quickTargets. rewrite length_firstn. lia. }
  intros Hnone. split.
  - unfold statusLabel. rewrite Hnone. reflexivity.
  - apply obj_get_None in Hnone.
    destruct (existsb (fun k => str_eqb k (status lead))
                (Object_keys (funnelStages cl))) eqn:Ex;
      [|unfold dropdownOptions; lia].
    apply existsb_exists in Ex. destruct Ex as (k & Hin & Hk).
    apply str_eqb_eq in Hk. subst k. contradiction.
Qed.

(** ** The sort of the stages *)

Lemma num_eqb_eq a b : num_eqb a b = true <-> a = b.
Proof.
  destruct a, b; simpl; split; try congruence; try discriminate.
  - intros H. apply Z.eqb_eq in H. congruence.
  - intros H. injection H as ->. apply Z.eqb_refl.
Qed.

Lemma sort_all_tied (l : list (str * FunnelStage)) :
  (forall x y, In x l -> In y l -> num_le (order (snd x)) (order (snd y))) ->
  Array_sort (fun a b => num_compare (order (snd a)) (order (snd b))) l = l.
Proof.
  induction l as [|x t IH]; intros H; simpl; [reflexivity|].
  rewrite IH by (intros a b Ha Hb; apply H; right; assumption).
  apply sort_insert_head. intros y Hy. apply H; [left; reflexivity | right; exact Hy].
Qed.

(** X25: [getSortedStages] lists every stage of the registry exactly once,
    in ascending order of [order], and it is stable: the stages that share
    an order value come in the enumeration order of the registry. *)
Theorem getSortedStages_spec (cl : State) :
  Permutation (getSortedStages cl) (Object_entries (funnelStages cl)) /\
  StronglySorted by_order (getSortedStages cl) /\
  forall n,
    filter (fun e => num_eqb (order (snd e)) n) (getSortedStages cl)
    = filter (fun e => num_eqb (order (snd e)) n)
        (Object_entries (funnelStages cl)).
Proof.
  split; [apply Array_sort_perm|].
  split; [apply Array_sort_strongly_sorted|].
  intros n. unfold getSortedStages. rewrite <- Array_sort_filter.
  apply sort_all_tied. intros x y Hx Hy.
  apply filter_In in Hx, Hy. destruct Hx as [_ Hx]. destruct Hy as [_ Hy].
  apply num_eqb_eq in Hx, Hy. rewrite Hx, Hy. apply num_le_refl.
Qed.

(** ** The further properties on the sample boards *)

Lemma loaded_state_wf : wf_obj (funnelStages loaded_state).
Proof. exact DEFAULT_FUNNEL_STAGES_wf. Qed.

Lemma DEFAULT_FUNNEL_STAGES_dense : dense_orders DEFAULT_FUNNEL_STAGES.
Proof. unfold dense_orders. vm_compute. apply Permutation_refl. Qed.

Lemma typing_state_non_blank : non_blank (newLaneName typing_state).
Proof. apply trim_non_blank. vm_compute. reflexivity. Qed.

Lemma registry_ignores_store_witness :
  same_local loaded_state initial_state /\
  funnelStages (play ascii_toLowerCase (store_ok sample_rows) sample_gestures
                  loaded_state)
  = funnelStages (play ascii_toLowerCase store_down sample_gestures
                    initial_state).
Proof.
  assert (H : same_local loaded_state initial_state)
    by (unfold same_local; repeat split).
  split; [exact H|].
  destruct (registry_ignores_store ascii_toLowerCase (store_ok sample_rows)
              store_down sample_gestures loaded_state initial_state H)
    as (_ & _ & _ & _ & _ & Hfs & _).
  exact Hfs.
Defined.

Lemma loadLeads_failure_witness :
  store_down SelectTrialRegistrations = Rejected /\
  leads (final (run store_down loadLeads loaded_state)) = leads loaded_state /\
  error (final (run store_down loadLeads loaded_state)) = load_error_banner.
Proof.
  split; [reflexivity|].
  destruct (loadLeads_failure store_down loaded_state eq_refl)
    as (_ & _ & Hleads & Herr & _).
  split; assumption.
Defined.

Lemma banner_is_never_cleared_witness :
  let failed := final (run store_down loadLeads initial_state) in
  error failed <> [] /\
  error (play ascii_toLowerCase (store_ok sample_rows) sample_gestures failed)
  <> [].
Proof.
  intros failed.
  assert (H : error failed <> []) by (vm_compute; discriminate).
  split; [exact H|].
  exact (banner_is_never_cleared ascii_toLowerCase (store_ok sample_rows)
           sample_gestures failed H).
Defined.

Lemma counters_add_up_witness :
  wf_obj (funnelStages loaded_state) /\
  list_sum (map (leadCount loaded_state)
              (Object_keys (funnelStages loaded_state)))
  = length (filter (fun lead => existsb (str_eqb (status lead))
                                  (Object_keys (funnelStages loaded_state)))
              (leads loaded_state)).
Proof.
  split; [exact loaded_state_wf|].
  exact (proj1 (counters_add_up loaded_state loaded_state_wf)).
Defined.


Lemma status_change_unknown_lead_witness :
  final (run (store_ok []) (CRM.moveLeadToStatus (lit "id-9") (lit "confirmed"))
           loaded_state) = loaded_state.
Proof.
  refine (proj2 (status_change_unknown_lead (store_ok []) loaded_state
                   (lit "id-9") (lit "confirmed") [] eq_refl _)).
  intros lead Hin. vm_compute in Hin.
  destruct Hin as [<- | [<- | [<- | []]]]; vm_compute; discriminate.
Defined.

Lemma with_custom_lane_editable :
  editable_stage (funnelStages with_custom_lane) (lit "em_espera").
Proof. apply is_editable_spec. vm_compute. reflexivity. Qed.

Lemma with_occupied_lane_editable :
  editable_stage (funnelStages with_occupied_lane) (lit "em_espera").
Proof. apply is_editable_spec. vm_compute. reflexivity. Qed.

Lemma delete_moves_column_to_pending_witness :
  let r := fire store_down (fun cl => handleDeleteLane cl (lit "em_espera"))
             with_occupied_lane in
  editable_stage (funnelStages with_occupied_lane) (lit "em_espera") /\
  map full_name (getLeadsByStatus with_occupied_lane (lit "em_espera"))
  = [lit "Joao Silva"] /\
  map full_name (getLeadsByStatus with_occupied_lane (lit "pending"))
  = [lit "Ana Souza"] /\
  leadCount (final r) (lit "pending") = 1 + 1 /\
  Forall2 (fun lead lead' =>
             same_but_status lead lead' /\ status lead' = lit "pending" /\
             (status lead = lit "pending" -> lead' = lead))
    [with_status (toLead row_joao) (lit "em_espera"); toLead row_ana]
    (getLeadsByStatus (final r) (lit "pending")).
Proof.
  intros r. split; [exact with_occupied_lane_editable|].
  split; [vm_compute; reflexivity|]. split; [vm_compute; reflexivity|].
  destruct (delete_moves_column_to_pending store_down with_occupied_lane
              (lit "em_espera") with_occupied_lane_editable
              ltac:(discriminate)) as (Hcount & Hcol & _).
  split; [exact Hcount | exact Hcol].
Defined.


Lemma create_dialog_witness :
  let r := fire store_down (handleCreateNewLane ascii_toLowerCase) typing_state in
  non_blank (newLaneName typing_state) /\
  newLaneName (final r) = [] /\ showNewLaneModal (final r) = false.
Proof.
  intros r. split; [exact typing_state_non_blank|].
  destruct (create_dialog ascii_toLowerCase store_down typing_state)
    as (_ & _ & _ & _ & Hyes).
  destruct (Hyes typing_state_non_blank) as (Hname & _ & Hmodal & _).
  split; assumption.
Defined.

Lemma create_then_delete_witness :
  let created := final (fire store_down (handleCreateNewLane ascii_toLowerCase)
                          typing_state) in
  obj_get (laneId_of ascii_toLowerCase typing_state) (funnelStages typing_state)
  = None /\
  funnelStages (final (fire store_down
     (fun cl' => handleDeleteLane cl' (laneId_of ascii_toLowerCase typing_state))
     created)) = funnelStages typing_state.
Proof.
  intros created.
  assert (Hfresh : obj_get (laneId_of ascii_toLowerCase typing_state)
                     (funnelStages typing_state) = None)
    by (vm_compute; reflexivity).
  split; [exact Hfresh|].
  destruct (create_then_delete ascii_toLowerCase store_down typing_state
              typing_state_non_blank Hfresh) as (_ & _ & Hback & _).
  exact Hback.
Defined.

Lemma created_lane_is_last_witness :
  maxOrder (funnelStages typing_state) = Int 6 /\
  getSortedStages (final (fire store_down (handleCreateNewLane ascii_toLowerCase)
                            typing_state))
  = filter (fun e => negb (str_eqb (fst e) (laneId_of ascii_toLowerCase typing_state)))
      (getSortedStages typing_state)
    ++ [(laneId_of ascii_toLowerCase typing_state, new_stage typing_state)].
Proof.
  assert (Hmax : maxOrder (funnelStages typing_state) = Int 6)
    by (vm_compute; reflexivity).
  split; [exact Hmax|].
  exact (created_lane_is_last ascii_toLowerCase store_down typing_state 6
           loaded_state_wf typing_state_non_blank Hmax).
Defined.

Lemma initial_sorted :
  getSortedStages initial_state
  = [] ++ (lit "pending", stage "Novos Leads" "bg-blue-500" 0)
       :: (lit "contacted", stage "Contatados" "bg-yellow-500" 1)
       :: skipn 2 DEFAULT_FUNNEL_STAGES.
Proof. vm_compute. reflexivity. Qed.

Lemma initial_orders_NoDup : NoDup (orders (funnelStages initial_state)).
Proof. apply (dense_distinct _ DEFAULT_FUNNEL_STAGES_dense). Qed.

Lemma lane_drag_display_witness :
  let result := drop "LANE" "lane-pending" "lanes" 0 "lanes" 3 in
  let r := fire store_down (fun cl => CRMLanes.handleDragEnd cl result)
             initial_state in
  map fst (getSortedStages (final r))
  = map lit ["contacted"; "confirmed"; "completed"; "pending"; "enrolled";
             "no_show"; "cancelled"]%string.
Proof.
  intros result r.
  destruct (lane_drag_display store_down initial_state result
              {| droppableId := lit "lanes"; index := 3 |}
              (lit "pending", stage "Novos Leads" "bg-blue-500" 0)
              DEFAULT_FUNNEL_STAGES_wf eq_refl eq_refl
              ltac:(vm_compute; reflexivity) r (or_intror eq_refl))
    as (_ & Hkeys & _).
  rewrite Hkeys. vm_compute. reflexivity.
Defined.

Lemma arrow_moves_one_place_witness :
  let r := fire store_down (fun cl => CRM.moveLane cl (lit "pending") Right)
             initial_state in
  getSortedStages (final r)
  = [] ++ (lit "contacted", with_order (stage "Contatados" "bg-yellow-500" 1) (Int 0))
       :: (lit "pending", with_order (stage "Novos Leads" "bg-blue-500" 0) (Int 1))
       :: skipn 2 DEFAULT_FUNNEL_STAGES.
Proof.
  intros r.
  exact (proj1 (arrow_moves_one_place store_down initial_state [] _ _ _ _ _
                  DEFAULT_FUNNEL_STAGES_wf initial_orders_NoDup initial_sorted
                  r (or_introl eq_refl))).
Defined.

Lemma arrow_right_then_left_witness :
  let moved := final (fire store_down
                 (fun cl => CRM.moveLane cl (lit "pending") Right) initial_state) in
  funnelStages (final (fire store_down
     (fun cl => CRM.moveLane cl (lit "pending") Left) moved))
  = funnelStages initial_state.
Proof.
  intros moved.
  exact (proj1 (arrow_right_then_left store_down initial_state [] _ _ _ _ _
                  DEFAULT_FUNNEL_STAGES_wf initial_orders_NoDup initial_sorted)).
Defined.

Lemma lane_buttons_agree_witness :
  nth_error (getSortedStages initial_state) 0
  = Some (lit "pending", stage "Novos Leads" "bg-blue-500" 0) /\
  final (fire store_down (fun cl => CRM.moveLane cl (lit "pending") Left)
           initial_state) = initial_state /\
  final (fire store_down (fun cl => CRM.moveLane cl (lit "pending") Right)
           initial_state) <> initial_state.
Proof.
  assert (H : nth_error (getSortedStages initial_state) 0
              = Some (lit "pending", stage "Novos Leads" "bg-blue-500" 0))
    by (vm_compute; reflexivity).
  destruct (lane_buttons_agree store_down initial_state 0 _ _
              DEFAULT_FUNNEL_STAGES_wf initial_orders_NoDup H)
    as (Hleft & Hright & _).
  split; [exact H|]. split.
  - apply Hleft. reflexivity.
  - intros Hsame. apply Hright in Hsame. vm_compute in Hsame. discriminate.
Defined.

(** Without that hypothesis an enabled arrow can do nothing: on the board
    whose two lanes both have order [-Infinity], the right arrow of the
    first lane is enabled and its press leaves the state as it is. *)
Lemma arrow_on_tied_orders :
  let cl := type_and_create (lit "b") (type_and_create (lit "a") emptied_board) in
  map fst (getSortedStages cl) = [lit "a"; lit "b"] /\
  rightArrowDisabled cl 0 = false /\
  final (fire store_down (fun cl => CRM.moveLane cl (lit "a") Right) cl) = cl.
Proof.
  cbv zeta. split; [vm_compute; reflexivity|].
  split; vm_compute; reflexivity.
Qed.

Lemma registry_frame_witness :
  Object_keys (funnelStages (final (fire store_down
     (handle ascii_toLowerCase (ClickArrow (lit "pending") Right)) initial_state)))
  = Object_keys (funnelStages initial_state).
Proof.
  refine (proj1 (registry_frame ascii_toLowerCase store_down
                   (ClickArrow (lit "pending") Right) initial_state
                   DEFAULT_FUNNEL_STAGES_wf _ _)).
  - discriminate.
  - intros laneId. discriminate.
Defined.

Lemma orders_stay_distinct_witness :
  distinct_int_orders (funnelStages typing_state) /\
  distinct_int_orders (funnelStages (final (fire store_down
     (handle ascii_toLowerCase ClickCreateLane) typing_state))).
Proof.
  assert (Hd : distinct_int_orders (funnelStages typing_state))
    by (apply (dense_distinct _ DEFAULT_FUNNEL_STAGES_dense)).
  split; [exact Hd|].
  refine (proj2 (orders_stay_distinct ascii_toLowerCase store_down
                   ClickCreateLane typing_state loaded_state_wf Hd _)).
  intros _. discriminate.
Defined.

Lemma session_round_trip_witness :
  let email := lit "admin@essenciabjj.com" in
  let logged := fst (App.handleLogin sample_auth email (lit "secret")
                       (App.mount [])) in
  sample_auth email (lit "secret") = App.AuthResolved true /\
  App.crmRoute (App.mount (App.localStorage logged)) = App.CRMPage /\
  App.crmRoute (App.mount (App.localStorage (App.handleLogout logged)))
  = App.LoginPage.
Proof.
  intros email logged.
  assert (Hok : sample_auth email (lit "secret") = App.AuthResolved true)
    by reflexivity.
  split; [exact Hok|].
  destruct (session_round_trip sample_auth email (lit "secret") (App.mount []))
    as [Hyes _].
  destruct (Hyes Hok) as (_ & Hreload & _ & Hout).
  split; assumption.
Defined.

Lemma board_needs_stored_flag_witness :
  App.crmRoute (App.mount [(lit "isAuthenticated", lit "true")]) = App.CRMPage /\
  App.crmRoute (App.mount [(lit "isAuthenticated", lit "false")]) <> App.CRMPage.
Proof.
  split.
  - apply (proj1 (board_needs_stored_flag sample_auth
                    [(lit "isAuthenticated", lit "true")] [])).
    reflexivity.
  - intros H.
    apply (proj1 (board_needs_stored_flag sample_auth
                    [(lit "isAuthenticated", lit "false")] [])) in H.
    vm_compute in H. discriminate.
Defined.

Lemma slug_facts_witness :
  replace_ws (lit "em  espera") = replace_ws (lit "em espera").
Proof.
  destruct (slug_facts []) as (_ & _ & _ & Hruns).
  exact (Hruns (lit "em") (lit "espera") 32%N 32%N eq_refl eq_refl).
Defined.

Lemma drag_sends_one_update_at_most_witness :
  let result := {| draggableId := lit "id-1"; type := lit "DEFAULT";
                   source := {| droppableId := lit "pending"; index := 0 |};
                   destination := None |} in
  final (run store_down (CRMFixed.handleDragEnd loaded_state result) loaded_state)
  = loaded_state.
Proof.
  intros result.
  destruct (drag_sends_one_update_at_most store_down loaded_state loaded_state
              result _ (or_intror (or_intror eq_refl))) as [Hnone _].
  exact (proj1 (Hnone eq_refl)).
Defined.

Lemma lane_gestures_are_local_witness :
  calls (fire (store_ok sample_rows)
           (handle ascii_toLowerCase (ClickDeleteLane (lit "em_espera")))
           with_custom_lane) = [].
Proof.
  exact (proj1 (lane_gestures_are_local ascii_toLowerCase (store_ok sample_rows)
                  (ClickDeleteLane (lit "em_espera")) with_custom_lane I)).
Defined.

Lemma dragging_flag_witness :
  let result := {| draggableId := lit "lane-pending"; type := lit "LANE";
                   source := {| droppableId := lit "lanes"; index := 0 |};
                   destination := None |} in
  let started := final (run store_down (onDragStart (type result)) initial_state) in
  isDraggingLane
    (final (run store_down (CRMLanes.handleDragEnd started result) started))
  = true.
Proof.
  intros result started.
  destruct (dragging_flag store_down initial_state result
              DEFAULT_FUNNEL_STAGES_wf eq_refl) as (_ & Hnone & _).
  exact (proj2 (Hnone eq_refl)).
Defined.

Lemma dropdown_options_witness :
  length (dropdownOptions loaded_state (toLead row_joao)) + 1
  = length (funnelStages loaded_state) /\
  length (quickTargets loaded_state (toLead row_joao)) <= 2.
Proof.
  destruct (dropdown_options loaded_state (toLead row_joao) loaded_state_wf)
    as (_ & _ & Hlen & _ & Hquick & _).
  split; [exact Hlen | exact Hquick].
Defined.
